(** * Verification of the skip list and sparse radix tree of linux-gc

    Shallow embedding of
    - [kernel/skip_lists.c] (third version, the intrusive one declared in
      [include/linux/skip_lists.h]): [skiplist_insert], [skiplist_del_init],
      [skiplist_empty], [INIT_SKIPLIST_NODE]; and the [randomLevel] of
      its first version;
    - [lib/sradix-tree.c] and its later revision (unnamed part_001):
      [sradix_tree_extend], [sradix_tree_enter], [sradix_tree_shrink],
      [sradix_tree_delete_from_leaf], [sradix_tree_lookup],
      [sradix_tree_next]. *)

From Stdlib Require Import ZArith List Bool Lia Sorting Permutation.
Import ListNotations.

(* ================================================================= *)
(** ** Skip list *)

Module SkipList.

Definition NUM_SKIPLIST_LEVEL : nat := 16.

(** Node addresses. *)
Definition ptr := nat.

(** The memory holding [struct skiplist_node]s, split by field: distinct
    fields of C structs never alias, so each field is a map from the
    node address (and, for the arrays, the level). *)
Record mem := Mem {
  lvl : ptr -> nat;               (* int level *)
  nxt : ptr -> nat -> ptr;        (* struct skiplist_node *next[16] *)
  prv : ptr -> nat -> ptr;        (* struct skiplist_node *prev[16] *)
  key : ptr -> Z                  (* keyType key (u64) *)
}.

Definition U64_MAX : Z := 2 ^ 64 - 1.

(** [~0x00] is the int -1; stored in a u64 it is [2^64 - 1]. *)
Definition u64_of_int (x : Z) : Z := x mod 2 ^ 64.

Definition upd2 (f : ptr -> nat -> ptr) (p : ptr) (k : nat) (v : ptr) :=
  fun x l => if Nat.eqb x p && Nat.eqb l k then v else f x l.

Definition set_next (m : mem) (p : ptr) (k : nat) (v : ptr) : mem :=
  Mem (lvl m) (upd2 (nxt m) p k v) (prv m) (key m).
Definition set_prev (m : mem) (p : ptr) (k : nat) (v : ptr) : mem :=
  Mem (lvl m) (nxt m) (upd2 (prv m) p k v) (key m).
Definition set_level (m : mem) (p : ptr) (v : nat) : mem :=
  Mem (fun x => if Nat.eqb x p then v else lvl m x) (nxt m) (prv m) (key m).
Definition set_key (m : mem) (p : ptr) (v : Z) : mem :=
  Mem (lvl m) (nxt m) (prv m) (fun x => if Nat.eqb x p then v else key m x).

(** [for (i = 0; i < NUM_SKIPLIST_LEVEL; i++) { next[i] = node; prev[i] = node; }]
    ([init_links n] performs the iterations [0 .. n-1]). *)
Fixpoint init_links (n : nat) (m : mem) (node : ptr) : mem :=
  match n with
  | O => m
  | S n' => let m := init_links n' m node in
            set_prev (set_next m node n' node) node n' node
  end.

(** [INIT_SKIPLIST_NODE] *)
Definition INIT_SKIPLIST_NODE (m : mem) (node : ptr) : mem :=
  let m := set_level m node 0 in
  let m := init_links NUM_SKIPLIST_LEVEL m node in
  set_key m node (u64_of_int (-1)).

(** [skiplist_empty] *)
Definition skiplist_empty (m : mem) (head : ptr) : bool :=
  Nat.eqb (nxt m head 0) head.

(** [while (q = p->next[k], q->key <= key) p = q;]  The loop is given a
    fuel; [None] means the fuel ran out (the loop did not stop). *)
Fixpoint scan (fuel : nat) (m : mem) (k : nat) (ky : Z) (p : ptr) : option ptr :=
  match fuel with
  | O => None
  | S f => let q := nxt m p k in
           if Z.leb (key m q) ky then scan f m k ky q else Some p
  end.

(** [do { scan; update[k] = p; } while (--k >= 0);] *)
Fixpoint search (fuel : nat) (m : mem) (ky : Z) (k : nat) (p : ptr)
  (update : nat -> ptr) : option (nat -> ptr) :=
  match scan fuel m k ky p with
  | None => None
  | Some p' =>
      let update' := fun l => if Nat.eqb l k then p' else update l in
      match k with
      | O => Some update'
      | S k' => search fuel m ky k' p' update'
      end
  end.

(** [do { p = update[k]; q->next[k] = p->next[k]; p->next[k] = q;
          q->prev[k] = p; q->next[k]->prev[k] = q; } while (--k >= 0);] *)
Fixpoint splice (m : mem) (update : nat -> ptr) (q : ptr) (k : nat) : mem :=
  let p := update k in
  let m1 := set_next m q k (nxt m p k) in
  let m2 := set_next m1 p k q in
  let m3 := set_prev m2 q k p in
  let m4 := set_prev m3 (nxt m3 q k) k q in
  match k with
  | O => m4
  | S k' => splice m4 update q k'
  end.

(** [skiplist_insert(head, node)].  The slots of [update] the C code
    leaves uninitialised are never read; here they hold [head]. *)
Definition skiplist_insert (fuel : nat) (m : mem) (head node : ptr) : option mem :=
  let k0 := lvl m head in
  let ky := key m node in
  match search fuel m ky k0 head (fun _ => head) with
  | None => None
  | Some update =>
      let k := lvl m node in
      let '(m, k, update) :=
        if Nat.ltb k0 k then
          (set_level m head (S k0), S k0,
           fun l => if Nat.eqb l (S k0) then head else update l)
        else (m, k, update) in
      let m := set_level m node k in
      Some (splice m update node k)
  end.

(** One level of the unlinking loop of [skiplist_del_init]. *)
Definition unlink1 (m : mem) (node : ptr) (l : nat) : mem :=
  let m1 := set_next m (prv m node l) l (nxt m node l) in
  set_prev m1 (nxt m1 node l) l (prv m1 node l).

(** [for (l = 0; l <= m; l++) unlink1] *)
Fixpoint unlink_upto (m : mem) (node : ptr) (l : nat) : mem :=
  match l with
  | O => unlink1 m node 0
  | S l' => unlink1 (unlink_upto m node l') node l
  end.

(** [while (head->next[m] == head && head->prev[m] == head && m > 0) m--;] *)
Fixpoint lower (m : mem) (head : ptr) (mm : nat) : nat :=
  match mm with
  | O => O
  | S mm' => if Nat.eqb (nxt m head mm) head && Nat.eqb (prv m head mm) head
             then lower m head mm' else mm
  end.

(** [skiplist_del_init(head, node)] *)
Definition skiplist_del_init (m : mem) (head node : ptr) : mem :=
  let mm := lvl m node in
  let m1 := unlink_upto m node mm in
  let m2 := if Nat.eqb mm (lvl m1 head)
            then set_level m1 head (lower m1 head mm) else m1 in
  INIT_SKIPLIST_NODE m2 node.

(** The caller's side of an insertion: it fills in [node->key] and
    [node->level] (the sampled level) and calls [skiplist_insert]. *)
Definition enqueue (fuel : nat) (m : mem) (head node : ptr) (ky : Z) (lv : nat)
  : option mem :=
  skiplist_insert fuel (set_key (set_level m node lv) node ky) head node.

(** A sequence of insertions: (node, key, level). *)
Fixpoint enqueue_all (fuel : nat) (m : mem) (head : ptr)
  (s : list (ptr * Z * nat)) : option mem :=
  match s with
  | [] => Some m
  | (node, ky, lv) :: s' =>
      match enqueue fuel m head node ky lv with
      | None => None
      | Some m' => enqueue_all fuel m' head s'
      end
  end.

Fixpoint del_all (m : mem) (head : ptr) (ds : list ptr) : mem :=
  match ds with
  | [] => m
  | d :: ds' => del_all (skiplist_del_init m head d) head ds'
  end.

(** Level-0 forward traversal from the header. *)
Fixpoint walk (fuel : nat) (m : mem) (head p : ptr) : list ptr :=
  match fuel with
  | O => []
  | S f => let q := nxt m p 0 in
           if Nat.eqb q head then [] else q :: walk f m head q
  end.

(** An arbitrary initial memory. *)
Definition mem0 : mem := Mem (fun _ => 0%nat) (fun _ _ => 0%nat) (fun _ _ => 0%nat) (fun _ => 0%Z).

Definition hd0 : ptr := 0.

(** *** Abstract view of the list, used by the invariant *)

(** [chain N P a l z]: starting at [a], the [next] pointers [N] visit the
    nodes [l] and then reach [z]; the [prev] pointers [P] go back. *)
Fixpoint chain (N P : ptr -> ptr) (a : ptr) (l : list ptr) (z : ptr) : Prop :=
  match l with
  | [] => N a = z /\ P z = a
  | b :: l' => N a = b /\ P b = a /\ chain N P b l' z
  end.

Definition NX (m : mem) (k : nat) : ptr -> ptr := fun x => nxt m x k.
Definition PV (m : mem) (k : nat) : ptr -> ptr := fun x => prv m x k.

(** The nodes of [L] that take part in level [k]. *)
Definition lv (m : mem) (k : nat) (L : list ptr) : list ptr :=
  filter (fun p => Nat.leb k (lvl m p)) L.

Definition maxlvl (m : mem) (L : list ptr) : nat :=
  fold_right (fun p acc => Nat.max (lvl m p) acc) 0%nat L.

(** The nodes whose key is [<= ky], as a prefix, and the rest. *)
Fixpoint take_le (m : mem) (ky : Z) (L : list ptr) : list ptr :=
  match L with
  | [] => []
  | y :: L' => if Z.leb (key m y) ky then y :: take_le m ky L' else []
  end.
Fixpoint drop_le (m : mem) (ky : Z) (L : list ptr) : list ptr :=
  match L with
  | [] => []
  | y :: L' => if Z.leb (key m y) ky then drop_le m ky L' else L
  end.

(** The skip-list invariant: [L] is the level-0 list (header excluded). *)
Record SLInv (m : mem) (head : ptr) (L : list ptr) : Prop := {
  inv_nodup : NoDup (head :: L);
  inv_chain : forall k, (k < NUM_SKIPLIST_LEVEL)%nat ->
                chain (NX m k) (PV m k) head (lv m k L) head;
  inv_sorted : Sorted (fun a b => key m a <= key m b)%Z L;
  inv_keys : forall p, In p L -> (0 <= key m p < U64_MAX)%Z;
  inv_lvls : forall p, In p L -> (lvl m p < NUM_SKIPLIST_LEVEL)%nat;
  inv_hkey : key m head = U64_MAX;
  inv_hlvl : lvl m head = maxlvl m L
}.

Definition member (m : mem) (head node : ptr) : Prop :=
  exists n, In node (walk n m head head).

(** States reachable from an initialised header by insertions of nodes
    not in the list (with a level below 16 and a u64 key) that return,
    and deletions of member nodes. *)
Inductive reachable (head : ptr) : mem -> Prop :=
| r_init : forall m, reachable head (INIT_SKIPLIST_NODE m head)
| r_ins : forall m m' fuel node ky lv,
    reachable head m -> node <> head -> ~ member m head node ->
    (lv < NUM_SKIPLIST_LEVEL)%nat -> (0 <= ky < 2 ^ 64)%Z ->
    enqueue fuel m head node ky lv = Some m' -> reachable head m'
| r_del : forall m node,
    reachable head m -> member m head node ->
    reachable head (skiplist_del_init m head node).

(** Fields of an insertion request (node, key, level). *)
Definition tnode (t : ptr * Z * nat) : ptr := fst (fst t).
Definition tkey (t : ptr * Z * nat) : Z := snd (fst t).
Definition tlvl (t : ptr * Z * nat) : nat := snd t.

(** Scenario A: keys 50, 10, 30, 10 inserted at level 0 into nodes 1..4. *)
Definition scenA : list (ptr * Z * nat) :=
  [(1%nat, 50%Z, 0%nat); (2%nat, 10%Z, 0%nat); (3%nat, 30%Z, 0%nat); (4%nat, 10%Z, 0%nat)].

(** The list holding one node (address 1, key 5, level 0). *)
Definition mem1 : mem :=
  match enqueue 10 (INIT_SKIPLIST_NODE mem0 hd0) hd0 1 5 0 with
  | Some m => m
  | None => mem0
  end.

(** [mem1] after inserting node 2 with key 3 at level 1. *)
Definition mem2 : mem :=
  match enqueue 10 mem1 hd0 2 3 1 with
  | Some m => m
  | None => mem0
  end.

End SkipList.

(* ================================================================= *)
(** ** Skip list, first version: [randomLevel] *)

Module SkipListV1.
Local Open Scope Z_scope.

(** [randomLevel(entries, randseed)] of the first skip-list version. *)
Definition randomLevel (entries randseed : Z) : Z :=
  if entries >? 31 then Z.land randseed 15
  else if entries >? 15 then Z.land randseed 7
  else if entries >? 7 then Z.land randseed 3
  else if entries >? 3 then Z.land randseed 1
  else 0.

(** The number of levels [randomLevel] draws from with [entries] entries. *)
Definition level_band (entries : Z) : Z :=
  if entries >? 31 then 16
  else if entries >? 15 then 8
  else if entries >? 7 then 4
  else if entries >? 3 then 2
  else 1.

End SkipListV1.

(* ================================================================= *)
(** ** Sparse radix tree *)

Module SRadix.

Local Open Scope Z_scope.

(** Pointers are addresses, [0] being [NULL]; the items a caller stores
    are opaque pointers as well. *)
Definition ptr := Z.
Definition NULL : ptr := 0.
Definition ENOMEM : Z := 12.

(** [unsigned int] and [unsigned long] arithmetic wraps around; an
    [int] holds the two's complement value of its 32 bits (GCC's
    conversion of an out-of-range value). *)
Definition u32 (x : Z) : Z := x mod 2 ^ 32.
Definition u64 (x : Z) : Z := x mod 2 ^ 64.
Definition s32 (x : Z) : Z :=
  let y := x mod 2 ^ 32 in if y <? 2 ^ 31 then y else y - 2 ^ 32.

(** The [int] expression [1 << n], as GCC computes it for [n < 32]
    (for [n >= 32] the C shift is undefined; the model yields 0). *)
Definition int_shl1 (n : Z) : Z := s32 (Z.shiftl 1 n).

(** [struct sradix_tree_node], field by field. *)
Record heap := Heap {
  height : ptr -> Z;          (* unsigned int height *)
  count : ptr -> Z;           (* unsigned int count *)
  fulls : ptr -> Z;           (* unsigned int fulls *)
  parent : ptr -> ptr;        (* struct sradix_tree_node *parent *)
  stores : ptr -> Z -> ptr    (* void *stores[] *)
}.

(** [struct sradix_tree_root] without its hooks; the hooks are the
    allocator of [state] below and the [assign] log, the [extend] and
    [rm] hooks being NULL. *)
Record root := Root {
  r_height : Z;               (* unsigned int height *)
  r_rnode : ptr;              (* struct sradix_tree_node *rnode *)
  r_shift : Z;                (* unsigned int shift *)
  r_stores_size : Z;          (* unsigned int stores_size *)
  r_mask : Z;                 (* unsigned int mask *)
  r_min : Z                   (* unsigned long min *)
}.

(** The caller's allocator hands out a zeroed node, taking first the
    addresses it was given back (oldest first), then fresh ones; it fails
    (returns NULL) once [budget] allocations were served.  [freed] logs
    every [root->free], [assigned] every [root->assign(node, index, item)]
    call, most recent first. *)
Record state := State {
  rt : root;
  hp : heap;
  next_fresh : ptr;
  free_pool : list ptr;
  budget : nat;
  freed : list ptr;
  assigned : list (ptr * Z * ptr)
}.

(** [init_sradix_tree_root] on a zeroed root. *)
Definition init_root (shift : Z) : root :=
  Root 0 NULL shift (u32 (Z.shiftl 1 shift)) (u32 (u32 (Z.shiftl 1 shift) - 1)) 0.

Definition zero_heap : heap :=
  Heap (fun _ => 0) (fun _ => 0) (fun _ => 0) (fun _ => NULL) (fun _ _ => NULL).

Definition upd {A} (f : ptr -> A) (p : ptr) (v : A) : ptr -> A :=
  fun q => if q =? p then v else f q.

Definition h_set_height (h : heap) (p : ptr) (v : Z) : heap :=
  Heap (upd (height h) p v) (count h) (fulls h) (parent h) (stores h).
Definition h_set_count (h : heap) (p : ptr) (v : Z) : heap :=
  Heap (height h) (upd (count h) p v) (fulls h) (parent h) (stores h).
Definition h_set_fulls (h : heap) (p : ptr) (v : Z) : heap :=
  Heap (height h) (count h) (upd (fulls h) p v) (parent h) (stores h).
Definition h_set_parent (h : heap) (p : ptr) (v : ptr) : heap :=
  Heap (height h) (count h) (fulls h) (upd (parent h) p v) (stores h).
Definition h_set_store (h : heap) (p : ptr) (o : Z) (v : ptr) : heap :=
  Heap (height h) (count h) (fulls h) (parent h)
    (upd (stores h) p (fun o' => if o' =? o then v else stores h p o')).
(** The node [p] as the allocator hands it out: all fields zero. *)
Definition h_zero (h : heap) (p : ptr) : heap :=
  Heap (upd (height h) p 0) (upd (count h) p 0) (upd (fulls h) p 0)
    (upd (parent h) p NULL) (upd (stores h) p (fun _ => NULL)).

Definition set_hp (s : state) (h : heap) : state :=
  State (rt s) h (next_fresh s) (free_pool s) (budget s) (freed s) (assigned s).
Definition set_rt (s : state) (r : root) : state :=
  State r (hp s) (next_fresh s) (free_pool s) (budget s) (freed s) (assigned s).

Definition with_rnode (r : root) (p : ptr) : root :=
  Root (r_height r) p (r_shift r) (r_stores_size r) (r_mask r) (r_min r).
Definition with_height (r : root) (v : Z) : root :=
  Root v (r_rnode r) (r_shift r) (r_stores_size r) (r_mask r) (r_min r).
Definition with_min (r : root) (v : Z) : root :=
  Root (r_height r) (r_rnode r) (r_shift r) (r_stores_size r) (r_mask r) v.

(** *** A state monad with early return and crash *)

(** A computation completes normally ([Ok]), leaves its C function
    through a [return] ([Ret]), or crashes ([Crash]: a [BUG_ON], a NULL
    dereference, a read past the caller's item array, or a loop running
    out of fuel). *)
Inductive res (A : Type) : Type :=
| Ok (a : A) (s : state)
| Ret (code : Z) (s : state)
| Crash.
Arguments Ok {A} a s.
Arguments Ret {A} code s.
Arguments Crash {A}.

Definition M (A : Type) : Type := state -> res A.

Definition ret {A} (a : A) : M A := fun s => Ok a s.
Definition bind {A B} (m : M A) (k : A -> M B) : M B :=
  fun s => match m s with
           | Ok a s' => k a s'
           | Ret c s' => Ret c s'
           | Crash => Crash
           end.
Definition crash {A} : M A := fun _ => Crash.
(** [return c;] *)
Definition throw {A} (c : Z) : M A := fun s => Ret c s.
(** A call of a C function returning [int]: its [return] ends here. *)
Definition call (m : M Z) : M Z :=
  fun s => match m s with
           | Ok v s' | Ret v s' => Ok v s'
           | Crash => Crash
           end.

Notation "x <- m ;; k" := (bind m (fun x => k))
  (at level 100, m at next level, right associativity).
Notation "' p <- m ;; k" := (bind m (fun x => match x with p => k end))
  (at level 100, p pattern, m at next level, right associativity).
Notation "m ;; k" := (bind m (fun _ : unit => k))
  (at level 100, right associativity).

Definition get_rt : M root := fun s => Ok (rt s) s.
Definition put_rt (r : root) : M unit := fun s => Ok tt (set_rt s r).

(** Reading or writing a field of the node at NULL crashes. *)
Definition rd {A} (f : heap -> ptr -> A) (p : ptr) : M A :=
  fun s => if p =? NULL then Crash else Ok (f (hp s) p) s.
Definition wr (g : heap -> heap) (p : ptr) : M unit :=
  fun s => if p =? NULL then Crash else Ok tt (set_hp s (g (hp s))).

Definition rd_height := rd height.
Definition rd_count := rd count.
Definition rd_fulls := rd fulls.
Definition rd_parent := rd parent.
Definition rd_store (p : ptr) (o : Z) : M ptr := rd (fun h q => stores h q o) p.
Definition set_height (p : ptr) (v : Z) := wr (fun h => h_set_height h p v) p.
Definition set_count (p : ptr) (v : Z) := wr (fun h => h_set_count h p v) p.
Definition set_fulls (p : ptr) (v : Z) := wr (fun h => h_set_fulls h p v) p.
Definition set_parent (p : ptr) (v : ptr) := wr (fun h => h_set_parent h p v) p.
Definition set_store (p : ptr) (o : Z) (v : ptr) :=
  wr (fun h => h_set_store h p o v) p.

(** [root->alloc()] *)
Definition alloc : M ptr := fun s =>
  match budget s with
  | O => Ok NULL s
  | S b =>
      let '(p, pool, fresh) :=
        match free_pool s with
        | q :: l => (q, l, next_fresh s)
        | [] => (next_fresh s, [], next_fresh s + 1)
        end in
      Ok p (State (rt s) (h_zero (hp s) p) fresh pool b (freed s) (assigned s))
  end.

(** [root->free(p)]: the memory keeps its contents until reused. *)
Definition free (p : ptr) : M unit := fun s =>
  Ok tt (State (rt s) (hp s) (next_fresh s) (free_pool s ++ [p]) (budget s)
           (p :: freed s) (assigned s)).

(** [root->assign(node, index, item)] *)
Definition assign (node : ptr) (index : Z) (item : ptr) : M unit := fun s =>
  Ok tt (State (rt s) (hp s) (next_fresh s) (free_pool s) (budget s)
           (freed s) ((node, index, item) :: assigned s)).

(** [sradix_node_full] *)
Definition sradix_node_full (r : root) (h : heap) (node : ptr) : bool :=
  (fulls h node =? r_stores_size r)
  || ((height h node =? 1) && (count h node =? r_stores_size r)).

Definition node_full (node : ptr) : M bool :=
  r <- get_rt;;
  fun s => if node =? NULL then Crash else Ok (sradix_node_full r (hp s) node) s.

(** *** [sradix_tree_extend] (part_001) *)

(** [while (index) { index >>= root->shift; height++; }] *)
Fixpoint extend_height (fuel : nat) (sh index height : Z) : M Z :=
  match fuel with
  | O => crash
  | S f =>
      if index =? 0 then ret height
      else extend_height f sh (Z.shiftr index sh) (u32 (height + 1))
  end.

(** [while (height > root->height) { ... }] *)
Fixpoint extend_grow (fuel : nat) (height : Z) : M Z :=
  match fuel with
  | O => crash
  | S f =>
      r <- get_rt;;
      if height >? r_height r then
        node <- alloc;;
        if node =? NULL then throw (- ENOMEM) else
        set_store node 0 (r_rnode r);;
        set_parent (r_rnode r) node;;
        let newheight := u32 (r_height r + 1) in
        set_height node newheight;;
        set_count node 1;;
        full <- node_full (r_rnode r);;
        (if full then set_fulls node 1 else ret tt);;
        r <- get_rt;;
        put_rt (with_height (with_rnode r node) newheight);;
        extend_grow f height
      else ret 0
  end.

Definition sradix_tree_extend (fuel : nat) (index : Z) : M Z := call (
  r <- get_rt;;
  (if r_rnode r =? NULL then
     node <- alloc;;
     if node =? NULL then throw (- ENOMEM) else
     set_height node 1;;
     r <- get_rt;;
     put_rt (with_height (with_rnode r node) 1)
   else ret tt);;
  r <- get_rt;;
  let height := r_height r in
  height <- extend_height fuel (r_shift r)
              (Z.shiftr index (u32 (r_shift r * height))) height;;
  _ <- extend_grow fuel height;;
  ret 0).

(** *** [sradix_tree_enter] (part_001) *)

(** [for (; offset < root->stores_size; offset++) { store = &node->stores[offset];
    tmp = *store; if (!tmp || !sradix_node_full(root, tmp)) break; }] *)
Fixpoint enter_scan (fuel : nat) (node : ptr) (offset : Z) (tmp : ptr)
  : M (Z * ptr) :=
  match fuel with
  | O => crash
  | S f =>
      r <- get_rt;;
      if offset <? r_stores_size r then
        tmp <- rd_store node offset;;
        if tmp =? NULL then ret (offset, tmp) else
        full <- node_full tmp;;
        if full then enter_scan f node (offset + 1) tmp else ret (offset, tmp)
      else ret (offset, tmp)
  end.

(** [while (shift > 0) { ... }]: the descent to the leaf, returning the
    leaf, the running index and the leaf offset. *)
Fixpoint enter_descend (fuel : nat) (node : ptr) (index shift offset : Z)
  (tmp : ptr) : M (ptr * Z * Z) :=
  match fuel with
  | O => crash
  | S f =>
      if shift >? 0 then
        let offset_saved := offset in
        '(offset, tmp) <- enter_scan fuel node offset tmp;;
        let index :=
          if offset =? offset_saved then index
          else Z.land (u64 (index + s32 (Z.shiftl (offset - offset_saved) shift)))
                      (Z.lnot (Z.shiftl 1 shift - 1)) in
        tmp <- (if tmp =? NULL then
                  t <- alloc;;
                  if t =? NULL then throw (- ENOMEM) else
                  r <- get_rt;;
                  set_height t (shift / r_shift r);;
                  set_store node offset t;;
                  set_parent t node;;
                  c <- rd_count node;;
                  set_count node (u32 (c + 1));;
                  ret t
                else ret tmp);;
        r <- get_rt;;
        let shift := shift - r_shift r in
        enter_descend f tmp index shift (Z.land (Z.shiftr index shift) (r_mask r)) tmp
      else ret (node, index, offset)
  end.

(** The leaf loop [for (i = 0, j = 0; j < root->stores_size - node->count &&
    i < root->stores_size - offset && j < num; i++) if (!store[i]) {...}];
    [items] is the caller's array from [item] on. *)
Fixpoint enter_fill (fuel : nat) (node : ptr) (offset index i j num : Z)
  (items : list ptr) : M (Z * Z) :=
  match fuel with
  | O => crash
  | S f =>
      r <- get_rt;;
      c <- rd_count node;;
      if (u32 j <? u32 (r_stores_size r - c))
         && (u32 i <? u32 (r_stores_size r - offset)) && (j <? num) then
        v <- rd_store node (offset + i);;
        if v =? NULL then
          match nth_error items (Z.to_nat j) with
          | None => crash
          | Some x =>
              set_store node (offset + i) x;;
              (* the hook's [index] parameter is an [unsigned] (32 bits) *)
              assign node (u32 (index + i)) x;;
              enter_fill f node offset index (i + 1) (j + 1) num items
          end
        else enter_fill f node offset index (i + 1) j num items
      else ret (i, j)
  end.

(** [while (sradix_node_full(root, node)) { node = node->parent;
    if (!node) break; node->fulls++; }] *)
Fixpoint enter_up (fuel : nat) (node : ptr) : M ptr :=
  match fuel with
  | O => crash
  | S f =>
      full <- node_full node;;
      if full then
        p <- rd_parent node;;
        if p =? NULL then ret NULL else
        fl <- rd_fulls p;;
        set_fulls p (u32 (fl + 1));;
        enter_up f p
      else ret node
  end.

Definition set_min (v : Z) : M unit := r <- get_rt;; put_rt (with_min r v).

(** One pass from the label [redo], with the local [node] and the items
    left; it ends in a [return]. *)
Fixpoint enter_redo (fuel : nat) (node : ptr) (items : list ptr) (num : Z)
  : M Z :=
  match fuel with
  | O => crash
  | S f =>
      r <- get_rt;;
      let index := r_min r in
      ext <- (if node =? NULL then ret true
              else if negb (Z.shiftr index (u32 (r_shift r * r_height r)) =? 0)
              then ret true
              else node_full (r_rnode r));;
      node <- (if ext then
                 error <- sradix_tree_extend fuel index;;
                 if negb (error =? 0) then throw error else
                 r <- get_rt;;
                 ret (r_rnode r)
               else ret node);;
      height <- rd_height node;;
      r <- get_rt;;
      let shift := s32 ((height - 1) * r_shift r) in
      '(node, index, offset) <-
        enter_descend fuel node index shift
          (Z.land (Z.shiftr index shift) (r_mask r)) NULL;;
      h <- rd_height node;;
      if negb (h =? 1) then crash else
      '(i, j) <- enter_fill fuel node offset index 0 0 num items;;
      c <- rd_count node;;
      set_count node (u32 (c + j));;
      let num := num - j in
      set_min (u64 (index + i));;
      node <- enter_up fuel node;;
      (if node =? NULL then
         r <- get_rt;;
         set_min (u64 (int_shl1 (u32 (r_height r * r_shift r))))
       else ret tt);;
      if negb (num =? 0) then enter_redo f node (skipn (Z.to_nat j) items) num
      else throw 0
  end.

Definition sradix_tree_enter (fuel : nat) (items : list ptr) (num : Z) : M Z :=
  call (r <- get_rt;; enter_redo fuel (r_rnode r) items num).

(** *** [sradix_tree_shrink] and [sradix_tree_delete_from_leaf] (part_001) *)

Fixpoint sradix_tree_shrink (fuel : nat) : M unit :=
  match fuel with
  | O => crash
  | S f =>
      r <- get_rt;;
      if r_height r >? 1 then
        let to_free := r_rnode r in
        c <- rd_count to_free;;
        s0 <- rd_store to_free 0;;
        if negb (c =? 1) || (s0 =? NULL) then ret tt else
        put_rt (with_height (with_rnode r s0) (u32 (r_height r - 1)));;
        free to_free;;
        sradix_tree_shrink f
      else ret tt
  end.

(** [while (node && !(--node->count)) node = node->parent;] *)
Fixpoint delete_up (fuel : nat) (node : ptr) : M ptr :=
  match fuel with
  | O => crash
  | S f =>
      if node =? NULL then ret NULL else
      c <- rd_count node;;
      set_count node (u32 (c - 1));;
      if u32 (c - 1) =? 0 then p <- rd_parent node;; delete_up f p
      else ret node
  end.

(** [do { node = start; root->free(node); start = start->parent; }
    while (start != end);] *)
Fixpoint free_nodes (fuel : nat) (start end_ : ptr) : M unit :=
  match fuel with
  | O => crash
  | S f =>
      free start;;
      p <- rd_parent start;;
      if p =? end_ then ret tt else free_nodes f p end_
  end.

(** [while (node) { node->fulls--; if (node->fulls != root->stores_size - 1)
    break; node = node->parent; }] *)
Fixpoint delete_fulls (fuel : nat) (node : ptr) : M unit :=
  match fuel with
  | O => crash
  | S f =>
      if node =? NULL then ret tt else
      fl <- rd_fulls node;;
      set_fulls node (u32 (fl - 1));;
      r <- get_rt;;
      if negb (u32 (fl - 1) =? u32 (r_stores_size r - 1)) then ret tt else
      p <- rd_parent node;;
      delete_fulls f p
  end.

Definition delete_min (index : Z) : M unit :=
  r <- get_rt;; if r_min r >? index then set_min index else ret tt.

Definition sradix_tree_delete_from_leaf (fuel : nat) (node : ptr) (index : Z)
  : M unit :=
  h <- rd_height node;;
  if negb (h =? 1) then crash else
  let start := node in
  node <- delete_up fuel node;;
  let end_ := node in
  if node =? NULL then
    r <- get_rt;;
    put_rt (with_rnode r NULL);;
    free_nodes fuel start end_;;
    delete_min index
  else
    r <- get_rt;;
    h <- rd_height node;;
    let offset :=
      u32 (Z.land (Z.shiftr index (u32 (r_shift r * u32 (h - 1)))) (r_mask r)) in
    set_store node offset NULL;;
    (if negb (start =? end_) then
       sradix_tree_shrink fuel;;
       free_nodes fuel start end_
     else
       c <- rd_count node;;
       if c =? u32 (r_stores_size r - 1) then
         p <- rd_parent node;;
         delete_fulls fuel p
       else ret tt);;
    delete_min index.

(** *** [sradix_tree_lookup] (part_001) *)

(** [do { offset = (index >> shift) & root->mask; node = node->stores[offset];
    if (!node) return NULL; shift -= root->shift; } while (shift >= 0);] *)
Fixpoint lookup_walk (fuel : nat) (node : ptr) (index shift : Z) : M ptr :=
  match fuel with
  | O => crash
  | S f =>
      r <- get_rt;;
      let offset := u32 (Z.land (Z.shiftr index shift) (r_mask r)) in
      node <- rd_store node offset;;
      if node =? NULL then ret NULL else
      let shift := shift - r_shift r in
      if shift >=? 0 then lookup_walk f node index shift else ret node
  end.

Definition sradix_tree_lookup (fuel : nat) (index : Z) : M ptr :=
  r <- get_rt;;
  if (r_rnode r =? NULL)
     || negb (Z.shiftr index (u32 (r_shift r * r_height r)) =? 0) then ret NULL
  else lookup_walk fuel (r_rnode r) index (s32 ((r_height r - 1) * r_shift r)).

(** *** [sradix_tree_next] (part_001) *)

(** [!iter || iter(item, offset)]; [iter] is the caller's callback. *)
Definition iter_ok (iter : option (ptr -> Z -> bool)) (item : ptr) (offset : Z) : bool :=
  match iter with
  | None => true
  | Some g => g item offset
  end.

(** [for (; offset < root->stores_size; offset++) { item = node->stores[offset];
    if (item && (!iter || iter(item, offset))) break; }]: the offset the
    loop stops at and the last [item] it read. *)
Fixpoint next_scan (fuel : nat) (iter : option (ptr -> Z -> bool)) (node : ptr)
  (offset : Z) (item : ptr) : M (Z * ptr) :=
  match fuel with
  | O => crash
  | S f =>
      r <- get_rt;;
      if offset <? r_stores_size r then
        item <- rd_store node offset;;
        if negb (item =? NULL) && iter_ok iter item offset then ret (offset, item)
        else next_scan f iter node (offset + 1) item
      else ret (offset, item)
  end.

(** [while (node) { offset = (index & root->mask) + 1; <scan>;
    if (offset < root->stores_size) break; node = node->parent;
    index >>= root->shift; }] *)
Fixpoint next_up (fuel : nat) (iter : option (ptr -> Z -> bool)) (node : ptr)
  (index offset : Z) (item : ptr) : M (ptr * Z * ptr) :=
  match fuel with
  | O => crash
  | S f =>
      if node =? NULL then ret (node, offset, item) else
      r <- get_rt;;
      '(offset, item) <- next_scan fuel iter node (Z.land index (r_mask r) + 1) item;;
      if offset <? r_stores_size r then ret (node, offset, item) else
      p <- rd_parent node;;
      r <- get_rt;;
      next_up f iter p (Z.shiftr index (r_shift r)) offset item
  end.

(** [while (node->height > 1) { go_down: node = item;
    for (offset = 0; ...) <scan>; if (offset < root->stores_size) break; }],
    entered at [go_down]. *)
Fixpoint next_down (fuel : nat) (iter : option (ptr -> Z -> bool)) (item : ptr)
  : M (Z * ptr) :=
  match fuel with
  | O => crash
  | S f =>
      let node := item in
      '(offset, item) <- next_scan fuel iter node 0 item;;
      r <- get_rt;;
      if offset <? r_stores_size r then ret (offset, item) else
      h <- rd_height node;;
      if h >? 1 then next_down f iter item else ret (offset, item)
  end.

(** [sradix_tree_next(root, node, index, iter)]; its [return]s leave
    through [call].  [item] is read before it is used on every path; it
    starts as NULL. *)
Definition sradix_tree_next (fuel : nat) (node : ptr) (index : Z)
  (iter : option (ptr -> Z -> bool)) : M ptr := call (
  '(offset, item) <-
    (if node =? NULL then
       r <- get_rt;;
       let node := r_rnode r in
       '(offset, item) <- next_scan fuel iter node 0 NULL;;
       if offset >=? r_stores_size r then throw NULL else
       h <- rd_height node;;
       if h =? 1 then throw item else
       next_down fuel iter item
     else
       '(node, offset, item) <- next_up fuel iter node index 0 NULL;;
       if node =? NULL then throw NULL else
       h <- rd_height node;;
       if h >? 1 then next_down fuel iter item else ret (offset, item));;
  r <- get_rt;;
  if offset >? r_stores_size r then crash else
  ret item).

End SRadix.

(* ----------------------------------------------------------------- *)
(** *** The earlier revision in [lib/sradix-tree.c] *)

Module SRadixLib.
Import SRadix.
Local Open Scope Z_scope.

(** Modelled from the spec: [sradix_tree_node_alloc(root)], called by
    this revision's [sradix_tree_extend] and not part of the repository's
    sources, is node allocation through the caller's allocator, i.e. the
    allocator [alloc] ([root->alloc()]). *)
Definition sradix_tree_node_alloc : M ptr := alloc.

(** [sradix_tree_extend]: as in part_001 but the first node gets
    [count = 1] and a new top node never gets [fulls] set. *)
Fixpoint extend_grow (fuel : nat) (height : Z) : M Z :=
  match fuel with
  | O => crash
  | S f =>
      r <- get_rt;;
      if height >? r_height r then
        node <- alloc;;
        if node =? NULL then throw (- ENOMEM) else
        set_store node 0 (r_rnode r);;
        set_parent (r_rnode r) node;;
        let newheight := u32 (r_height r + 1) in
        set_height node newheight;;
        set_count node 1;;
        r <- get_rt;;
        put_rt (with_height (with_rnode r node) newheight);;
        extend_grow f height
      else ret 0
  end.

Definition sradix_tree_extend (fuel : nat) (index : Z) : M Z := call (
  r <- get_rt;;
  (if r_rnode r =? NULL then
     node <- sradix_tree_node_alloc;;
     if node =? NULL then throw (- ENOMEM) else
     set_height node 1;;
     set_count node 1;;
     r <- get_rt;;
     put_rt (with_height (with_rnode r node) 1)
   else ret tt);;
  r <- get_rt;;
  let height := r_height r in
  height <- extend_height fuel (r_shift r)
              (Z.shiftr index (u32 (r_shift r * height))) height;;
  _ <- extend_grow fuel height;;
  ret 0).

(** [for (; offset < root->stores_size; offset++) { store = &node->stores[offset];
    node = *store; if (!node || node->fulls != root->stores_size) break; }]:
    returns [offset], [store] (a node and a slot) and [node]. *)
Fixpoint enter_scan (fuel : nat) (node : ptr) (offset : Z) (store : ptr * Z)
  : M (Z * (ptr * Z) * ptr) :=
  match fuel with
  | O => crash
  | S f =>
      r <- get_rt;;
      if offset <? r_stores_size r then
        let store := (node, offset) in
        node <- rd_store node offset;;
        if node =? NULL then ret (offset, store, node) else
        fl <- rd_fulls node;;
        if negb (fl =? r_stores_size r) then ret (offset, store, node)
        else enter_scan f node (offset + 1) store
      else ret (offset, store, node)
  end.

(** [while (height > 0) { ... }], the [int offset] it declares read after
    it as the last value it took; returns [node_saved], [store], [offset]
    and [index]. *)
Fixpoint enter_descend (fuel : nat) (node node_saved : ptr) (store : ptr * Z)
  (index shift height offset : Z) : M (ptr * (ptr * Z) * Z * Z) :=
  match fuel with
  | O => crash
  | S f =>
      if height >? 0 then
        r <- get_rt;;
        let offset := Z.land (Z.shiftr index shift) (r_mask r) in
        let node_saved := node in
        let offset_saved := offset in
        '(offset, store, node) <- enter_scan fuel node offset store;;
        let index := if offset =? offset_saved then index else 0 in
        node <- (if (node =? NULL) && (height >? 1) then
                   t <- alloc;;
                   if t =? NULL then throw (- ENOMEM) else
                   set_height t height;;
                   set_store (fst store) (snd store) t;;
                   set_parent t node_saved;;
                   c <- rd_count node_saved;;
                   set_count node_saved (u32 (c + 1));;
                   ret t
                 else ret node);;
        enter_descend f node node_saved store index (u32 (shift - r_shift r))
          (u32 (height - 1)) offset
      else ret (node_saved, store, offset, index)
  end.

(** The leaf loop, writing through [store] and counting in [node]. *)
Fixpoint enter_fill (fuel : nat) (node : ptr) (store : ptr * Z)
  (offset index i j num : Z) (items : list ptr) : M (Z * Z) :=
  match fuel with
  | O => crash
  | S f =>
      r <- get_rt;;
      c <- rd_count node;;
      if (u32 j <? u32 (r_stores_size r - c))
         && (u32 i <? u32 (r_stores_size r - offset)) && (j <? num) then
        v <- rd_store (fst store) (snd store + i);;
        if v =? NULL then
          match nth_error items (Z.to_nat j) with
          | None => crash
          | Some x =>
              set_store (fst store) (snd store + i) x;;
              (* the hook's [index] parameter is an [unsigned] (32 bits) *)
              assign node (u32 (index + i)) x;;
              enter_fill f node store offset index (i + 1) (j + 1) num items
          end
        else enter_fill f node store offset index (i + 1) j num items
      else ret (i, j)
  end.

(** [while (node->fulls == root->stores_size) { node = node->parent;
    if (!node) break; node->fulls++; }] *)
Fixpoint enter_up (fuel : nat) (node : ptr) : M ptr :=
  match fuel with
  | O => crash
  | S f =>
      r <- get_rt;;
      fl <- rd_fulls node;;
      if fl =? r_stores_size r then
        p <- rd_parent node;;
        if p =? NULL then ret NULL else
        fl <- rd_fulls p;;
        set_fulls p (u32 (fl + 1));;
        enter_up f p
      else ret node
  end.

Fixpoint enter_redo (fuel : nat) (node : ptr) (items : list ptr) (num : Z)
  : M Z :=
  match fuel with
  | O => crash
  | S f =>
      r <- get_rt;;
      let index := r_min r in
      node <- (if (node =? NULL)
                  || negb (Z.shiftr index (u32 (r_shift r * r_height r)) =? 0) then
                 error <- sradix_tree_extend fuel index;;
                 if negb (error =? 0) then throw NULL else
                 r <- get_rt;;
                 ret (r_rnode r)
               else ret node);;
      height <- rd_height node;;
      r <- get_rt;;
      let shift := u32 ((height - 1) * r_shift r) in
      '(node_saved, store, offset, index) <-
        enter_descend fuel node node (NULL, 0) index shift height 0;;
      v <- rd_store (fst store) (snd store);;
      if negb (v =? NULL) then crash else
      let node := node_saved in
      '(i, j) <- enter_fill fuel node store offset index 0 0 num items;;
      c <- rd_count node;;
      set_count node (u32 (c + j));;
      fl <- rd_fulls node;;
      set_fulls node (u32 (fl + j));;
      let num := num - j in
      node <- enter_up fuel node;;
      (if node =? NULL then
         r <- get_rt;;
         set_min (u64 (int_shl1 (u32 (r_height r * r_shift r))))
       else ret tt);;
      if negb (num =? 0) then enter_redo f node (skipn (Z.to_nat j) items) num
      else throw 0
  end.

Definition sradix_tree_enter (fuel : nat) (items : list ptr) (num : Z) : M Z :=
  call (r <- get_rt;; enter_redo fuel (r_rnode r) items num).

End SRadixLib.

(* ----------------------------------------------------------------- *)
(** *** Callers: sequences of operations, the node invariant, states *)

Module SRadixRun.
Import SRadix.
Local Open Scope Z_scope.

(** [sradix_tree_lookup], read as a value: [None] if it crashes. *)
Definition lookup (fuel : nat) (s : state) (index : Z) : option ptr :=
  match sradix_tree_lookup fuel index s with
  | Ok p _ => Some p
  | _ => None
  end.

(** A tree set up by [init_sradix_tree_root] on a zeroed root. *)
Definition empty_state (shift : Z) (budget : nat) : state :=
  State (init_root shift) zero_heap 1 [] budget [] [].

(** A caller's call: [sradix_tree_enter(root, items, length)] or
    [sradix_tree_delete_from_leaf(root, leaf, index)]. *)
Inductive op :=
| OpEnter (items : list ptr)
| OpDelete (leaf : ptr) (index : Z).

Definition run_op (fuel : nat) (o : op) : M Z :=
  match o with
  | OpEnter items => sradix_tree_enter fuel items (Z.of_nat (length items))
  | OpDelete leaf index => sradix_tree_delete_from_leaf fuel leaf index;; ret 0
  end.

(** The calls one after the other: the final state, [None] on a crash. *)
Fixpoint run_ops (fuel : nat) (ops : list op) (s : state) : option state :=
  match ops with
  | [] => Some s
  | o :: rest =>
      match run_op fuel o s with
      | Ok _ s' | Ret _ s' => run_ops fuel rest s'
      | Crash => None
      end
  end.

(** The slot offsets [0 .. stores_size - 1]. *)
Definition offsets (r : root) : list Z :=
  map Z.of_nat (seq 0 (Z.to_nat (r_stores_size r))).

(** The nodes reachable from [p] through the [stores] of non-leaves. *)
Fixpoint tree_nodes (fuel : nat) (r : root) (h : heap) (p : ptr) : list ptr :=
  match fuel with
  | O => []
  | S f =>
      p :: (if height h p =? 1 then []
            else flat_map (fun o => let c := stores h p o in
                                    if c =? NULL then [] else tree_nodes f r h c)
                   (offsets r))
  end.

(** [count] is the number of non-NULL slots; [fulls] the number of child
    nodes that are completely full (none for a leaf, whose slots hold
    items). *)
Definition node_ok (r : root) (h : heap) (p : ptr) : bool :=
  (count h p =? Z.of_nat (length (filter (fun o => negb (stores h p o =? NULL))
                                    (offsets r))))
  && (fulls h p =?
        (if height h p =? 1 then 0
         else Z.of_nat (length (filter (fun o => let c := stores h p o in
                                                 negb (c =? NULL)
                                                 && sradix_node_full r h c)
                                  (offsets r))))).

Definition radix_inv (s : state) : bool :=
  let r := rt s in
  (r_rnode r =? NULL)
  || forallb (node_ok r (hp s))
       (tree_nodes (S (Z.to_nat (r_height r))) r (hp s) (r_rnode r)).

(** Each call with the invariant checked after it, and for a delete the
    precondition that [leaf] holds [index]: the assign hook reported the
    item there and lookup still finds it. *)
Definition op_pre (fuel : nat) (s : state) (o : op) : bool :=
  match o with
  | OpEnter _ => true
  | OpDelete leaf index =>
      existsb (fun '(n, i, x) => (n =? leaf) && (i =? index)
                                 && (match lookup fuel s index with
                                     | Some y => y =? x
                                     | None => false
                                     end))
        (assigned s)
  end.

Fixpoint trace (fuel : nat) (ops : list op) (s : state)
  : option (list (bool * Z * bool)) :=
  match ops with
  | [] => Some []
  | o :: rest =>
      match run_op fuel o s with
      | Ok v s' | Ret v s' =>
          match trace fuel rest s' with
          | Some l => Some ((op_pre fuel s o, v, radix_inv s') :: l)
          | None => None
          end
      | Crash => None
      end
  end.

(** Scenario B: five items with [shift = 2], then a sixth. *)
Definition scenB_items : list ptr := [101; 102; 103; 104; 105].

(** Five items with [shift = 2], then deleting them (index 4 from its
    leaf, node 3, then 0 .. 3 from the leaf node 1). *)
Definition del_ops : list op :=
  [OpEnter scenB_items; OpDelete 3 4; OpDelete 1 0; OpDelete 1 1;
   OpDelete 1 2; OpDelete 1 3].

(** Nine items with [shift = 1] (height 4), delete index 8 (the tree
    shrinks to height 3), delete 7 and 6 (their leaf is freed), then
    enter one item and another one. *)
Definition fulls_ops : list op :=
  [OpEnter [101; 102; 103; 104; 105; 106; 107; 108; 109];
   OpDelete 11 8; OpDelete 7 7; OpDelete 7 6; OpEnter [201]; OpEnter [202]].

(** A tree with [shift = 2] whose root is one full leaf (node 1, items
    101 .. 104) and [min = 4]; the allocator fails from now on. *)
Definition full_leaf_state : state :=
  State (Root 1 1 2 4 3 4)
    (Heap (fun p => if p =? 1 then 1 else 0)
          (fun p => if p =? 1 then 4 else 0)
          (fun _ => 0) (fun _ => NULL)
          (fun p o => if (p =? 1) && (0 <=? o) && (o <? 4) then 101 + o else NULL))
    2 [] 0 [] [].

(** A tree with [shift = 31] whose root is the leaf node 1 holding items
    at indices [0 .. 2^31 - 2] (item [1000 + i] at [i]) with
    [min = 2^31 - 1]: what entering [2^31 - 1] items into the empty tree
    leaves. *)
Definition leaf31_state : state :=
  State (Root 1 1 31 (2 ^ 31) (2 ^ 31 - 1) (2 ^ 31 - 1))
    (Heap (fun p => if p =? 1 then 1 else 0)
          (fun p => if p =? 1 then 2 ^ 31 - 1 else 0)
          (fun _ => 0) (fun _ => NULL)
          (fun p o => if (p =? 1) && (0 <=? o) && (o <? 2 ^ 31 - 1)
                      then 1000 + o else NULL))
    2 [] 10 [] [].

End SRadixRun.

Module SRadixInv.
Import ListNotations SRadix SRadixRun.
Local Open Scope Z_scope.

(* ================================================================= *)
(** ** Sparse radix tree: the invariant of the trees built by entering *)

(** Weakest precondition of the model's monad: [Q] on a normal return,
    [E] on a [return] out of the function, and never a crash. *)
Definition wp {A} (m : M A) (Q : A -> state -> Prop) (E : Z -> state -> Prop)
  (st : state) : Prop :=
  match m st with
  | Ok a st' => Q a st'
  | Ret c st' => E c st'
  | Crash => False
  end.

(** [2^(shift * h)]: the number of indices below a node of height [h]. *)
Definition W (sh h : Z) : Z := 2 ^ (sh * h).

(** The indices logged by [assign], most recent first. *)
Definition idxs (log : list (ptr * Z * ptr)) : list Z :=
  map (fun e => snd (fst e)) log.

(** [[n - 1; ...; 1; 0]] *)
Fixpoint down (n : nat) : list Z :=
  match n with
  | O => []
  | S k => Z.of_nat k :: down k
  end.

(** The item the log last reported at [i], NULL if none. *)
Definition item_at (log : list (ptr * Z * ptr)) (i : Z) : ptr :=
  match find (fun e => snd (fst e) =? i) log with
  | Some (_, _, x) => x
  | None => NULL
  end.

(** The number of completely filled children of the node covering
    [lo .. lo + W h - 1] once the indices below [N] are in use. *)
Definition fullsF (sh N lo h : Z) : Z := Z.min (2 ^ sh) ((N - lo) / W sh (h - 1)).

(** The positions of a tree of height [H]: height [h], the [k]-th node
    of that height, covering [k * W h .. (k + 1) * W h - 1]. *)
Definition dom (sh H h k : Z) : Prop := 1 <= h <= H /\ 0 <= k /\ k * W sh h < W sh H.

(** The node at position [(h, k)] when the indices below [N] are in
    use: [na] names the node at each position, [lag] is what its [fulls]
    still misses while [sradix_tree_enter] walks up. *)
Record node_at (sh : Z) (st : state) (N H : Z) (na : Z -> Z -> ptr)
  (lag : Z -> Z -> Z) (h k : Z) : Prop := {
  n_up : h < H -> na (h + 1) (k / 2 ^ sh) <> NULL;
  n_height : height (hp st) (na h k) = h;
  n_parent : parent (hp st) (na h k) = (if h =? H then NULL else na (h + 1) (k / 2 ^ sh));
  n_fulls : fulls (hp st) (na h k) =
              (if h =? 1 then 0 else fullsF sh N (k * W sh h) h - lag h k);
  n_count : count (hp st) (na h k) =
              (if h =? 1 then Z.min (2 ^ sh) (N - k * W sh h)
               else fullsF sh N (k * W sh h) h
                    + (if (fullsF sh N (k * W sh h) h <? 2 ^ sh)
                          && negb (na (h - 1) (k * 2 ^ sh + fullsF sh N (k * W sh h) h) =? NULL)
                       then 1 else 0));
  n_stores : forall o, 0 <= o < 2 ^ sh ->
              stores (hp st) (na h k) o =
              (if h =? 1 then
                 (if k * W sh h + o <? N then item_at (assigned st) (k * W sh h + o) else NULL)
               else na (h - 1) (k * 2 ^ sh + o))
}.

(** Where the position [(h, k)] stands with respect to [N]: present
    below [N], absent above, and the top one always present. *)
Record loc (sh : Z) (st : state) (N H : Z) (na : Z -> Z -> ptr)
  (lag : Z -> Z -> Z) (h k : Z) : Prop := {
  l_lt : k * W sh h < N -> na h k <> NULL;
  l_gt : N < k * W sh h -> na h k = NULL;
  l_top : h = H -> na h k <> NULL;
  l_node : na h k <> NULL -> node_at sh st N H na lag h k
}.

(** The tree after the indices [0 .. N - 1] have been entered, in order:
    the root's fields, the log of [assign], the height, and every
    position of the tree. *)
Record Inv (sh : Z) (st : state) (N : Z) (na : Z -> Z -> ptr) (lag : Z -> Z -> Z)
  : Prop := {
  i_shift : r_shift (rt st) = sh;
  i_size : r_stores_size (rt st) = 2 ^ sh;
  i_mask : r_mask (rt st) = 2 ^ sh - 1;
  i_min : r_min (rt st) = N;
  i_pool : free_pool st = [];
  i_N : 0 <= N <= 2 ^ 30;
  i_log : idxs (assigned st) = down (Z.to_nat N);
  i_H : (r_height (rt st) = 0 /\ N = 0)
        \/ (1 <= r_height (rt st) /\ N <= W sh (r_height (rt st))
            /\ (r_height (rt st) = 1 \/ W sh (r_height (rt st) - 1) <= N));
  i_rnode : r_rnode (rt st) = (if r_height (rt st) =? 0 then NULL else na (r_height (rt st)) 0);
  i_loc : forall h k, dom sh (r_height (rt st)) h k ->
            loc sh st N (r_height (rt st)) na lag h k;
  i_inj : forall h k h' k', dom sh (r_height (rt st)) h k -> dom sh (r_height (rt st)) h' k' ->
            na h k = na h' k' -> na h k <> NULL -> h = h' /\ k = k';
  i_fresh0 : 0 < next_fresh st;
  i_fresh : forall h k, dom sh (r_height (rt st)) h k -> na h k <> NULL ->
              0 < na h k < next_fresh st
}.

(** What the leaf loop of [sradix_tree_enter] does to leaf [p] when it
    places [items] from slot [d + i] on, up to [d + m]. *)
Definition fill_post (p d N i m : Z) (items : list ptr) (st st' : state) : Prop :=
  rt st' = rt st /\ next_fresh st' = next_fresh st /\ free_pool st' = free_pool st
  /\ budget st' = budget st /\ freed st' = freed st
  /\ height (hp st') = height (hp st) /\ count (hp st') = count (hp st)
  /\ fulls (hp st') = fulls (hp st) /\ parent (hp st') = parent (hp st)
  /\ (forall q o, stores (hp st') q o =
        if (q =? p) && (d + i <=? o) && (o <? d + m)
        then nth (Z.to_nat (o - d)) items NULL else stores (hp st) q o)
  /\ idxs (assigned st') = down (Z.to_nat (N + m))
  /\ (forall x, item_at (assigned st') x =
        if (N + i <=? x) && (x <? N + m) then nth (Z.to_nat (x - N)) items NULL
        else item_at (assigned st) x).

(** No [fulls] missing. *)
Definition lag0 (h k : Z) : Z := 0.

(** What [sradix_tree_extend] leaves: the invariant, and on success a
    root covering [N]. *)
Definition ext_post (sh N v : Z) (st' : state) : Prop :=
  exists na', Inv sh st' N na' lag0 /\
    (v = 0 -> r_rnode (rt st') <> NULL /\ N < W sh (r_height (rt st'))).

(** What the descent of [sradix_tree_enter] leaves: the leaf covering
    [N], the index [N] and its slot there. *)
Definition desc_post (sh N : Z) (r : ptr * Z * Z) (st' : state) : Prop :=
  exists na', Inv sh st' N na' lag0 /\ 1 <= r_height (rt st') /\ N < W sh (r_height (rt st'))
    /\ fst (fst r) = na' 1 (N / 2 ^ sh) /\ fst (fst r) <> NULL
    /\ snd (fst r) = N /\ snd r = N mod 2 ^ sh.

(** The invariant, whatever is returned. *)
Definition inv_post (sh N : Z) (c : Z) (st' : state) : Prop :=
  exists na', Inv sh st' N na' lag0.

(** The [fulls] the ancestors of the leaf holding [N] still miss once
    the indices [N .. N' - 1] are in use and the walk up has reached the
    height [hx]. *)
Definition lagU (sh N N' hx h k : Z) : Z :=
  if (hx <? h) && (k =? N / W sh h)
  then fullsF sh N' (k * W sh h) h - fullsF sh N (k * W sh h) h else 0.

(** What the walk up leaves: the invariant without [lag], and either the
    whole tree is full or the node returned is a present node on the
    chain of [N']. *)
Definition up_post (sh N' : Z) (na : Z -> Z -> ptr) (r : ptr) (st' : state) : Prop :=
  Inv sh st' N' na lag0
  /\ (r = NULL /\ N' = W sh (r_height (rt st'))
      \/ r <> NULL /\ N' < W sh (r_height (rt st'))
         /\ exists h, 1 <= h <= r_height (rt st') /\ r = na h (N' / W sh h)).

(** What a call of [sradix_tree_enter] leaves, whether it returns
    normally or with an error: the invariant, with at most [B] indices
    in use. *)
Definition enter_post (sh B : Z) (c : Z) (st' : state) : Prop :=
  exists N' na', Inv sh st' N' na' lag0 /\ N' <= B.

End SRadixInv.


Module SkipListProofs.
Import SkipList.

Ltac neq_cases :=
  repeat match goal with
  | |- context [Nat.eqb ?a ?b] => destruct (Nat.eqb_spec a b)
  end.

Section Chains.
Variables N P N' P' : ptr -> ptr.

Lemma chain_frame : forall l a z,
  (forall x, In x (a :: l) -> N' x = N x) ->
  (forall x, In x (l ++ [z]) -> P' x = P x) ->
  chain N P a l z -> chain N' P' a l z.
Proof.
  induction l as [|b l IH]; intros a z HN HP H; simpl in *.
  - destruct H as [H1 H2]. rewrite HN, HP; auto.
  - destruct H as (H1 & H2 & H3). rewrite HN, HP; auto. split; [exact H1|].
    split; [exact H2|].
    apply IH; [intros x Hx; apply HN; simpl in *; tauto
              |intros x Hx; apply HP; simpl in *; tauto | exact H3].
Qed.

End Chains.

Lemma chain_app : forall N P l1 l2 a b z,
  chain N P a (l1 ++ b :: l2) z <-> chain N P a l1 b /\ chain N P b l2 z.
Proof.
  induction l1 as [|c l1 IH]; intros l2 a b z; simpl.
  - split.
    + intros (H1 & H2 & H3). auto.
    + intros [[H1 H2] H3]. auto.
  - rewrite IH. tauto.
Qed.

Lemma last_cons_default : forall (l : list ptr) b d d',
  last (b :: l) d = last (b :: l) d'.
Proof. induction l as [|c l IH]; intros b d d'; simpl in *; auto. Qed.

Lemma chain_last : forall N P l a z,
  chain N P a l z -> N (last (a :: l) a) = z /\ P z = last (a :: l) a.
Proof.
  induction l as [|b l IH]; intros a z H.
  - exact H.
  - destruct H as (_ & _ & H). apply IH in H.
    change (last (a :: b :: l) a) with (last (b :: l) a).
    rewrite (last_cons_default l b a b). exact H.
Qed.

Lemma chain_first : forall N P l a z, chain N P a l z -> N a = hd z l.
Proof. intros N P [|b l] a z H; simpl in *; tauto. Qed.

Lemma chain_nil_iff : forall N P l h,
  chain N P h l h -> ~ In h l ->
  (N h = h /\ P h = h <-> l = []).
Proof.
  intros N P [|b l] h H Hn; simpl in *.
  - tauto.
  - split; [|discriminate]. intros [E _]. destruct H as (H1 & _).
    exfalso. apply Hn. left. congruence.
Qed.

Lemma ins_core : forall N P N' P' B p z q,
  chain N P p B z -> NoDup (p :: B) -> NoDup (B ++ [z]) -> ~ In q (p :: B ++ [z]) ->
  (forall x, N' x = if Nat.eqb x p then q else if Nat.eqb x q then N p else N x) ->
  (forall x, P' x = if Nat.eqb x (N p) then q else if Nat.eqb x q then p else P x) ->
  chain N' P' p (q :: B) z.
Proof.
  intros N P N' P' B p z q H Hd1 Hd2 Hq HN HP.
  assert (Hqp : q <> p) by (intro; subst; apply Hq; left; auto).
  assert (HNp : N p = hd z B) by (eapply chain_first; eauto).
  assert (Hqc : q <> N p).
  { rewrite HNp. intro E; apply Hq; right. destruct B; simpl in *; subst; auto. }
  simpl. rewrite HN, Nat.eqb_refl. rewrite HP.
  rewrite (proj2 (Nat.eqb_neq q (N p)) Hqc), Nat.eqb_refl.
  split; [reflexivity|]. split; [reflexivity|].
  destruct B as [|b B]; simpl in *.
  - rewrite HN, HP. rewrite (proj2 (Nat.eqb_neq q p) Hqp), Nat.eqb_refl.
    destruct H as [H1 H2]. rewrite H1, Nat.eqb_refl. auto.
  - destruct H as (H1 & H2 & H3).
    rewrite HN, HP. rewrite (proj2 (Nat.eqb_neq q p) Hqp), Nat.eqb_refl.
    rewrite H1, Nat.eqb_refl. split; [reflexivity|]. split; [reflexivity|].
    inversion Hd1 as [|? ? Hpn Hd1']; subst. inversion Hd2 as [|? ? Hbn Hd2']; subst.
    apply (chain_frame N P); auto.
    + intros x Hx. rewrite HN. neq_cases; subst; try reflexivity; exfalso;
        simpl in *; rewrite ?in_app_iff in *; simpl in *; tauto.
    + intros x Hx. rewrite HP. neq_cases; subst; try reflexivity; exfalso;
        simpl in *; rewrite ?in_app_iff in *; simpl in *; tauto.
Qed.

Lemma nodup_disj : forall (l1 l2 : list ptr) x,
  NoDup (l1 ++ l2) -> In x l1 -> In x l2 -> False.
Proof.
  induction l1 as [|a l1 IH]; intros l2 x H H1 H2; simpl in *; [exact H1|].
  inversion H as [|? ? Hn Hd]; subst. destruct H1 as [<-|H1].
  - apply Hn. apply in_or_app. right. exact H2.
  - eapply IH; eauto.
Qed.

Lemma nodup_rot : forall (h : ptr) l, NoDup (h :: l) -> NoDup (l ++ [h]).
Proof.
  intros h l H. apply Permutation_NoDup with (h :: l); auto.
  apply Permutation_cons_append.
Qed.

Lemma last_snoc : forall (l : list ptr) p d, last (l ++ [p]) d = p.
Proof.
  induction l as [|a l IH]; intros p d; simpl; auto.
  rewrite IH. destruct (l ++ [p]) eqn:E; auto. destruct l; discriminate.
Qed.

Lemma ins_level : forall N P N' P' A B q head p,
  p = last (head :: A) head ->
  chain N P head (A ++ B) head -> NoDup (head :: A ++ B) -> ~ In q (head :: A ++ B) ->
  (forall x, N' x = if Nat.eqb x p then q else if Nat.eqb x q then N p else N x) ->
  (forall x, P' x = if Nat.eqb x (N p) then q else if Nat.eqb x q then p else P x) ->
  chain N' P' head (A ++ q :: B) head.
Proof.
  intros N P N' P' A B q head p Ep H Hd Hq HN HP.
  destruct A as [|a A] using rev_ind.
  - simpl in Ep, H, Hd, Hq |- *. subst p.
    eapply ins_core; eauto. apply nodup_rot; auto.
    intro Hin; simpl in Hin; rewrite in_app_iff in Hin; simpl in Hin; tauto.
  - clear IHA.
    assert (Ea : p = a).
    { rewrite Ep. change (head :: A ++ [a]) with ((head :: A) ++ [a]). apply last_snoc. }
    clear Ep. subst p. rewrite <- app_assoc in *. simpl in H, Hd, Hq |- *.
    apply chain_app in H. destruct H as [H1 H2]. apply chain_app. split.
    + apply (chain_frame N P); auto.
      * intros x Hx. rewrite HN. neq_cases; subst; try reflexivity; exfalso.
        -- destruct Hx as [<-|Hx].
           ++ inversion Hd as [|? ? Hn _]. apply Hn. apply in_or_app; right; left; auto.
           ++ inversion Hd as [|? ? _ Hd']. eapply nodup_disj; eauto. left; auto.
        -- apply Hq. destruct Hx as [<-|Hx]; [left; auto|right; apply in_or_app; left; auto].
      * intros x Hx. rewrite HP. neq_cases; subst; try reflexivity; exfalso.
        -- assert (Hc := chain_first _ _ _ _ _ H2). rewrite Hc in Hx.
           inversion Hd as [|? ? Hn Hd'].
           destruct B as [|b B]; simpl in Hx.
           ++ apply Hn. apply in_or_app. apply in_app_or in Hx.
              destruct Hx as [Hx|[<-|[]]]; [left; auto|right; left; auto].
           ++ apply (nodup_disj (A ++ [a]) (b :: B) b).
              ** rewrite <- app_assoc. exact Hd'.
              ** exact Hx.
              ** left; auto.
        -- apply Hq. right. apply in_or_app. apply in_app_or in Hx.
           destruct Hx as [Hx|[<-|[]]]; [left; auto|right; left; auto].
    + inversion Hd as [|? ? Hn Hd'].
      eapply ins_core; eauto.
      * eapply NoDup_app_remove_l; eauto.
      * apply nodup_rot. constructor.
        -- intro Hin. apply Hn. apply in_or_app. right. right. exact Hin.
        -- apply NoDup_app_remove_l in Hd'. inversion Hd'; auto.
      * intro Hin. apply Hq. simpl in Hin. rewrite in_app_iff in *. simpl in *.
        destruct Hin as [<-|[Hin|[<-|[]]]]; auto.
Qed.

Lemma unl_core : forall N P N' P' B a x z,
  chain N P a (x :: B) z -> NoDup (a :: x :: B) -> NoDup (x :: B ++ [z]) ->
  (forall y, N' y = if Nat.eqb y a then N x else N y) ->
  (forall y, P' y = if Nat.eqb y (N x) then a else P y) ->
  chain N' P' a B z.
Proof.
  intros N P N' P' B a x z H Hd1 Hd2 HN HP.
  destruct H as (Hax & Hxa & H).
  inversion Hd1 as [|? ? Han Hd1']; subst.
  inversion Hd1' as [|? ? Hxn Hd1'']; subst.
  inversion Hd2 as [|? ? Hxn2 Hd2']; subst.
  destruct B as [|b B]; simpl in *.
  - destruct H as [H1 H2]. rewrite HN, HP, Nat.eqb_refl, H1, Nat.eqb_refl. auto.
  - destruct H as (H1 & H2 & H3).
    rewrite HN, HP, Nat.eqb_refl, H1, Nat.eqb_refl. split; [reflexivity|].
    split; [reflexivity|].
    apply (chain_frame N P); auto.
    + intros y Hy. rewrite HN. neq_cases; subst; try reflexivity; exfalso.
      apply Han. right; exact Hy.
    + intros y Hy. rewrite HP, H1. neq_cases; subst; try reflexivity; exfalso.
      inversion Hd2' as [|? ? Hbn _]. apply Hbn. exact Hy.
Qed.

Lemma unl_level : forall N P N' P' A B x head,
  chain N P head (A ++ x :: B) head -> NoDup (head :: A ++ x :: B) ->
  (forall y, N' y = if Nat.eqb y (P x) then N x else N y) ->
  (forall y, P' y = if Nat.eqb y (N x) then P x else P y) ->
  chain N' P' head (A ++ B) head.
Proof.
  intros N P N' P' A B x head H Hd HN HP.
  assert (H' := H). apply chain_app in H'. destruct H' as [H1 H2].
  assert (Ex := chain_last _ _ _ _ _ H1). destruct Ex as [_ Ex].
  destruct A as [|a A] using rev_ind.
  - simpl in *. rewrite Ex in HN, HP.
    eapply unl_core; eauto.
    + replace (x :: B ++ [head]) with ((x :: B) ++ [head]) by reflexivity.
      apply nodup_rot; inversion Hd; auto.
  - clear IHA.
    assert (Ea : last (head :: A ++ [a]) head = a).
    { change (head :: A ++ [a]) with ((head :: A) ++ [a]). apply last_snoc. }
    rewrite Ea in Ex. rewrite Ex in HN, HP. clear Ea Ex.
    rewrite <- app_assoc in *. simpl in H, Hd |- *.
    apply chain_app in H. destruct H as [H1' H2']. apply chain_app. split.
    + assert (Hxc := chain_first _ _ _ _ _ H2'). simpl in Hxc.
      assert (Hc : N x = hd head B).
      { destruct H2' as (_ & _ & H2''). apply (chain_first _ _ _ _ _ H2''). }
      inversion Hd as [|? ? Hn Hd'].
      assert (F1 : forall y, In y (head :: A) -> y <> a).
      { intros y Hy E. subst y. destruct Hy as [E|Hy].
        - apply Hn. subst. apply in_or_app; right; left; auto.
        - eapply nodup_disj; eauto. left; auto. }
      assert (F2 : forall y, In y (A ++ [a]) -> y <> hd head B).
      { intros y Hy E. destruct B as [|b B]; simpl in E; subst y.
        - apply Hn. apply in_or_app. apply in_app_or in Hy.
          destruct Hy as [Hy|[<-|[]]]; [left; auto|right; left; auto].
        - apply (nodup_disj (A ++ [a]) (x :: b :: B) b).
          + rewrite <- app_assoc. exact Hd'.
          + exact Hy.
          + right; left; auto. }
      apply (chain_frame N P); auto.
      * intros y Hy. rewrite HN. destruct (Nat.eqb_spec y a) as [E|E];
          [exfalso; exact (F1 y Hy E)|reflexivity].
      * intros y Hy. rewrite HP, Hc. destruct (Nat.eqb_spec y (hd head B)) as [E|E];
          [exfalso; exact (F2 y Hy E)|reflexivity].
    + inversion Hd as [|? ? Hn Hd'].
      eapply unl_core; eauto.
      * eapply NoDup_app_remove_l; eauto.
      * apply NoDup_app_remove_l in Hd'.
        replace (x :: B ++ [head]) with ((x :: B) ++ [head]) by reflexivity.
        apply nodup_rot. constructor.
        -- intro Hin. apply Hn. apply in_or_app. right. right. exact Hin.
        -- inversion Hd'; auto.
Qed.

Lemma chain_mid : forall N P A B x head,
  chain N P head (A ++ x :: B) head ->
  P x = last (head :: A) head /\ N x = hd head B.
Proof.
  intros N P A B x head H. apply chain_app in H. destruct H as [H1 H2].
  split.
  - apply (proj2 (chain_last _ _ _ _ _ H1)).
  - apply (chain_first _ _ _ _ _ H2).
Qed.

Lemma chain_ext : forall N P N' P' l a z,
  (forall x, N' x = N x) -> (forall x, P' x = P x) ->
  chain N P a l z -> chain N' P' a l z.
Proof. intros. apply (chain_frame N P); auto. Qed.

(** Effect of one level of [splice] on the level views. *)
Lemma splice1_views : forall m p q k,
  q <> p ->
  let m1 := set_next m q k (nxt m p k) in
  let m2 := set_next m1 p k q in
  let m3 := set_prev m2 q k p in
  let m4 := set_prev m3 (nxt m3 q k) k q in
  (forall x, NX m4 k x = if Nat.eqb x p then q else if Nat.eqb x q then NX m k p else NX m k x) /\
  (forall x, PV m4 k x = if Nat.eqb x (NX m k p) then q else if Nat.eqb x q then p else PV m k x) /\
  (forall l x, l <> k -> NX m4 l x = NX m l x /\ PV m4 l x = PV m l x) /\
  (forall x, lvl m4 x = lvl m x /\ key m4 x = key m x).
Proof.
  intros m p q k Hqp. unfold NX, PV, set_next, set_prev, upd2; simpl.
  rewrite Nat.eqb_refl. simpl.
  destruct (Nat.eqb_spec q p) as [E|_]; [congruence|]. simpl.
  split; [|split; [|split]].
  - intros x. rewrite !andb_true_r. reflexivity.
  - intros x. rewrite Nat.eqb_refl. simpl. rewrite !andb_true_r. reflexivity.
  - intros l x Hl. apply Nat.eqb_neq in Hl. rewrite Hl, !andb_false_r.
    split; reflexivity.
  - intros x; split; reflexivity.
Qed.

Lemma splice_spec : forall k m update q head (A B : nat -> list ptr),
  (forall l, (l <= k)%nat ->
     chain (NX m l) (PV m l) head (A l ++ B l) head /\
     NoDup (head :: A l ++ B l) /\ ~ In q (head :: A l ++ B l) /\
     update l = last (head :: A l) head) ->
  (forall l, (l <= k)%nat ->
     chain (NX (splice m update q k) l) (PV (splice m update q k) l) head
       (A l ++ q :: B l) head) /\
  (forall l x, (k < l)%nat ->
     NX (splice m update q k) l x = NX m l x /\ PV (splice m update q k) l x = PV m l x) /\
  (forall x, lvl (splice m update q k) x = lvl m x /\ key (splice m update q k) x = key m x).
Proof.
  induction k as [|k IH]; intros m update q head A B Hl.
  - destruct (Hl 0%nat (le_n 0)) as (Hc & Hd & Hq & Hu).
    assert (Hqp : q <> update 0%nat).
    { rewrite Hu. intro E. apply Hq. rewrite E.
      destruct (A 0%nat) as [|a A0] using rev_ind; [left; auto|].
      right. change (head :: A0 ++ [a]) with ((head :: A0) ++ [a]). rewrite last_snoc.
      apply in_or_app; left; apply in_or_app; right; left; auto. }
    destruct (splice1_views m (update 0%nat) q 0 Hqp) as (V1 & V2 & V3 & V4).
    simpl. split; [|split].
    + intros l Hl0. assert (l = 0%nat) by lia. subst l.
      eapply ins_level; eauto.
    + intros l x Hl0. apply V3. lia.
    + exact V4.
  - destruct (Hl (S k) (le_n _)) as (Hc & Hd & Hq & Hu).
    assert (Hqp : q <> update (S k)).
    { rewrite Hu. intro E. apply Hq. rewrite E.
      destruct (A (S k)) as [|a A0] using rev_ind; [left; auto|].
      right. change (head :: A0 ++ [a]) with ((head :: A0) ++ [a]). rewrite last_snoc.
      apply in_or_app; left; apply in_or_app; right; left; auto. }
    destruct (splice1_views m (update (S k)) q (S k) Hqp) as (V1 & V2 & V3 & V4).
    simpl splice.
    set (m4 := set_prev _ _ _ _) in *.
    destruct (IH m4 update q head A B) as (R1 & R2 & R3).
    { intros l Hlk. destruct (Hl l (ltac:(lia))) as (Hc' & Hd' & Hq' & Hu').
      repeat split; auto.
      apply (chain_ext (NX m l) (PV m l)); auto;
        intros x; destruct (V3 l x ltac:(lia)); auto. }
    split; [|split].
    + intros l Hlk. destruct (Nat.eq_dec l (S k)) as [->|Hne].
      * apply (chain_ext (NX m4 (S k)) (PV m4 (S k))).
        -- intros x. apply (R2 (S k) x). lia.
        -- intros x. apply (R2 (S k) x). lia.
        -- eapply ins_level; eauto.
      * apply R1. lia.
    + intros l x Hlk. destruct (R2 l x ltac:(lia)) as [E1 E2].
      destruct (V3 l x ltac:(lia)) as [E3 E4]. rewrite E1, E2, E3, E4. auto.
    + intros x. destruct (R3 x) as [E1 E2]. destruct (V4 x) as [E3 E4].
      rewrite E1, E2, E3, E4. auto.
Qed.

Lemma chain_prefix : forall N P l1 l2 a z,
  chain N P a (l1 ++ l2) z -> chain N P a l1 (hd z l2).
Proof.
  intros N P l1 [|b l2] a z H; simpl.
  - rewrite app_nil_r in H. exact H.
  - apply chain_app in H. tauto.
Qed.

Lemma in_last : forall (l : list ptr) a, In (last (a :: l) a) (a :: l).
Proof.
  induction l as [|b l IH]; intros a; [simpl; auto|].
  change (last (a :: b :: l) a) with (last (b :: l) a).
  rewrite (last_cons_default l b a b). right. apply IH.
Qed.

Lemma take_drop : forall m ky L, take_le m ky L ++ drop_le m ky L = L.
Proof.
  induction L as [|y L IH]; simpl; auto.
  destruct (Z.leb (key m y) ky); simpl; congruence.
Qed.

Lemma take_le_keys : forall m ky L y, In y (take_le m ky L) -> (key m y <= ky)%Z.
Proof.
  induction L as [|z L IH]; intros y H; simpl in *; [contradiction|].
  destruct (Z.leb_spec (key m z) ky); simpl in H; [|contradiction].
  destruct H as [<-|H]; auto.
Qed.

Lemma drop_le_hd : forall m ky L d D, drop_le m ky L = d :: D -> (ky < key m d)%Z.
Proof.
  induction L as [|z L IH]; intros d D H; simpl in *; [discriminate|].
  destruct (Z.leb_spec (key m z) ky); [eauto|]. inversion H; subst; lia.
Qed.

Lemma ssorted_filter : forall (R : ptr -> ptr -> Prop) f L,
  StronglySorted R L -> StronglySorted R (filter f L).
Proof.
  intros R f L H. induction H as [|a L H IH Hall]; simpl; [constructor|].
  destruct (f a); auto. constructor; auto.
  rewrite Forall_forall in *. intros x Hx. apply filter_In in Hx. apply Hall; tauto.
Qed.

Lemma ssorted_in_take : forall m ky L x,
  StronglySorted (fun a b => key m a <= key m b)%Z L -> In x L -> (key m x <= ky)%Z ->
  In x (take_le m ky L).
Proof.
  intros m ky L x H. induction H as [|a L H IH Hall]; intros Hx Hk; simpl in *; [contradiction|].
  destruct (Z.leb_spec (key m a) ky).
  - destruct Hx as [<-|Hx]; [left; auto|right; auto].
  - exfalso. destruct Hx as [<-|Hx]; [lia|].
    rewrite Forall_forall in Hall. specialize (Hall x Hx). lia.
Qed.

Lemma key_sorted_ss : forall m L,
  Sorted (fun a b => key m a <= key m b)%Z L ->
  StronglySorted (fun a b => key m a <= key m b)%Z L.
Proof.
  intros m L H. apply Sorted_StronglySorted; auto.
  intros x y z H1 H2. lia.
Qed.

Lemma lv_length : forall m k L, (length (lv m k L) <= length L)%nat.
Proof. intros. unfold lv. apply filter_length_le. Qed.

Lemma lv_mono : forall m k L x, In x (lv m (S k) L) -> In x (lv m k L).
Proof.
  intros m k L x H. unfold lv in *. apply filter_In in H. apply filter_In.
  destruct H as [H1 H2]. split; auto. apply Nat.leb_le in H2. apply Nat.leb_le. lia.
Qed.

Lemma scan_spec : forall Y fuel m k ky p c,
  chain (NX m k) (PV m k) p Y c ->
  (forall y, In y Y -> key m y <= ky)%Z -> (ky < key m c)%Z ->
  (length Y < fuel)%nat ->
  scan fuel m k ky p = Some (last (p :: Y) p).
Proof.
  induction Y as [|y Y IH]; intros fuel m k ky p c H Hk Hc Hf;
    (destruct fuel as [|f]; [simpl in Hf; lia|]); simpl in H |- *.
  - destruct H as [H1 _]. unfold NX in H1. rewrite H1.
    destruct (Z.leb_spec (key m c) ky); [lia|reflexivity].
  - destruct H as (H1 & _ & H3). unfold NX in H1. rewrite H1.
    destruct (Z.leb_spec (key m y) ky) as [_|E]; [|specialize (Hk y (or_introl eq_refl)); lia].
    rewrite (IH f m k ky y c H3); [|intros; apply Hk; right; auto|auto|simpl in Hf; lia].
    rewrite (last_cons_default Y y y p). destruct Y; reflexivity.
Qed.

Lemma scan_mono : forall fuel n m k ky p r,
  scan fuel m k ky p = Some r -> scan (fuel + n) m k ky p = Some r.
Proof.
  induction fuel as [|f IH]; intros n m k ky p r H; simpl in *; [discriminate|].
  destruct (Z.leb (key m (nxt m p k)) ky); auto.
Qed.

Lemma search_mono : forall k fuel n m ky p upd r,
  search fuel m ky k p upd = Some r -> search (fuel + n) m ky k p upd = Some r.
Proof.
  induction k as [|k IH]; intros fuel n m ky p upd r H; simpl in *;
    destruct (scan fuel m _ ky p) as [p'|] eqn:E; try discriminate;
    rewrite (scan_mono _ n _ _ _ _ _ E); auto.
Qed.

Lemma last_app_cons : forall (l1 l2 : list ptr) a p,
  last (a :: l1 ++ p :: l2) a = last (p :: l2) p.
Proof.
  assert (E : forall (l : list ptr) a b d, last (a :: b :: l) d = last (b :: l) d)
    by reflexivity.
  induction l1 as [|b l1 IH]; intros l2 a p; simpl app.
  - rewrite E. apply last_cons_default.
  - rewrite E, (last_cons_default _ b a b). apply IH.
Qed.

Lemma take_le_incl : forall m ky L x, In x (take_le m ky L) -> In x L.
Proof.
  induction L as [|y L IH]; intros x H; simpl in *; auto.
  destruct (Z.leb (key m y) ky); simpl in H; [destruct H; auto|contradiction].
Qed.

Lemma scan_level : forall fuel m head L k ky p,
  SLInv m head L -> (k < NUM_SKIPLIST_LEVEL)%nat -> (ky < U64_MAX)%Z ->
  (length L < fuel)%nat ->
  In p (head :: take_le m ky (lv m k L)) ->
  scan fuel m k ky p = Some (last (head :: take_le m ky (lv m k L)) head).
Proof.
  intros fuel m head L k ky p I Hk Hky Hf Hp.
  set (T := take_le m ky (lv m k L)) in *.
  pose proof (inv_chain _ _ _ I k Hk) as C.
  rewrite <- (take_drop m ky (lv m k L)) in C. fold T in C.
  apply chain_prefix in C.
  assert (Hc : (ky < key m (hd head (drop_le m ky (lv m k L))))%Z).
  { destruct (drop_le m ky (lv m k L)) as [|d D] eqn:E; simpl.
    - rewrite (inv_hkey _ _ _ I). exact Hky.
    - eapply drop_le_hd; eauto. }
  assert (HT : (length T < fuel)%nat).
  { pose proof (lv_length m k L). unfold T.
    pose proof (f_equal (@length ptr) (take_drop m ky (lv m k L))) as E.
    rewrite length_app in E. lia. }
  destruct Hp as [<-|Hp].
  - eapply scan_spec; eauto. intros y Hy. eapply take_le_keys; eauto.
  - destruct (in_split _ _ Hp) as (T1 & T2 & E). rewrite E in C |- *.
    apply chain_app in C. destruct C as [_ C].
    rewrite last_app_cons. eapply scan_spec; eauto.
    + intros y Hy. apply (take_le_keys m ky (lv m k L)). fold T. rewrite E.
      apply in_or_app. right. right. exact Hy.
    + rewrite E, length_app in HT. simpl in HT. lia.
Qed.

Lemma search_spec : forall k fuel m ky head L p upd,
  SLInv m head L -> (k < NUM_SKIPLIST_LEVEL)%nat -> (ky < U64_MAX)%Z ->
  (length L < fuel)%nat ->
  In p (head :: take_le m ky (lv m k L)) ->
  exists u, search fuel m ky k p upd = Some u /\
    (forall l, (l <= k)%nat -> u l = last (head :: take_le m ky (lv m l L)) head) /\
    (forall l, (k < l)%nat -> u l = upd l).
Proof.
  induction k as [|k IH]; intros fuel m ky head L p upd I Hk Hky Hf Hp; simpl;
    rewrite (scan_level fuel m head L _ ky p I Hk Hky Hf Hp).
  - eexists; split; [reflexivity|]. split.
    + intros l Hl. assert (l = 0%nat) by lia. subst. reflexivity.
    + intros l Hl. destruct (Nat.eqb_spec l 0); [lia|reflexivity].
  - set (p' := last (head :: take_le m ky (lv m (S k) L)) head).
    assert (Hp' : In p' (head :: take_le m ky (lv m k L))).
    { pose proof (in_last (take_le m ky (lv m (S k) L)) head) as H. fold p' in H.
      destruct H as [H|H]; [left; exact H|right].
      apply ssorted_in_take.
      - apply ssorted_filter, key_sorted_ss, (inv_sorted _ _ _ I).
      - apply lv_mono. eapply take_le_incl; eauto.
      - eapply take_le_keys; eauto. }
    destruct (IH fuel m ky head L p' (fun l => if Nat.eqb l (S k) then p' else upd l)
                I ltac:(lia) Hky Hf Hp') as (u & Hu & H1 & H2).
    exists u. split; [exact Hu|]. split.
    + intros l Hl. destruct (Nat.eq_dec l (S k)) as [->|Hne].
      * rewrite H2 by lia. rewrite Nat.eqb_refl. reflexivity.
      * apply H1. lia.
    + intros l Hl. rewrite H2 by lia. destruct (Nat.eqb_spec l (S k)); [lia|reflexivity].
Qed.

(** *** Lists of the invariant under changes of the memory *)

Lemma lv_ext : forall m m' k L,
  (forall x, In x L -> lvl m' x = lvl m x) -> lv m' k L = lv m k L.
Proof.
  intros m m' k L H. unfold lv. apply filter_ext_in. intros x Hx. rewrite H; auto.
Qed.

Lemma take_ext : forall m m' ky L,
  (forall x, In x L -> key m' x = key m x) -> take_le m' ky L = take_le m ky L.
Proof.
  induction L as [|y L IH]; intros H; simpl; auto.
  rewrite H by (left; auto). rewrite IH by (intros; apply H; right; auto). reflexivity.
Qed.

Lemma drop_ext : forall m m' ky L,
  (forall x, In x L -> key m' x = key m x) -> drop_le m' ky L = drop_le m ky L.
Proof.
  induction L as [|y L IH]; intros H; simpl; auto.
  rewrite H by (left; auto). rewrite IH by (intros; apply H; right; auto). reflexivity.
Qed.

Lemma maxlvl_ext : forall m m' L,
  (forall x, In x L -> lvl m' x = lvl m x) -> maxlvl m' L = maxlvl m L.
Proof.
  induction L as [|y L IH]; intros H; simpl; auto.
  rewrite H by (left; auto). rewrite IH by (intros; apply H; right; auto). reflexivity.
Qed.

Lemma sorted_impl : forall (R R' : ptr -> ptr -> Prop) L,
  (forall a b, In a L -> In b L -> R a b -> R' a b) -> Sorted R L -> Sorted R' L.
Proof.
  intros R R' L H HS. induction HS as [|a L HS IH Hd]; constructor.
  - apply IH. intros; apply H; simpl; auto.
  - destruct Hd; constructor. apply H; simpl; auto.
Qed.

Lemma maxlvl_app : forall m A B, maxlvl m (A ++ B) = Nat.max (maxlvl m A) (maxlvl m B).
Proof.
  induction A as [|a A IH]; intros B; simpl; auto. rewrite IH. lia.
Qed.

Lemma maxlvl_lt : forall m L n,
  (0 < n)%nat -> (forall x, In x L -> (lvl m x < n)%nat) -> (maxlvl m L < n)%nat.
Proof.
  induction L as [|a L IH]; intros n Hn H; simpl; auto.
  specialize (IH n Hn ltac:(intros; apply H; right; auto)).
  specialize (H a (or_introl eq_refl)). lia.
Qed.

Lemma maxlvl_ge : forall m L x, In x L -> (lvl m x <= maxlvl m L)%nat.
Proof.
  induction L as [|a L IH]; intros x H; simpl in *; [contradiction|].
  destruct H as [<-|H]; [lia|]. specialize (IH x H). lia.
Qed.

Lemma lv_above : forall m k L, (maxlvl m L < k)%nat -> lv m k L = [].
Proof.
  intros m k L H. unfold lv. destruct (filter _ L) as [|x l] eqn:E; auto.
  assert (Hx : In x (filter (fun p => Nat.leb k (lvl m p)) L)) by (rewrite E; left; auto).
  apply filter_In in Hx. destruct Hx as [Hx Hk]. apply Nat.leb_le in Hk.
  pose proof (maxlvl_ge m L x Hx). lia.
Qed.

Lemma filter_none : forall (f : ptr -> bool) L,
  (forall x, In x L -> f x = false) -> filter f L = [].
Proof.
  induction L as [|a L IH]; intros H; simpl; auto.
  rewrite H by (left; auto). apply IH. intros; apply H; right; auto.
Qed.

Lemma filter_all : forall (f : ptr -> bool) L,
  (forall x, In x L -> f x = true) -> filter f L = L.
Proof.
  induction L as [|a L IH]; intros H; simpl; auto.
  rewrite H by (left; auto). f_equal. apply IH. intros; apply H; right; auto.
Qed.

Lemma take_le_filter : forall m ky L,
  StronglySorted (fun a b => key m a <= key m b)%Z L ->
  take_le m ky L = filter (fun x => Z.leb (key m x) ky) L.
Proof.
  intros m ky L H. induction H as [|a L H IH Hall]; simpl; auto.
  destruct (Z.leb_spec (key m a) ky); [congruence|].
  symmetry. apply filter_none. intros x Hx.
  rewrite Forall_forall in Hall. specialize (Hall x Hx).
  destruct (Z.leb_spec (key m x) ky); [lia|reflexivity].
Qed.

Lemma drop_le_filter : forall m ky L,
  StronglySorted (fun a b => key m a <= key m b)%Z L ->
  drop_le m ky L = filter (fun x => negb (Z.leb (key m x) ky)) L.
Proof.
  intros m ky L H. induction H as [|a L H IH Hall]; simpl; auto.
  destruct (Z.leb_spec (key m a) ky); simpl; [congruence|].
  f_equal. symmetry. apply filter_all. intros x Hx.
  rewrite Forall_forall in Hall. specialize (Hall x Hx).
  destruct (Z.leb_spec (key m x) ky); [lia|reflexivity].
Qed.

Lemma filter_comm : forall (f g : ptr -> bool) L,
  filter f (filter g L) = filter g (filter f L).
Proof.
  induction L as [|a L IH]; simpl; auto.
  destruct (g a) eqn:Eg, (f a) eqn:Ef; simpl; rewrite ?Eg, ?Ef; congruence.
Qed.

Lemma lv_take : forall m ky k L,
  Sorted (fun a b => key m a <= key m b)%Z L ->
  take_le m ky (lv m k L) = lv m k (take_le m ky L).
Proof.
  intros m ky k L H. apply key_sorted_ss in H. unfold lv.
  rewrite !take_le_filter; auto using ssorted_filter. apply filter_comm.
Qed.

Lemma lv_drop : forall m ky k L,
  Sorted (fun a b => key m a <= key m b)%Z L ->
  drop_le m ky (lv m k L) = lv m k (drop_le m ky L).
Proof.
  intros m ky k L H. apply key_sorted_ss in H. unfold lv.
  rewrite !drop_le_filter; auto using ssorted_filter. apply filter_comm.
Qed.

Lemma sorted_insert : forall m ky x L,
  key m x = ky -> Sorted (fun a b => key m a <= key m b)%Z L ->
  Sorted (fun a b => key m a <= key m b)%Z (take_le m ky L ++ x :: drop_le m ky L).
Proof.
  intros m ky x L Hx H. induction H as [|a L H IH Hd]; simpl.
  - repeat constructor.
  - destruct (Z.leb_spec (key m a) ky) as [Ha|Ha]; simpl.
    + constructor; auto.
      destruct L as [|b L]; simpl; [constructor; lia|].
      inversion Hd as [|? ? Hab].
      destruct (Z.leb (key m b) ky); simpl; constructor; lia.
    + constructor; [constructor; auto|constructor; lia].
Qed.

Lemma nodup_lv : forall m k head L, NoDup (head :: L) -> NoDup (head :: lv m k L).
Proof.
  intros m k head L H. inversion H as [|? ? Hn Hd]; subst. constructor.
  - unfold lv. rewrite filter_In. tauto.
  - apply NoDup_filter. exact Hd.
Qed.

Lemma SLInv_frame : forall m m' head L,
  SLInv m head L ->
  (forall x l, nxt m' x l = nxt m x l) -> (forall x l, prv m' x l = prv m x l) ->
  (forall x, In x (head :: L) -> lvl m' x = lvl m x /\ key m' x = key m x) ->
  SLInv m' head L.
Proof.
  intros m m' head L I HN HP HL.
  assert (HL' : forall x, In x L -> lvl m' x = lvl m x /\ key m' x = key m x)
    by (intros; apply HL; right; auto).
  constructor.
  - apply (inv_nodup _ _ _ I).
  - intros k Hk. rewrite (lv_ext m m') by (intros; apply HL'; auto).
    apply (chain_ext (NX m k) (PV m k)); [intros; apply HN|intros; apply HP|].
    apply (inv_chain _ _ _ I k Hk).
  - apply (sorted_impl (fun a b => key m a <= key m b)%Z _ L); [|apply (inv_sorted _ _ _ I)].
    intros a b Ha Hb H. rewrite (proj2 (HL' a Ha)), (proj2 (HL' b Hb)). exact H.
  - intros p Hp. rewrite (proj2 (HL' p Hp)). apply (inv_keys _ _ _ I p Hp).
  - intros p Hp. rewrite (proj1 (HL' p Hp)). apply (inv_lvls _ _ _ I p Hp).
  - rewrite (proj2 (HL head (or_introl eq_refl))). apply (inv_hkey _ _ _ I).
  - rewrite (proj1 (HL head (or_introl eq_refl))), (maxlvl_ext m m')
      by (intros; apply HL'; auto).
    apply (inv_hlvl _ _ _ I).
Qed.

(** The splicing of [skiplist_insert], once the search has filled in
    [update], keeps the invariant; the node goes after the nodes of
    key [<= ky]. *)
Lemma insert_core : forall m m2 update k head L node ky,
  SLInv m head L -> node <> head -> ~ In node L -> (0 <= ky < U64_MAX)%Z ->
  (k < NUM_SKIPLIST_LEVEL)%nat ->
  (forall x l, nxt m2 x l = nxt m x l) -> (forall x l, prv m2 x l = prv m x l) ->
  (forall x, In x L -> lvl m2 x = lvl m x /\ key m2 x = key m x) ->
  key m2 head = key m head -> key m2 node = ky -> lvl m2 node = k ->
  lvl m2 head = Nat.max k (lvl m head) ->
  (forall l, (l <= k)%nat -> update l = last (head :: take_le m ky (lv m l L)) head) ->
  SLInv (splice m2 update node k) head (take_le m ky L ++ node :: drop_le m ky L).
Proof.
  intros m m2 update k head L node ky I Hnh HnL Hky Hk HN HP HL Hhk Hnk Hnl Hhl Hu.
  assert (HTD : forall x, In x (take_le m ky L) \/ In x (drop_le m ky L) -> In x L).
  { intros x Hx. rewrite <- (take_drop m ky L). apply in_or_app. exact Hx. }
  assert (HS := inv_sorted _ _ _ I).
  destruct (splice_spec k m2 update node head (fun l => take_le m ky (lv m l L))
              (fun l => drop_le m ky (lv m l L))) as (R1 & R2 & R3).
  { intros l Hl. rewrite take_drop. split; [|split; [|split]].
    - apply (chain_ext (NX m l) (PV m l)); [intros; apply HN|intros; apply HP|].
      apply (inv_chain _ _ _ I). lia.
    - apply nodup_lv, (inv_nodup _ _ _ I).
    - intros [E|Hin]; [congruence|]. apply HnL. unfold lv in Hin.
      apply filter_In in Hin. tauto.
    - apply Hu; auto. }
  set (m' := splice m2 update node k) in *.
  assert (Hm'L : forall x, In x L -> lvl m' x = lvl m x /\ key m' x = key m x).
  { intros x Hx. destruct (R3 x) as [E1 E2]. rewrite E1, E2. apply HL; auto. }
  assert (Hlv : forall l, lv m' l (take_le m ky L ++ node :: drop_le m ky L) =
     if Nat.leb l k then take_le m ky (lv m l L) ++ node :: drop_le m ky (lv m l L)
     else lv m l L).
  { intros l. rewrite lv_take, lv_drop by exact HS. unfold lv at 1. rewrite filter_app.
    simpl. destruct (R3 node) as [E1 _]. rewrite E1, Hnl.
    change (filter (fun p => Nat.leb l (lvl m' p)) (take_le m ky L))
      with (lv m' l (take_le m ky L)).
    change (filter (fun p => Nat.leb l (lvl m' p)) (drop_le m ky L))
      with (lv m' l (drop_le m ky L)).
    rewrite (lv_ext m m' l (take_le m ky L)), (lv_ext m m' l (drop_le m ky L))
      by (intros x Hx; apply Hm'L, HTD; auto).
    destruct (Nat.leb l k); auto.
    unfold lv. rewrite <- filter_app, take_drop. reflexivity. }
  assert (Hnd := inv_nodup _ _ _ I).
  constructor.
  - apply Permutation_NoDup with (head :: node :: L).
    + apply perm_skip. rewrite <- (take_drop m ky L) at 1. apply Permutation_middle.
    + inversion Hnd as [|? ? Hn Hd]; subst. constructor.
      * intros [E|Hin]; [congruence|contradiction].
      * constructor; auto.
  - intros l Hl. rewrite Hlv. destruct (Nat.leb_spec l k).
    + apply R1; auto.
    + apply (chain_ext (NX m l) (PV m l)).
      * intros x. rewrite (proj1 (R2 l x ltac:(lia))). apply HN.
      * intros x. rewrite (proj2 (R2 l x ltac:(lia))). apply HP.
      * apply (inv_chain _ _ _ I l Hl).
  - set (mk := set_key m node ky).
    assert (Ek : forall x, In x L -> key mk x = key m x).
    { intros x Hx. simpl. destruct (Nat.eqb_spec x node); [subst; contradiction|reflexivity]. }
    assert (HSk : Sorted (fun a b => key mk a <= key mk b)%Z L).
    { apply (sorted_impl (fun a b => key m a <= key m b)%Z _ L); auto.
      intros a b Ha Hb. rewrite !Ek; auto. }
    pose proof (sorted_insert mk ky node L ltac:(simpl; rewrite Nat.eqb_refl; auto) HSk) as S.
    rewrite (take_ext m mk), (drop_ext m mk) in S by exact Ek.
    apply (sorted_impl (fun a b => key mk a <= key mk b)%Z _ _); [|exact S].
    assert (E' : forall x, In x (take_le m ky L ++ node :: drop_le m ky L) ->
                  key m' x = key mk x).
    { intros x Hx. apply in_app_or in Hx. destruct Hx as [Hx|[<-|Hx]].
      - rewrite Ek by (apply HTD; auto). apply Hm'L, HTD; auto.
      - simpl. rewrite Nat.eqb_refl. rewrite (proj2 (R3 node)). exact Hnk.
      - rewrite Ek by (apply HTD; auto). apply Hm'L, HTD; auto. }
    intros a b Ha Hb Hab. rewrite !E'; auto.
  - intros p Hp. apply in_app_or in Hp. destruct Hp as [Hp|[<-|Hp]].
    + rewrite (proj2 (Hm'L p (HTD p (or_introl Hp)))). apply (inv_keys _ _ _ I). auto.
    + rewrite (proj2 (R3 node)), Hnk. exact Hky.
    + rewrite (proj2 (Hm'L p (HTD p (or_intror Hp)))). apply (inv_keys _ _ _ I). auto.
  - intros p Hp. apply in_app_or in Hp. destruct Hp as [Hp|[<-|Hp]].
    + rewrite (proj1 (Hm'L p (HTD p (or_introl Hp)))). apply (inv_lvls _ _ _ I). auto.
    + rewrite (proj1 (R3 node)), Hnl. exact Hk.
    + rewrite (proj1 (Hm'L p (HTD p (or_intror Hp)))). apply (inv_lvls _ _ _ I). auto.
  - rewrite (proj2 (R3 head)), Hhk. apply (inv_hkey _ _ _ I).
  - rewrite (proj1 (R3 head)), Hhl, (inv_hlvl _ _ _ I).
    rewrite maxlvl_app. simpl. rewrite (proj1 (R3 node)), Hnl.
    rewrite (maxlvl_ext m m' (take_le m ky L)), (maxlvl_ext m m' (drop_le m ky L))
      by (intros x Hx; apply Hm'L, HTD; auto).
    rewrite <- (take_drop m ky L) at 1. rewrite maxlvl_app. lia.
Qed.

Lemma splice_lk : forall k m update q x,
  lvl (splice m update q k) x = lvl m x /\ key (splice m update q k) x = key m x.
Proof.
  induction k as [|k IH]; intros m update q x; [split; reflexivity|].
  simpl splice. set (m4 := set_prev _ _ _ _).
  destruct (IH m4 update q x) as [E1 E2]. rewrite E1, E2. split; reflexivity.
Qed.

(** [skiplist_insert], called by [enqueue] on a node outside the list
    with a key below [U64_MAX], returns (given enough fuel for the
    search loops) and puts the node after all nodes of key [<= ky]. *)
Lemma insert_inv : forall fuel m head L node ky lvn,
  SLInv m head L -> node <> head -> ~ In node L -> (lvn < NUM_SKIPLIST_LEVEL)%nat ->
  (0 <= ky < U64_MAX)%Z -> (length L < fuel)%nat ->
  exists m', enqueue fuel m head node ky lvn = Some m' /\
    SLInv m' head (take_le m ky L ++ node :: drop_le m ky L) /\
    key m' node = ky /\ (forall x, x <> node -> key m' x = key m x).
Proof.
  intros fuel m head L node ky lvn I Hnh HnL Hlv Hky Hf.
  unfold enqueue, skiplist_insert.
  set (m0 := set_key (set_level m node lvn) node ky).
  assert (F0 : forall x, x <> node -> lvl m0 x = lvl m x /\ key m0 x = key m x).
  { intros x Hx. simpl. rewrite (proj2 (Nat.eqb_neq x node) Hx). auto. }
  assert (Hn0l : lvl m0 node = lvn) by (simpl; rewrite Nat.eqb_refl; auto).
  assert (Hn0k : key m0 node = ky) by (simpl; rewrite Nat.eqb_refl; auto).
  assert (Hm0N : forall x l, nxt m0 x l = nxt m x l) by reflexivity.
  assert (Hm0P : forall x l, prv m0 x l = prv m x l) by reflexivity.
  clearbody m0.
  assert (I0 : SLInv m0 head L).
  { apply (SLInv_frame m); auto. intros x Hx. apply F0.
    intro E; rewrite E in Hx; destruct Hx; [congruence|contradiction]. }
  assert (Eh : lvl m0 head = lvl m head) by (apply F0; auto).
  assert (Hk0 : (lvl m0 head < NUM_SKIPLIST_LEVEL)%nat).
  { rewrite (inv_hlvl _ _ _ I0). apply maxlvl_lt; [unfold NUM_SKIPLIST_LEVEL; lia|].
    apply (inv_lvls _ _ _ I0). }
  rewrite Hn0k.
  destruct (search_spec (lvl m0 head) fuel m0 ky head L head (fun _ => head) I0 Hk0
              ltac:(lia) Hf (or_introl eq_refl)) as (u & Hu & U1 & U2).
  rewrite Hu, Hn0l.
  assert (HLx : forall x, In x L -> lvl m0 x = lvl m x /\ key m0 x = key m x).
  { intros x Hx. apply F0. intro E; rewrite E in Hx; contradiction. }
  assert (U1' : forall l, (l <= lvl m0 head)%nat ->
             u l = last (head :: take_le m ky (lv m l L)) head).
  { intros l Hl. rewrite U1 by exact Hl.
    rewrite (lv_ext m m0) by (intros; apply HLx; auto).
    rewrite (take_ext m m0); [reflexivity|].
    intros x Hx. apply HLx. unfold lv in Hx. apply filter_In in Hx. tauto. }
  destruct (Nat.ltb_spec (lvl m0 head) lvn) as [Hlt|Hge].
  - eexists; split; [reflexivity|]. split; [|split].
    + apply insert_core; auto.
      * unfold NUM_SKIPLIST_LEVEL in *. lia.
      * intros x Hx. simpl. destruct (Nat.eqb_spec x node) as [E|_];
          [rewrite E in Hx; contradiction|].
        destruct (Nat.eqb_spec x head) as [E|_]; [|apply HLx; auto].
        exfalso. rewrite E in Hx. pose proof (inv_nodup _ _ _ I) as D.
        inversion D. contradiction.
      * simpl. apply F0; auto.
      * simpl. rewrite Nat.eqb_refl. reflexivity.
      * unfold set_level; cbn [lvl].
        rewrite Nat.eqb_refl, (proj2 (Nat.eqb_neq head node)) by congruence. lia.
      * intros l Hl. destruct (Nat.eqb_spec l (S (lvl m0 head))) as [->|Hne].
        -- rewrite lv_above; [reflexivity|]. rewrite <- (inv_hlvl _ _ _ I). lia.
        -- apply U1'. lia.
    + rewrite (proj2 (splice_lk _ _ _ _ _)). exact Hn0k.
    + intros x Hx. rewrite (proj2 (splice_lk _ _ _ _ _)). apply F0; auto.
  - eexists; split; [reflexivity|]. split; [|split].
    + apply insert_core; auto.
      * intros x Hx. simpl. destruct (Nat.eqb_spec x node) as [E|_];
          [rewrite E in Hx; contradiction|].
        apply HLx; auto.
      * simpl. apply F0; auto.
      * simpl. rewrite Nat.eqb_refl. reflexivity.
      * unfold set_level; cbn [lvl].
        rewrite (proj2 (Nat.eqb_neq head node)) by congruence. lia.
      * intros l Hl. apply U1'. lia.
    + rewrite (proj2 (splice_lk _ _ _ _ _)). exact Hn0k.
    + intros x Hx. rewrite (proj2 (splice_lk _ _ _ _ _)). apply F0; auto.
Qed.

(** *** Deletion *)

Lemma unlink1_views : forall m node l,
  prv m node l <> node ->
  (forall y, NX (unlink1 m node l) l y =
             if Nat.eqb y (PV m l node) then NX m l node else NX m l y) /\
  (forall y, PV (unlink1 m node l) l y =
             if Nat.eqb y (NX m l node) then PV m l node else PV m l y) /\
  (forall l' y, l' <> l -> NX (unlink1 m node l) l' y = NX m l' y /\
                           PV (unlink1 m node l) l' y = PV m l' y) /\
  (forall y, lvl (unlink1 m node l) y = lvl m y /\ key (unlink1 m node l) y = key m y).
Proof.
  intros m node l Hp. unfold unlink1, NX, PV, set_next, set_prev, upd2; cbn [nxt prv lvl key].
  rewrite Nat.eqb_refl.
  destruct (Nat.eqb_spec node (prv m node l)) as [E|_]; [congruence|]. cbn [andb].
  split; [|split; [|split]].
  - intros y. rewrite andb_true_r. reflexivity.
  - intros y. rewrite andb_true_r. reflexivity.
  - intros l' y Hl. apply Nat.eqb_neq in Hl. rewrite Hl, !andb_false_r. split; reflexivity.
  - intros y. split; reflexivity.
Qed.

Lemma mid_prev_ne : forall m l node head A B,
  chain (NX m l) (PV m l) head (A ++ node :: B) head -> NoDup (head :: A ++ node :: B) ->
  prv m node l <> node.
Proof.
  intros m l node head A B C D E.
  destruct (chain_mid _ _ _ _ _ _ C) as [E1 _]. unfold PV in E1. rewrite E1 in E.
  pose proof (in_last A head) as Hin. rewrite E in Hin.
  destruct Hin as [Hin|Hin].
  - inversion D as [|? ? Hn _]. apply Hn. rewrite Hin. apply in_or_app; right; left; auto.
  - inversion D as [|? ? _ D']. eapply nodup_disj; eauto. left; auto.
Qed.

Lemma mid_next_ne : forall m l node head A B,
  chain (NX m l) (PV m l) head (A ++ node :: B) head -> NoDup (head :: A ++ node :: B) ->
  nxt m node l <> node.
Proof.
  intros m l node head A B C D E.
  destruct (chain_mid _ _ _ _ _ _ C) as [_ E1]. unfold NX in E1. rewrite E1 in E.
  destruct B as [|b B]; simpl in E.
  - inversion D as [|? ? Hn _]. apply Hn. rewrite <- E. apply in_or_app; right; left; auto.
  - rewrite E in D. inversion D as [|? ? _ D']. apply NoDup_remove_2 in D'.
    apply D'. apply in_or_app. right. left. auto.
Qed.

Lemma unlink_spec : forall j m node head (A B : nat -> list ptr),
  (forall l, (l <= j)%nat ->
     chain (NX m l) (PV m l) head (A l ++ node :: B l) head /\
     NoDup (head :: A l ++ node :: B l)) ->
  (forall l, (l <= j)%nat ->
     chain (NX (unlink_upto m node j) l) (PV (unlink_upto m node j) l) head (A l ++ B l) head /\
     NX (unlink_upto m node j) l (PV m l node) = NX m l node /\
     PV (unlink_upto m node j) l (NX m l node) = PV m l node) /\
  (forall l y, (j < l)%nat ->
     NX (unlink_upto m node j) l y = NX m l y /\ PV (unlink_upto m node j) l y = PV m l y) /\
  (forall y, lvl (unlink_upto m node j) y = lvl m y /\ key (unlink_upto m node j) y = key m y).
Proof.
  pose proof mid_prev_ne as Hpn.
  induction j as [|j IH]; intros m node head A B Hl.
  - destruct (Hl 0%nat (le_n 0)) as [C D].
    destruct (unlink1_views m node 0 (Hpn _ _ _ _ _ _ C D)) as (V1 & V2 & V3 & V4).
    simpl unlink_upto. split; [|split].
    + intros l Hl0. assert (l = 0%nat) by lia. subst l. split; [|split].
      * eapply unl_level; eauto.
      * rewrite V1, Nat.eqb_refl. reflexivity.
      * rewrite V2, Nat.eqb_refl. reflexivity.
    + intros l y Hl0. apply V3. lia.
    + exact V4.
  - destruct (IH m node head A B ltac:(intros; apply Hl; lia)) as (R1 & R2 & R3).
    set (mj := unlink_upto m node j) in *.
    destruct (Hl (S j) (le_n _)) as [C D].
    assert (C' : chain (NX mj (S j)) (PV mj (S j)) head (A (S j) ++ node :: B (S j)) head).
    { apply (chain_ext (NX m (S j)) (PV m (S j))); auto;
        intros y; destruct (R2 (S j) y ltac:(lia)); auto. }
    destruct (unlink1_views mj node (S j) (Hpn _ _ _ _ _ _ C' D)) as (V1 & V2 & V3 & V4).
    change (unlink_upto m node (S j)) with (unlink1 mj node (S j)).
    split; [|split].
    + intros l Hlj. destruct (Nat.eq_dec l (S j)) as [->|Hne].
      * split; [|split].
        -- eapply unl_level; eauto.
        -- rewrite V1. destruct (R2 (S j) node ltac:(lia)) as [_ E]. rewrite E, Nat.eqb_refl.
           destruct (R2 (S j) node ltac:(lia)) as [E' _]. exact E'.
        -- rewrite V2. destruct (R2 (S j) node ltac:(lia)) as [E _]. rewrite E, Nat.eqb_refl.
           destruct (R2 (S j) node ltac:(lia)) as [_ E']. exact E'.
      * destruct (R1 l ltac:(lia)) as (R1a & R1b & R1c). split; [|split].
        -- apply (chain_ext (NX mj l) (PV mj l)); auto;
             intros y; destruct (V3 l y Hne); auto.
        -- destruct (V3 l (PV m l node) Hne) as [E _]. rewrite E. exact R1b.
        -- destruct (V3 l (NX m l node) Hne) as [_ E]. rewrite E. exact R1c.
    + intros l y Hlj. destruct (V3 l y ltac:(lia)) as [E1 E2].
      destruct (R2 l y ltac:(lia)) as [E3 E4]. rewrite E1, E2, E3, E4. auto.
    + intros y. destruct (V4 y) as [E1 E2]. destruct (R3 y) as [E3 E4].
      rewrite E1, E2, E3, E4. auto.
Qed.

Lemma init_links_spec : forall n m node,
  (forall y l, y <> node -> nxt (init_links n m node) y l = nxt m y l /\
                           prv (init_links n m node) y l = prv m y l) /\
  (forall l, (l < n)%nat -> nxt (init_links n m node) node l = node /\
                           prv (init_links n m node) node l = node) /\
  (forall y, lvl (init_links n m node) y = lvl m y /\ key (init_links n m node) y = key m y).
Proof.
  induction n as [|n IH]; intros m node.
  - split; [|split]; [intros; split; reflexivity|intros; lia|intros; split; reflexivity].
  - destruct (IH m node) as (I1 & I2 & I3). simpl init_links.
    set (mi := init_links n m node) in *.
    unfold set_prev, set_next, upd2; cbn [nxt prv lvl key]. split; [|split].
    + intros y l Hy. apply Nat.eqb_neq in Hy. rewrite Hy. simpl. apply I1.
      apply Nat.eqb_neq; exact Hy.
    + intros l Hl. rewrite Nat.eqb_refl. simpl.
      destruct (Nat.eqb_spec l n); [split; reflexivity|]. apply I2. lia.
    + exact I3.
Qed.

Lemma INIT_spec : forall m node,
  let m' := INIT_SKIPLIST_NODE m node in
  (forall y l, y <> node -> nxt m' y l = nxt m y l /\ prv m' y l = prv m y l) /\
  (forall y, y <> node -> lvl m' y = lvl m y /\ key m' y = key m y) /\
  (forall l, (l < NUM_SKIPLIST_LEVEL)%nat -> nxt m' node l = node /\ prv m' node l = node) /\
  lvl m' node = 0%nat /\ key m' node = U64_MAX.
Proof.
  intros m node m'. unfold m', INIT_SKIPLIST_NODE.
  destruct (init_links_spec NUM_SKIPLIST_LEVEL (set_level m node 0) node) as (I1 & I2 & I3).
  set (mi := init_links NUM_SKIPLIST_LEVEL (set_level m node 0) node) in *.
  unfold set_key; cbn [nxt prv lvl key]. split; [|split; [|split; [|split]]].
  - exact I1.
  - intros y Hy. rewrite (proj1 (I3 y)), (proj2 (I3 y)). simpl.
    rewrite (proj2 (Nat.eqb_neq y node) Hy). split; reflexivity.
  - exact I2.
  - rewrite (proj1 (I3 node)). simpl. rewrite Nat.eqb_refl. reflexivity.
  - rewrite Nat.eqb_refl. reflexivity.
Qed.

Lemma maxlvl_attained : forall m L, (0 < maxlvl m L)%nat ->
  exists x, In x L /\ lvl m x = maxlvl m L.
Proof.
  induction L as [|a L IH]; intros H; simpl in *; [lia|].
  destruct (Nat.le_gt_cases (lvl m a) (maxlvl m L)) as [Hle|Hgt].
  - destruct (Nat.eq_dec (maxlvl m L) 0) as [E|E].
    + exists a. split; [left; auto|]. lia.
    + destruct (IH ltac:(lia)) as (x & Hx & Ex). exists x. split; [right; auto|]. lia.
  - exists a. split; [left; auto|]. lia.
Qed.

(** The loop that lowers the header level stops at the highest
    non-empty level. *)
Lemma lower_spec : forall j m head L,
  (forall l, (l < NUM_SKIPLIST_LEVEL)%nat -> chain (NX m l) (PV m l) head (lv m l L) head) ->
  ~ In head L -> (maxlvl m L <= j)%nat -> (j < NUM_SKIPLIST_LEVEL)%nat ->
  lower m head j = maxlvl m L.
Proof.
  induction j as [|j IH]; intros m head L HC Hh Hj Hj16; simpl; [lia|].
  assert (Hh' : ~ In head (lv m (S j) L)).
  { unfold lv. rewrite filter_In. tauto. }
  pose proof (chain_nil_iff _ _ _ _ (HC (S j) Hj16) Hh') as E. unfold NX, PV in E.
  destruct (Nat.eq_dec (maxlvl m L) (S j)) as [Em|Em].
  - destruct (maxlvl_attained m L ltac:(lia)) as (x & Hx & Ex).
    assert (Hne : lv m (S j) L <> []).
    { intro H0. assert (Hin : In x (lv m (S j) L)).
      { unfold lv. apply filter_In. split; auto. apply Nat.leb_le. lia. }
      rewrite H0 in Hin. contradiction. }
    destruct (Nat.eqb_spec (nxt m head (S j)) head), (Nat.eqb_spec (prv m head (S j)) head);
      simpl; try lia.
    exfalso. apply Hne. apply E. auto.
  - rewrite (lv_above m (S j) L) in E by lia.
    destruct (proj2 E eq_refl) as [E1 E2]. rewrite E1, E2, !Nat.eqb_refl. simpl.
    apply IH; auto; lia.
Qed.

Lemma ssorted_remove : forall (R : ptr -> ptr -> Prop) A x B,
  StronglySorted R (A ++ x :: B) -> StronglySorted R (A ++ B).
Proof.
  induction A as [|a A IH]; intros x B H; simpl in *.
  - inversion H; auto.
  - inversion H as [|? ? H1 H2]; subst. constructor; [eapply IH; eauto|].
    rewrite Forall_forall in *. intros y Hy. apply H2.
    apply in_app_or in Hy. apply in_or_app. destruct Hy; [left|right; right]; auto.
Qed.

Lemma lv_app_mid : forall m l A node B,
  lv m l (A ++ node :: B) =
  lv m l A ++ (if Nat.leb l (lvl m node) then [node] else []) ++ lv m l B.
Proof.
  intros. unfold lv. rewrite filter_app. simpl. destruct (Nat.leb l (lvl m node)); reflexivity.
Qed.

(** [skiplist_del_init] on a node of the list removes it from the list,
    keeps the invariant, relinks its neighbours at each of its levels
    and leaves the node detached. *)
Lemma delete_inv : forall m head A node B,
  SLInv m head (A ++ node :: B) ->
  SLInv (skiplist_del_init m head node) head (A ++ B) /\
  (forall l, (l <= lvl m node)%nat ->
     nxt (skiplist_del_init m head node) (prv m node l) l = nxt m node l /\
     prv (skiplist_del_init m head node) (nxt m node l) l = prv m node l) /\
  (forall l, (l < NUM_SKIPLIST_LEVEL)%nat ->
     nxt (skiplist_del_init m head node) node l = node /\
     prv (skiplist_del_init m head node) node l = node) /\
  lvl (skiplist_del_init m head node) node = 0%nat /\
  key (skiplist_del_init m head node) node = U64_MAX /\
  (forall y, y <> node -> key (skiplist_del_init m head node) y = key m y).
Proof.
  intros m head A node B I.
  assert (HD := inv_nodup _ _ _ I).
  assert (Hnh : node <> head).
  { intro E. inversion HD as [|? ? Hn _]. apply Hn. rewrite <- E.
    apply in_or_app; right; left; auto. }
  assert (HnAB : ~ In node (A ++ B)).
  { inversion HD as [|? ? _ D]. apply NoDup_remove_2. exact D. }
  assert (HhAB : ~ In head (A ++ B)).
  { inversion HD as [|? ? Hn _]. intro Hin. apply Hn. apply in_app_or in Hin.
    apply in_or_app. destruct Hin; [left|right; right]; auto. }
  assert (HinL : forall y, In y (A ++ B) -> In y (A ++ node :: B)).
  { intros y Hy. apply in_app_or in Hy. apply in_or_app.
    destruct Hy; [left|right; right]; auto. }
  assert (Hmm : (lvl m node < NUM_SKIPLIST_LEVEL)%nat).
  { apply (inv_lvls _ _ _ I). apply in_or_app; right; left; auto. }
  unfold skiplist_del_init.
  set (mm := lvl m node) in *.
  destruct (unlink_spec mm m node head (fun l => lv m l A) (fun l => lv m l B))
    as (U1 & U2 & U3).
  { intros l Hl. pose proof (inv_chain _ _ _ I l ltac:(lia)) as C.
    pose proof (nodup_lv m l _ _ HD) as D.
    rewrite lv_app_mid in C, D. fold mm in C, D. rewrite (proj2 (Nat.leb_le l mm) Hl) in C, D.
    split; [exact C|exact D]. }
  set (m1 := unlink_upto m node mm) in *.
  assert (Elv1 : forall l X, lv m1 l X = lv m l X).
  { intros. apply lv_ext. intros; apply U3. }
  assert (Ch1 : forall l, (l < NUM_SKIPLIST_LEVEL)%nat ->
            chain (NX m1 l) (PV m1 l) head (lv m1 l (A ++ B)) head).
  { intros l Hl. rewrite Elv1. unfold lv at 1. rewrite filter_app.
    fold (lv m l A) (lv m l B).
    destruct (Nat.le_gt_cases l mm) as [Hle|Hgt].
    - apply (U1 l Hle).
    - pose proof (inv_chain _ _ _ I l Hl) as C. rewrite lv_app_mid in C. fold mm in C.
      rewrite (proj2 (Nat.leb_gt l mm) Hgt) in C. simpl in C.
      apply (chain_ext (NX m l) (PV m l)); auto;
        intros y; destruct (U2 l y Hgt); auto. }
  set (m2 := if Nat.eqb mm (lvl m1 head) then set_level m1 head (lower m1 head mm) else m1).
  assert (E2 : (forall y l, nxt m2 y l = nxt m1 y l /\ prv m2 y l = prv m1 y l) /\
               (forall y, y <> head -> lvl m2 y = lvl m1 y) /\
               (forall y, key m2 y = key m1 y) /\
               lvl m2 head = maxlvl m (A ++ B)).
  { assert (Eh1 : lvl m1 head = maxlvl m (A ++ node :: B))
      by (rewrite (proj1 (U3 head)); apply (inv_hlvl _ _ _ I)).
    assert (Hmx : maxlvl m (A ++ node :: B) = Nat.max (maxlvl m A) (Nat.max mm (maxlvl m B)))
      by (rewrite maxlvl_app; reflexivity).
    unfold m2. destruct (Nat.eqb_spec mm (lvl m1 head)) as [Em|Em];
      (split; [intros; split; reflexivity|split; [|split; [intros; reflexivity|]]]).
    - intros y Hy. simpl. rewrite (proj2 (Nat.eqb_neq y head) Hy). reflexivity.
    - simpl. rewrite Nat.eqb_refl. rewrite (lower_spec mm m1 head (A ++ B)); auto.
      + apply maxlvl_ext. intros; apply U3.
      + rewrite (maxlvl_ext m m1) by (intros; apply U3).
        rewrite maxlvl_app. lia.
    - intros; reflexivity.
    - rewrite Eh1, Hmx, maxlvl_app.
      pose proof (maxlvl_ge m (A ++ node :: B) node ltac:(apply in_or_app; right; left; auto)).
      fold mm in H. lia. }
  destruct E2 as (E2a & E2b & E2c & E2d).
  destruct (INIT_spec m2 node) as (J1 & J2 & J3 & J4 & J5).
  set (m' := INIT_SKIPLIST_NODE m2 node) in *.
  assert (Hyn : forall y, In y (A ++ B) -> y <> node) by (intros y Hy E; subst; contradiction).
  assert (Klvl : forall y, In y (A ++ B) -> lvl m' y = lvl m y /\ key m' y = key m y).
  { intros y Hy. rewrite (proj1 (J2 y (Hyn y Hy))), (proj2 (J2 y (Hyn y Hy))).
    rewrite E2b, E2c by (intro E; subst; contradiction). apply U3. }
  split; [|split; [|split; [|split; [|split]]]].
  - constructor.
    + inversion HD as [|? ? Hn D]. constructor; auto. eapply NoDup_remove_1; eauto.
    + intros l Hl. rewrite (lv_ext m1 m')
        by (intros y Hy; rewrite (proj1 (Klvl y Hy)), (proj1 (U3 y)); reflexivity).
      apply (chain_frame (NX m1 l) (PV m1 l)); [| |apply Ch1; auto].
      * intros x Hx. assert (Hxn : x <> node).
        { intro E. subst x. destruct Hx as [E|Hx]; [congruence|].
          unfold lv in Hx. apply filter_In in Hx. tauto. }
        unfold NX. rewrite (proj1 (J1 x l Hxn)), (proj1 (E2a x l)). reflexivity.
      * intros x Hx. assert (Hxn : x <> node).
        { intro E. subst x. apply in_app_or in Hx. destruct Hx as [Hx|[E|[]]]; [|congruence].
          unfold lv in Hx. apply filter_In in Hx. tauto. }
        unfold PV. rewrite (proj2 (J1 x l Hxn)), (proj2 (E2a x l)). reflexivity.
    + apply StronglySorted_Sorted.
      pose proof (key_sorted_ss _ _ (inv_sorted _ _ _ I)) as S.
      apply ssorted_remove in S.
      clear - S Klvl. induction S as [|a L S IH Hall]; constructor.
      * apply IH. intros y Hy. apply Klvl. right; auto.
      * rewrite Forall_forall in *. intros y Hy.
        rewrite (proj2 (Klvl a (or_introl eq_refl))), (proj2 (Klvl y (or_intror Hy))).
        auto.
    + intros p Hp. rewrite (proj2 (Klvl p Hp)). apply (inv_keys _ _ _ I). auto.
    + intros p Hp. rewrite (proj1 (Klvl p Hp)). apply (inv_lvls _ _ _ I). auto.
    + rewrite (proj2 (J2 head (not_eq_sym Hnh))), E2c, (proj2 (U3 head)).
      apply (inv_hkey _ _ _ I).
    + rewrite (proj1 (J2 head (not_eq_sym Hnh))), E2d.
      symmetry. apply maxlvl_ext. intros y Hy. apply Klvl; auto.
  - intros l Hl.
    pose proof (inv_chain _ _ _ I l ltac:(lia)) as C.
    pose proof (nodup_lv m l _ _ HD) as D.
    rewrite lv_app_mid in C, D. fold mm in C, D. rewrite (proj2 (Nat.leb_le l mm) Hl) in C, D.
    pose proof (mid_prev_ne m l node head _ _ C D) as Np.
    pose proof (mid_next_ne m l node head _ _ C D) as Nn.
    destruct (U1 l Hl) as (_ & V1 & V2). unfold NX, PV in V1, V2.
    rewrite (proj1 (J1 _ l Np)), (proj2 (J1 _ l Nn)), (proj1 (E2a _ l)), (proj2 (E2a _ l)).
    auto.
  - exact J3.
  - exact J4.
  - exact J5.
  - intros y Hy. rewrite (proj2 (J2 y Hy)), E2c. apply U3.
Qed.

(** *** Traversal and reachable states *)

Lemma lv0 : forall m L, lv m 0 L = L.
Proof. intros. unfold lv. apply filter_all. intros. reflexivity. Qed.

Lemma walk_chain : forall Y n m head p,
  chain (NX m 0) (PV m 0) p Y head -> ~ In head Y -> walk n m head p = firstn n Y.
Proof.
  induction Y as [|y Y IH]; intros [|n] m head p C Hh; simpl in *; auto.
  - destruct C as [C _]. unfold NX in C. rewrite C, Nat.eqb_refl. reflexivity.
  - destruct C as (C1 & _ & C3). unfold NX in C1. rewrite C1.
    destruct (Nat.eqb_spec y head) as [E|_]; [exfalso; apply Hh; left; auto|].
    f_equal. apply IH; auto.
Qed.

Lemma walk_L : forall m head L n, SLInv m head L -> walk n m head head = firstn n L.
Proof.
  intros m head L n I. apply walk_chain.
  - rewrite <- (lv0 m L). apply (inv_chain _ _ _ I). unfold NUM_SKIPLIST_LEVEL. lia.
  - pose proof (inv_nodup _ _ _ I) as D. inversion D; auto.
Qed.

Lemma member_iff : forall m head L x, SLInv m head L -> (member m head x <-> In x L).
Proof.
  intros m head L x I. unfold member. split.
  - intros [n Hn]. rewrite (walk_L m head L n I) in Hn.
    rewrite <- (firstn_skipn n L). apply in_or_app. left. exact Hn.
  - intros H. exists (length L). rewrite (walk_L m head L _ I), firstn_all. exact H.
Qed.

Lemma chain_closed : forall N P Y a z p, chain N P a Y z -> In p (a :: Y) -> In (N p) (Y ++ [z]).
Proof.
  induction Y as [|b Y IH]; intros a z p C Hp; simpl in *.
  - destruct C as [C _]. destruct Hp as [<-|[]]. left. auto.
  - destruct C as (C1 & _ & C3). destruct Hp as [<-|Hp].
    + left. auto.
    + right. apply (IH b z p C3 Hp).
Qed.

Lemma scan_loop : forall (S : list ptr) fuel m k ky p,
  (forall q, In q S -> In (nxt m q k) S /\ (key m (nxt m q k) <= ky)%Z) ->
  In p S -> scan fuel m k ky p = None.
Proof.
  intros S fuel. induction fuel as [|f IH]; intros m k ky p HS Hp; simpl; auto.
  destruct (HS p Hp) as [H1 H2]. destruct (Z.leb_spec (key m (nxt m p k)) ky); [|lia].
  apply IH; auto.
Qed.

Lemma search_none : forall fuel m ky k p upd,
  scan fuel m k ky p = None -> search fuel m ky k p upd = None.
Proof. intros fuel m ky [|k] p upd H; simpl; rewrite H; reflexivity. Qed.

(** With the key [U64_MAX] of the header, the first search loop never
    stops: every key on the circular level is [<= U64_MAX]. *)
Lemma enqueue_max : forall fuel m head L node lvn,
  SLInv m head L -> node <> head ->
  enqueue fuel m head node U64_MAX lvn = None.
Proof.
  intros fuel m head L node lvn I Hnh. unfold enqueue, skiplist_insert.
  set (m0 := set_key (set_level m node lvn) node U64_MAX).
  assert (Eh : lvl m0 head = lvl m head)
    by (simpl; rewrite (proj2 (Nat.eqb_neq head node)) by congruence; reflexivity).
  assert (Hk0 : (lvl m head < NUM_SKIPLIST_LEVEL)%nat).
  { rewrite (inv_hlvl _ _ _ I). apply maxlvl_lt; [unfold NUM_SKIPLIST_LEVEL; lia|].
    apply (inv_lvls _ _ _ I). }
  assert (Hn0k : key m0 node = U64_MAX) by (simpl; rewrite Nat.eqb_refl; reflexivity).
  rewrite Hn0k, Eh, search_none; [reflexivity|].
  apply (scan_loop (head :: lv m (lvl m head) L)); [|left; reflexivity].
  intros q Hq. pose proof (inv_chain _ _ _ I _ Hk0) as C.
  pose proof (chain_closed _ _ _ _ _ q C Hq) as Hc. unfold NX in Hc. simpl nxt.
  assert (Hin : In (nxt m q (lvl m head)) (head :: lv m (lvl m head) L)).
  { apply in_app_or in Hc. destruct Hc as [Hc|[Hc|[]]]; [right; auto|left; auto]. }
  split; [exact Hin|].
  simpl. destruct (Nat.eqb_spec (nxt m q (lvl m head)) node); [unfold U64_MAX; lia|].
  destruct Hin as [Hin|Hin].
  - rewrite <- Hin, (inv_hkey _ _ _ I). lia.
  - unfold lv in Hin. apply filter_In in Hin.
    pose proof (inv_keys _ _ _ I _ (proj1 Hin)). lia.
Qed.

Lemma enqueue_mono : forall fuel n m head node ky lvn m',
  enqueue fuel m head node ky lvn = Some m' -> enqueue (fuel + n) m head node ky lvn = Some m'.
Proof.
  intros fuel n m head node ky lvn m' H. unfold enqueue, skiplist_insert in *.
  destruct (search fuel _ _ _ head _) as [u|] eqn:E; [|discriminate].
  rewrite (search_mono _ _ n _ _ _ _ _ E). exact H.
Qed.

Lemma SLInv_init : forall m head, SLInv (INIT_SKIPLIST_NODE m head) head [].
Proof.
  intros m head. destruct (INIT_spec m head) as (_ & _ & J3 & J4 & J5).
  constructor.
  - constructor; [intros []|constructor].
  - intros k Hk. exact (J3 k Hk).
  - constructor.
  - intros p [].
  - intros p [].
  - exact J5.
  - exact J4.
Qed.

Lemma reachable_inv : forall head m, reachable head m -> exists L, SLInv m head L.
Proof.
  intros head m R. induction R as [m|m m' fuel node ky lvn R IH Hnh Hmem Hlv Hky Hen|m node R IH Hmem].
  - exists []. apply SLInv_init.
  - destruct IH as [L I]. rewrite (member_iff m head L node I) in Hmem.
    destruct (Z.eq_dec ky U64_MAX) as [E|Hne].
    + subst ky. rewrite (enqueue_max fuel m head L node lvn I Hnh) in Hen. discriminate.
    + destruct (insert_inv (fuel + S (length L)) m head L node ky lvn I Hnh Hmem Hlv
                  ltac:(unfold U64_MAX in *; lia) ltac:(lia)) as (m'' & H1 & H2 & _).
      apply (enqueue_mono _ (S (length L))) in Hen. rewrite Hen in H1.
      injection H1 as <-. eexists; exact H2.
  - destruct IH as [L I]. rewrite (member_iff m head L node I) in Hmem.
    destruct (in_split _ _ Hmem) as (A & B & E). subst L.
    exists (A ++ B). apply (delete_inv m head A node B I).
Qed.

Lemma reachable_empty : forall head m,
  reachable head m -> skiplist_empty m head = true -> SLInv m head [].
Proof.
  intros head m R He. destruct (reachable_inv head m R) as [L I].
  destruct L as [|x L]; [exact I|].
  exfalso. pose proof (inv_chain _ _ _ I 0 ltac:(unfold NUM_SKIPLIST_LEVEL; lia)) as C.
  rewrite lv0 in C. destruct C as [C _]. unfold skiplist_empty, NX in *.
  rewrite C in He. apply Nat.eqb_eq in He. subst x.
  pose proof (inv_nodup _ _ _ I) as D. inversion D as [|? ? Hn _]. apply Hn. left. auto.
Qed.

(** *** Sequences of insertions and deletions *)

Lemma drop_le_keys : forall m ky L y,
  StronglySorted (fun a b => key m a <= key m b)%Z L ->
  In y (drop_le m ky L) -> (ky < key m y)%Z.
Proof.
  intros m ky L y H Hy. rewrite drop_le_filter in Hy by exact H.
  apply filter_In in Hy. destruct Hy as [_ Hy].
  destruct (Z.leb_spec (key m y) ky); [discriminate|lia].
Qed.

Lemma ins_filter : forall m m1 ky node L v,
  Sorted (fun a b => key m a <= key m b)%Z L ->
  (forall x, In x L -> key m1 x = key m x) -> key m1 node = ky ->
  filter (fun x => Z.eqb (key m1 x) v) (take_le m ky L ++ node :: drop_le m ky L) =
  filter (fun x => Z.eqb (key m x) v) L ++ (if Z.eqb ky v then [node] else []).
Proof.
  intros m m1 ky node L v HS HL Hn.
  assert (HTD : forall x, In x (take_le m ky L) \/ In x (drop_le m ky L) -> In x L).
  { intros x Hx. rewrite <- (take_drop m ky L). apply in_or_app. exact Hx. }
  rewrite filter_app. simpl. rewrite Hn.
  rewrite (filter_ext_in (fun x => Z.eqb (key m1 x) v) (fun x => Z.eqb (key m x) v)
             (take_le m ky L)) by (intros x Hx; rewrite HL by (apply HTD; auto); reflexivity).
  rewrite (filter_ext_in (fun x => Z.eqb (key m1 x) v) (fun x => Z.eqb (key m x) v)
             (drop_le m ky L)) by (intros x Hx; rewrite HL by (apply HTD; auto); reflexivity).
  replace (filter (fun x => Z.eqb (key m x) v) L)
    with (filter (fun x => Z.eqb (key m x) v) (take_le m ky L ++ drop_le m ky L))
    by (rewrite take_drop; reflexivity).
  rewrite filter_app.
  destruct (Z.eqb_spec ky v) as [<-|Hne].
  - rewrite (filter_none _ (drop_le m ky L)); [rewrite app_nil_r; reflexivity|].
    intros x Hx. apply key_sorted_ss in HS. pose proof (drop_le_keys m ky L x HS Hx).
    destruct (Z.eqb_spec (key m x) ky); [lia|reflexivity].
  - rewrite app_nil_r. reflexivity.
Qed.

Lemma enqueue_all_spec : forall s fuel m head L,
  SLInv m head L -> NoDup (map tnode s) ->
  (forall t, In t s -> tnode t <> head /\ ~ In (tnode t) L /\
                       (tlvl t < NUM_SKIPLIST_LEVEL)%nat /\ (0 <= tkey t < U64_MAX)%Z) ->
  (length L + length s < fuel)%nat ->
  exists m' L', enqueue_all fuel m head s = Some m' /\ SLInv m' head L' /\
    Permutation L' (L ++ map tnode s) /\
    (forall x, ~ In x (map tnode s) -> key m' x = key m x) /\
    (forall t, In t s -> key m' (tnode t) = tkey t) /\
    (forall v, filter (fun x => Z.eqb (key m' x) v) L' =
               filter (fun x => Z.eqb (key m x) v) L ++
               map tnode (filter (fun t => Z.eqb (tkey t) v) s)).
Proof.
  induction s as [|[[node ky] lvn] s IH]; intros fuel m head L I Hd Hs Hf.
  - exists m, L. simpl. rewrite !app_nil_r.
    split; [reflexivity|]. split; [exact I|]. split; [reflexivity|].
    split; [auto|]. split; [intros t []|]. intros v. rewrite app_nil_r. reflexivity.
  - destruct (Hs (node, ky, lvn) (or_introl eq_refl)) as (Hnh & HnL & Hlv & Hky).
    unfold tnode, tkey, tlvl in Hnh, HnL, Hlv, Hky; simpl in Hnh, HnL, Hlv, Hky.
    simpl in Hd. inversion Hd as [|? ? Hns Hd']; subst.
    simpl in Hf.
    destruct (insert_inv fuel m head L node ky lvn I Hnh HnL Hlv Hky ltac:(lia))
      as (m1 & He & I1 & Hk1 & Hf1).
    simpl enqueue_all. rewrite He.
    set (L1 := take_le m ky L ++ node :: drop_le m ky L) in *.
    assert (HL1 : Permutation L1 (node :: L)).
    { unfold L1. apply Permutation_trans with (node :: take_le m ky L ++ drop_le m ky L).
      - symmetry. apply Permutation_middle.
      - rewrite take_drop. reflexivity. }
    change (tnode (node, ky, lvn)) with node in Hns.
    destruct (IH fuel m1 head L1 I1 Hd') as (m' & L' & E' & I' & P' & F' & K' & V').
    { intros t Ht. destruct (Hs t (or_intror Ht)) as (H1 & H2 & H3 & H4).
      split; [exact H1|split; [|auto]]. intro Hin.
      apply (Permutation_in _ HL1) in Hin. destruct Hin as [E|Hin]; [|contradiction].
      apply Hns. rewrite E. apply in_map. exact Ht. }
    { rewrite (Permutation_length HL1). simpl. lia. }
    exists m', L'. split; [exact E'|]. split; [exact I'|]. split; [|split; [|split]].
    + eapply Permutation_trans; [exact P'|]. simpl.
      eapply Permutation_trans; [apply Permutation_app_tail; exact HL1|].
      simpl. apply Permutation_middle.
    + intros x Hx. simpl in Hx. rewrite F' by tauto. apply Hf1. intro E; apply Hx; left; auto.
    + intros t [<-|Ht].
      * unfold tnode, tkey; simpl. rewrite F' by exact Hns. exact Hk1.
      * apply K'; auto.
    + intros v. rewrite V'. unfold L1.
      rewrite (ins_filter m m1 ky node L v (inv_sorted _ _ _ I)); auto.
      * simpl filter. change (tkey (node, ky, lvn)) with ky.
        destruct (Z.eqb ky v); rewrite <- app_assoc; reflexivity.
      * intros x Hx. apply Hf1. intro E; subst; contradiction.
Qed.

Lemma del_all_spec : forall ds m head L,
  SLInv m head L -> Permutation ds L -> SLInv (del_all m head ds) head [].
Proof.
  induction ds as [|d ds IH]; intros m head L I P; simpl.
  - apply Permutation_nil in P. subst. exact I.
  - assert (Hd : In d L) by (apply (Permutation_in _ P); left; auto).
    destruct (in_split _ _ Hd) as (A & B & E). subst L.
    destruct (delete_inv m head A d B I) as (I1 & _).
    apply (IH _ head (A ++ B) I1). apply Permutation_cons_app_inv with d. exact P.
Qed.

End SkipListProofs.

(** ** Claims on the skip list *)

Module SkipListClaims.
Import SkipList SkipListProofs.

(** Claim C2: starting from an empty list (reachable state), inserting
    a sequence of distinct nodes with keys below [U64_MAX] terminates,
    and the level-0 traversal from the header visits exactly the
    inserted nodes, in non-decreasing key order; for every key value,
    the nodes of that key appear in the order of their insertion. *)
Theorem skiplist_level0_order : forall head m0 s fuel,
  reachable head m0 -> skiplist_empty m0 head = true ->
  NoDup (map tnode s) ->
  (forall t, In t s -> tnode t <> head /\ (tlvl t < NUM_SKIPLIST_LEVEL)%nat /\
                       (0 <= tkey t < U64_MAX)%Z) ->
  (length s < fuel)%nat ->
  exists m, enqueue_all fuel m0 head s = Some m /\
    (forall t, In t s -> key m (tnode t) = tkey t) /\
    Sorted (fun a b => key m a <= key m b)%Z (walk fuel m head head) /\
    Permutation (walk fuel m head head) (map tnode s) /\
    (forall v, filter (fun x => Z.eqb (key m x) v) (walk fuel m head head) =
               map tnode (filter (fun t => Z.eqb (tkey t) v) s)).
Proof.
  intros head m0 s fuel R He Hd Hs Hf.
  pose proof (reachable_empty head m0 R He) as I0.
  destruct (enqueue_all_spec s fuel m0 head [] I0 Hd) as (m & L & E & I & P & _ & K & V).
  { intros t Ht. destruct (Hs t Ht) as (H1 & H2 & H3). auto. }
  { simpl. exact Hf. }
  exists m. rewrite (walk_L m head L fuel I).
  rewrite firstn_all2 by (rewrite (Permutation_length P); simpl; rewrite length_map; lia).
  split; [exact E|]. split; [exact K|]. split; [apply (inv_sorted _ _ _ I)|].
  split; [exact P|]. intros v. rewrite V. reflexivity.
Qed.

Lemma init_reachable : reachable hd0 (INIT_SKIPLIST_NODE mem0 hd0).
Proof. apply r_init. Qed.

Lemma scenA_hyps : forall t, In t scenA ->
  tnode t <> hd0 /\ (tlvl t < NUM_SKIPLIST_LEVEL)%nat /\ (0 <= tkey t < U64_MAX)%Z.
Proof.
  intros t Ht. unfold scenA in Ht.
  repeat (destruct Ht as [<-|Ht];
    [unfold tnode, tkey, tlvl, U64_MAX, NUM_SKIPLIST_LEVEL, hd0; simpl; lia|]).
  destruct Ht.
Qed.

(** Scenario A: the order at level 0 is 10 (node 2), 10 (node 4), 30, 50. *)
Lemma skiplist_level0_order_witness :
  option_map (fun m => walk 10 m hd0 hd0)
    (enqueue_all 10 (INIT_SKIPLIST_NODE mem0 hd0) hd0 scenA) = Some [2; 4; 3; 1]%nat /\
  exists m, enqueue_all 10 (INIT_SKIPLIST_NODE mem0 hd0) hd0 scenA = Some m /\
    (forall t, In t scenA -> key m (tnode t) = tkey t) /\
    Sorted (fun a b => key m a <= key m b)%Z (walk 10 m hd0 hd0) /\
    Permutation (walk 10 m hd0 hd0) (map tnode scenA) /\
    (forall v, filter (fun x => Z.eqb (key m x) v) (walk 10 m hd0 hd0) =
               map tnode (filter (fun t => Z.eqb (tkey t) v) scenA)).
Proof.
  split; [vm_compute; reflexivity|].
  apply (skiplist_level0_order hd0 (INIT_SKIPLIST_NODE mem0 hd0) scenA 10 init_reachable).
  - vm_compute. reflexivity.
  - simpl. repeat constructor; simpl; intuition discriminate.
  - exact scenA_hyps.
  - simpl. lia.
Defined.

(** Claim C6: from an empty list (reachable state), inserting distinct
    nodes with keys below [U64_MAX] and then deleting all of them, in
    any order, gives back header level 0 and an empty list. *)
Theorem skiplist_roundtrip : forall head m0 s fuel ds,
  reachable head m0 -> skiplist_empty m0 head = true ->
  NoDup (map tnode s) ->
  (forall t, In t s -> tnode t <> head /\ (tlvl t < NUM_SKIPLIST_LEVEL)%nat /\
                       (0 <= tkey t < U64_MAX)%Z) ->
  (length s < fuel)%nat -> Permutation ds (map tnode s) ->
  exists m, enqueue_all fuel m0 head s = Some m /\
    lvl (del_all m head ds) head = 0%nat /\
    skiplist_empty (del_all m head ds) head = true.
Proof.
  intros head m0 s fuel ds R He Hd Hs Hf Hp.
  pose proof (reachable_empty head m0 R He) as I0.
  destruct (enqueue_all_spec s fuel m0 head [] I0 Hd) as (m & L & E & I & P & _).
  { intros t Ht. destruct (Hs t Ht) as (H1 & H2 & H3). auto. }
  { simpl. exact Hf. }
  exists m. split; [exact E|].
  assert (Pd : Permutation ds L) by (eapply Permutation_trans; [exact Hp|symmetry; exact P]).
  pose proof (del_all_spec ds m head L I Pd) as I'.
  split.
  - rewrite (inv_hlvl _ _ _ I'). reflexivity.
  - pose proof (inv_chain _ _ _ I' 0 ltac:(unfold NUM_SKIPLIST_LEVEL; lia)) as C.
    destruct C as [C _]. unfold skiplist_empty. unfold NX in C. rewrite C.
    apply Nat.eqb_refl.
Qed.

(** Scenario A inserted, then deleted in the order 3, 1, 4, 2. *)
Lemma skiplist_roundtrip_witness :
  exists m, enqueue_all 10 (INIT_SKIPLIST_NODE mem0 hd0) hd0 scenA = Some m /\
    lvl (del_all m hd0 [3; 1; 4; 2]%nat) hd0 = 0%nat /\
    skiplist_empty (del_all m hd0 [3; 1; 4; 2]%nat) hd0 = true.
Proof.
  apply (skiplist_roundtrip hd0 (INIT_SKIPLIST_NODE mem0 hd0) scenA 10 [3; 1; 4; 2]%nat
           init_reachable).
  - vm_compute. reflexivity.
  - simpl. repeat constructor; simpl; intuition discriminate.
  - exact scenA_hyps.
  - simpl. lia.
  - change (Permutation [3; 1; 4; 2]%nat [1; 2; 3; 4]%nat).
    eapply perm_trans; [apply perm_swap|]. apply perm_skip.
    eapply perm_trans; [apply perm_skip; apply perm_swap|]. apply perm_swap.
Defined.



Lemma mem1_reachable : reachable hd0 mem1.
Proof.
  apply (r_ins hd0 (INIT_SKIPLIST_NODE mem0 hd0) mem1 10 1 5 0 init_reachable).
  - unfold hd0. lia.
  - intros [n Hn]. destruct n as [|n]; vm_compute in Hn; exact Hn.
  - unfold NUM_SKIPLIST_LEVEL. lia.
  - lia.
  - vm_compute. reflexivity.
Qed.



(** Claim C10: in a reachable state, inserting a node outside the list
    with a u64 key terminates (for some fuel of the search loops) when
    the key is below [0xFFFFFFFFFFFFFFFF], and never returns, whatever
    the fuel, when the key is [0xFFFFFFFFFFFFFFFF]. *)
Theorem skiplist_insert_terminates : forall head m node ky lvn,
  reachable head m -> node <> head -> ~ member m head node ->
  (lvn < NUM_SKIPLIST_LEVEL)%nat -> (0 <= ky < 2 ^ 64)%Z ->
  ((ky < U64_MAX)%Z ->
     exists fuel m', enqueue fuel m head node ky lvn = Some m' /\ reachable head m') /\
  (ky = U64_MAX -> forall fuel, enqueue fuel m head node ky lvn = None).
Proof.
  intros head m node ky lvn R Hnh Hmem Hlv Hky.
  destruct (reachable_inv head m R) as [L I].
  split.
  - intros Hlt. rewrite (member_iff m head L node I) in Hmem.
    destruct (insert_inv (S (length L)) m head L node ky lvn I Hnh Hmem Hlv
                ltac:(lia) ltac:(lia)) as (m' & E & _).
    exists (S (length L)), m'. split; [exact E|].
    apply (r_ins head m m' (S (length L)) node ky lvn); auto.
    rewrite (member_iff m head L node I). exact Hmem.
  - intros -> fuel. apply (enqueue_max fuel m head L node lvn I Hnh).
Qed.


(** Inserting node 2 with key 7 at level 0 into [mem1]. *)
Lemma skiplist_insert_terminates_witness :
  ((7 < U64_MAX)%Z ->
     exists fuel m', enqueue fuel mem1 hd0 2 7 0 = Some m' /\ reachable hd0 m') /\
  (7%Z = U64_MAX -> forall fuel, enqueue fuel mem1 hd0 2 7 0 = None).
Proof.
  apply (skiplist_insert_terminates hd0 mem1 2 7 0 mem1_reachable).
  - unfold hd0. lia.
  - intros [n Hn]. destruct n as [|[|n]]; vm_compute in Hn; intuition discriminate.
  - unfold NUM_SKIPLIST_LEVEL. lia.
  - lia.
Defined.

End SkipListClaims.

(* ================================================================= *)
(** ** Sparse radix tree: entering and looking up *)

Module SRadixProofs.
Import ListNotations SRadix SRadixRun SRadixInv.
Local Open Scope Z_scope.


Lemma wp_bind {A B} (m : M A) (k : A -> M B) Q E st :
  wp m (fun a st' => wp (k a) Q E st') E st -> wp (bind m k) Q E st.
Proof. unfold wp, bind. destruct (m st); auto. Qed.

Lemma wp_mono {A} (m : M A) (Q Q' : A -> state -> Prop) (E E' : Z -> state -> Prop) st :
  wp m Q E st -> (forall a s, Q a s -> Q' a s) -> (forall c s, E c s -> E' c s) ->
  wp m Q' E' st.
Proof. unfold wp. destruct (m st); auto. Qed.

Lemma wp_seq {A B} (m : M A) (k : A -> M B) P Q E st :
  wp m P E st -> (forall a s, P a s -> wp (k a) Q E s) -> wp (bind m k) Q E st.
Proof. intros H1 H2. apply wp_bind. eapply wp_mono; eauto. Qed.

Lemma wp_ret {A} (a : A) Q E st : Q a st -> wp (ret a) Q E st.
Proof. auto. Qed.
Lemma wp_throw {A} c Q E st : E c st -> wp (@throw A c) Q E st.
Proof. auto. Qed.
Lemma wp_get_rt Q E st : Q (rt st) st -> wp get_rt Q E st.
Proof. auto. Qed.
Lemma wp_put_rt r Q E st : Q tt (set_rt st r) -> wp (put_rt r) Q E st.
Proof. auto. Qed.
Lemma wp_rd {A} (f : heap -> ptr -> A) p Q E st :
  p <> NULL -> Q (f (hp st) p) st -> wp (rd f p) Q E st.
Proof. intros Hp H. unfold wp, rd. destruct (Z.eqb_spec p NULL); [contradiction|auto]. Qed.
Lemma wp_wr g p Q E st :
  p <> NULL -> Q tt (set_hp st (g (hp st))) -> wp (wr g p) Q E st.
Proof. intros Hp H. unfold wp, wr. destruct (Z.eqb_spec p NULL); [contradiction|auto]. Qed.
Lemma wp_call m Q E st : wp m Q Q st -> wp (call m) Q E st.
Proof. unfold wp, call. destruct (m st); auto. Qed.
Lemma wp_node_full p Q E st :
  p <> NULL -> Q (sradix_node_full (rt st) (hp st) p) st -> wp (node_full p) Q E st.
Proof. intros Hp H. unfold wp, node_full, bind, get_rt. destruct (Z.eqb_spec p NULL); [contradiction|auto]. Qed.
Lemma wp_assign n i x Q E st :
  Q tt (State (rt st) (hp st) (next_fresh st) (free_pool st) (budget st) (freed st)
          ((n, i, x) :: assigned st)) -> wp (assign n i x) Q E st.
Proof. auto. Qed.
Lemma wp_alloc Q E st :
  free_pool st = [] ->
  (budget st = O -> Q NULL st) ->
  (forall b, budget st = S b ->
     Q (next_fresh st) (State (rt st) (h_zero (hp st) (next_fresh st))
                          (next_fresh st + 1) [] b (freed st) (assigned st))) ->
  wp alloc Q E st.
Proof.
  intros Hpool H0 HS. unfold wp, alloc. rewrite Hpool.
  destruct (budget st) eqn:B; auto.
Qed.
Lemma wp_if {A} (b : bool) (m1 m2 : M A) Q E st :
  (b = true -> wp m1 Q E st) -> (b = false -> wp m2 Q E st) ->
  wp (if b then m1 else m2) Q E st.
Proof. destruct b; auto. Qed.

Ltac wp_step :=
  match goal with
  | |- wp (bind _ _) _ _ _ => apply wp_bind
  | |- wp (ret _) _ _ _ => apply wp_ret
  | |- wp (throw _) _ _ _ => apply wp_throw
  | |- wp get_rt _ _ _ => apply wp_get_rt
  | |- wp (put_rt _) _ _ _ => apply wp_put_rt
  | |- wp (set_min _) _ _ _ => unfold set_min
  | |- wp (rd_height _) _ _ _ => apply wp_rd
  | |- wp (rd_count _) _ _ _ => apply wp_rd
  | |- wp (rd_fulls _) _ _ _ => apply wp_rd
  | |- wp (rd_parent _) _ _ _ => apply wp_rd
  | |- wp (rd_store _ _) _ _ _ => apply wp_rd
  | |- wp (set_height _ _) _ _ _ => apply wp_wr
  | |- wp (set_count _ _) _ _ _ => apply wp_wr
  | |- wp (set_fulls _ _) _ _ _ => apply wp_wr
  | |- wp (set_parent _ _) _ _ _ => apply wp_wr
  | |- wp (set_store _ _ _) _ _ _ => apply wp_wr
  | |- wp (node_full _) _ _ _ => apply wp_node_full
  | |- wp (assign _ _ _) _ _ _ => apply wp_assign
  end; cbv beta.



Section Arith.
Variable sh : Z.
Hypothesis Hsh : 1 <= sh <= 31.

Lemma S_ge2 : 2 <= 2 ^ sh.
Proof.
  replace 2 with (2 ^ 1) at 1 by reflexivity.
  apply Z.pow_le_mono_r; lia.
Qed.

Lemma S_le : 2 ^ sh <= 2 ^ 31.
Proof. apply Z.pow_le_mono_r; lia. Qed.

Lemma W_0 : W sh 0 = 1.
Proof. unfold W. now rewrite Z.mul_0_r. Qed.

Lemma W_pos h : 0 <= h -> 0 < W sh h.
Proof. intros. unfold W. apply Z.pow_pos_nonneg; nia. Qed.

Lemma W_succ h : 0 <= h -> W sh (h + 1) = W sh h * 2 ^ sh.
Proof.
  intros. unfold W. rewrite Z.mul_add_distr_l, Z.mul_1_r, Z.pow_add_r; nia.
Qed.

Lemma W_pred h : 1 <= h -> W sh h = W sh (h - 1) * 2 ^ sh.
Proof. intros. rewrite <- W_succ by lia. f_equal. lia. Qed.

Lemma W_add h d : 0 <= h -> 0 <= d -> W sh (h + d) = W sh h * W sh d.
Proof.
  intros. unfold W. rewrite Z.mul_add_distr_l, Z.pow_add_r; nia.
Qed.

Lemma W_1 : W sh 1 = 2 ^ sh.
Proof. unfold W. now rewrite Z.mul_1_r. Qed.

Lemma W_mono h h' : 0 <= h <= h' -> W sh h <= W sh h'.
Proof. intros. unfold W. apply Z.pow_le_mono_r; nia. Qed.

Lemma W_lt h h' : 0 <= h < h' -> 2 ^ sh * W sh h <= W sh h'.
Proof.
  intros. rewrite Z.mul_comm, <- W_succ by lia. apply W_mono; lia.
Qed.

Lemma W_pow h : 0 <= h -> W sh h = 2 ^ (sh * h).
Proof. reflexivity. Qed.

Lemma W_le_inv h h' : 0 <= h -> 0 <= h' -> W sh h <= W sh h' -> h <= h'.
Proof.
  intros H1 H2 H3. unfold W in H3.
  destruct (Z.le_gt_cases h h') as [|Hlt]; [auto|].
  assert (2 ^ (sh * h') < 2 ^ (sh * h)) by (apply Z.pow_lt_mono_r; nia). lia.
Qed.

Lemma shiftr_W i h : 0 <= h -> Z.shiftr i (sh * h) = i / W sh h.
Proof. intros. rewrite Z.shiftr_div_pow2 by nia. reflexivity. Qed.

Lemma land_mask x : Z.land x (2 ^ sh - 1) = x mod 2 ^ sh.
Proof.
  rewrite <- Z.land_ones by lia. now rewrite Z.ones_equiv, Z.sub_1_r.
Qed.

Lemma div_W_succ i h : 0 <= h -> i / W sh (h + 1) = i / W sh h / 2 ^ sh.
Proof.
  intros. rewrite W_succ by lia. pose proof (W_pos h H). pose proof S_ge2.
  rewrite Z.div_div; lia.
Qed.

(** The index [i] in the node [(h, k)]: its slot there. *)
Lemma digit h k i : 1 <= h -> k * W sh h <= i < (k + 1) * W sh h ->
  i / W sh (h - 1) = k * 2 ^ sh + (i - k * W sh h) / W sh (h - 1)
  /\ 0 <= (i - k * W sh h) / W sh (h - 1) < 2 ^ sh.
Proof.
  intros Hh Hi.
  assert (HW : W sh h = W sh (h - 1) * 2 ^ sh)
    by (replace h with (h - 1 + 1) at 1 by lia; apply W_succ; lia).
  pose proof (W_pos (h - 1) ltac:(lia)) as Hp.
  split.
  - replace i with ((k * 2 ^ sh) * W sh (h - 1) + (i - k * W sh h)) at 1 by nia.
    rewrite Z.div_add_l by lia. reflexivity.
  - split. apply Z.div_pos; lia.
    apply Z.div_lt_upper_bound; nia.
Qed.

Lemma div_range i k h : 0 <= h -> k * W sh h <= i < (k + 1) * W sh h -> i / W sh h = k.
Proof.
  intros Hh Hi. pose proof (W_pos h Hh).
  symmetry. apply Z.div_unique with (i - k * W sh h); [left; lia | lia].
Qed.

Lemma div_range_inv i h : 0 <= h ->
  (i / W sh h) * W sh h <= i < (i / W sh h + 1) * W sh h.
Proof.
  intros Hh. pose proof (W_pos h Hh).
  pose proof (Z.mul_div_le i (W sh h) ltac:(lia)).
  pose proof (Z.mod_pos_bound i (W sh h) ltac:(lia)).
  pose proof (Z.div_mod i (W sh h) ltac:(lia)). nia.
Qed.

End Arith.

Lemma u32_id x : 0 <= x < 2 ^ 32 -> u32 x = x.
Proof. intros. unfold u32. apply Z.mod_small; lia. Qed.
Lemma u64_id x : 0 <= x < 2 ^ 64 -> u64 x = x.
Proof. intros. unfold u64. apply Z.mod_small; lia. Qed.
Lemma s32_id x : 0 <= x < 2 ^ 31 -> s32 x = x.
Proof.
  intros. unfold s32. rewrite Z.mod_small by lia.
  destruct (Z.ltb_spec x (2 ^ 31)); lia.
Qed.
Lemma int_shl1_pow n : 0 <= n <= 30 -> int_shl1 n = 2 ^ n.
Proof.
  intros. unfold int_shl1. rewrite Z.shiftl_1_l. apply s32_id.
  split. apply Z.pow_nonneg; lia.
  apply Z.pow_lt_mono_r; lia.
Qed.


Lemma In_down n x : In x (down n) <-> 0 <= x < Z.of_nat n.
Proof.
  induction n as [|n IH]; simpl; [lia|].
  rewrite IH. lia.
Qed.

Lemma down_S_Z (N : Z) : 0 <= N -> down (Z.to_nat (N + 1)) = N :: down (Z.to_nat N).
Proof.
  intros. rewrite Z2Nat.inj_add by lia. simpl.
  rewrite Nat.add_comm. simpl. now rewrite Z2Nat.id.
Qed.

Lemma NoDup_down n : NoDup (down n).
Proof.
  induction n as [|n IH]; simpl; constructor; auto.
  rewrite In_down. lia.
Qed.

Lemma item_at_cons n i x log j :
  item_at ((n, i, x) :: log) j = if i =? j then x else item_at log j.
Proof. unfold item_at. simpl. destruct (i =? j); reflexivity. Qed.

Lemma item_at_notin log j : ~ In j (idxs log) -> item_at log j = NULL.
Proof.
  unfold item_at, idxs. induction log as [|[[n i] x] log IH]; simpl; auto.
  intros Hn. destruct (Z.eqb_spec i j); [tauto|]. apply IH. tauto.
Qed.

Lemma item_at_In log n i x :
  NoDup (idxs log) -> In (n, i, x) log -> item_at log i = x.
Proof.
  unfold item_at, idxs. induction log as [|[[n' i'] x'] log IH]; simpl; [tauto|].
  intros Hnd Hin. inversion Hnd as [|a l Hnot Hnd' E]; subst.
  destruct (Z.eqb_spec i' i) as [->|Hne].
  - destruct Hin as [E|Hin]; [congruence|].
    exfalso. apply Hnot. apply (in_map (fun e => snd (fst e))) in Hin. exact Hin.
  - destruct Hin as [E|Hin]; [congruence|]. eauto.
Qed.

Ltac zcase :=
  repeat match goal with
  | |- context [?a <=? ?b] => destruct (Z.leb_spec a b)
  | |- context [?a <? ?b] => destruct (Z.ltb_spec a b)
  | |- context [?a =? ?b] => destruct (Z.eqb_spec a b)
  end; simpl; try lia.

(** *** The leaf loop of [sradix_tree_enter] *)

Lemma fill_spec (fuel : nat) p d N num (items : list ptr) E : forall i st,
  let m := Z.min (r_stores_size (rt st) - d) num in
  p <> NULL -> 0 <= d < r_stores_size (rt st) -> r_stores_size (rt st) <= 2 ^ 31 ->
  0 <= N <= 2 ^ 30 -> num <= Z.of_nat (length items) ->
  count (hp st) p = d -> 0 <= i <= m -> m - i < Z.of_nat fuel ->
  (forall o, d + i <= o < r_stores_size (rt st) -> stores (hp st) p o = NULL) ->
  idxs (assigned st) = down (Z.to_nat (N + i)) ->
  wp (enter_fill fuel p d N i i num items)
     (fun r st' => r = (m, m) /\ fill_post p d N i m items st st') E st.
Proof.
  induction fuel as [|fuel IH]; intros i st m Hp Hd HS HN Hnum Hc Hi Hf Hnull Hlog;
    [lia|].
  simpl enter_fill. repeat wp_step; auto.
  rewrite Hc.
  assert (E1 : u32 i = i) by (apply u32_id; lia).
  assert (E2 : u32 (r_stores_size (rt st) - d) = r_stores_size (rt st) - d)
    by (apply u32_id; lia).
  rewrite E1, E2, Bool.andb_diag.
  destruct (Z.ltb_spec i (r_stores_size (rt st) - d)) as [Hlt|Hge];
  destruct (Z.ltb_spec i num) as [Hlt'|Hge']; simpl.
  - (* one more item *)
    repeat wp_step; auto. rewrite Hnull by lia. simpl.
    destruct (nth_error items (Z.to_nat i)) as [x|] eqn:Ex;
      [|apply nth_error_None in Ex; lia].
    repeat wp_step; auto.
    set (st1 := State _ _ _ _ _ _ _).
    assert (Hm : i + 1 <= m) by lia.
    eapply wp_mono.
    + apply (IH (i + 1) st1); simpl; auto; try lia.
      * intros o Ho. unfold upd. rewrite ?Z.eqb_refl.
        destruct (Z.eqb_spec o (d + i)); [lia|]. apply Hnull; lia.
      * unfold idxs. simpl. rewrite u32_id by lia.
        fold (idxs (assigned st)). rewrite Hlog.
        rewrite Z.add_assoc, down_S_Z by lia. reflexivity.
    + intros r s' [Hr Hpost]. split; [exact Hr|].
      destruct Hpost as (P1 & P2 & P3 & P4 & P5 & P6 & P7 & P8 & P9 & P10 & P11 & P12).
      simpl in *. repeat split; auto.
      * intros q o. rewrite P10. unfold upd. zcase; try reflexivity;
          try (subst q; reflexivity).
        subst o. replace (d + i - d) with i by lia.
        apply nth_error_nth with (d := NULL) in Ex. congruence.
      * intros y. rewrite P12, item_at_cons. rewrite u32_id by lia.
        zcase; try reflexivity. subst y. replace (N + i - N) with i by lia.
        apply nth_error_nth with (d := NULL) in Ex. congruence.
    + auto.
  - assert (i = m) by lia. subst i.
    apply wp_ret. split; [reflexivity|]. unfold fill_post.
    repeat split; auto.
    + intros q o. destruct (q =? p); simpl; [|reflexivity].
      destruct (Z.leb_spec (d + m) o); destruct (Z.ltb_spec o (d + m)); simpl; try lia; reflexivity.
    + intros y. destruct (Z.leb_spec (N + m) y); destruct (Z.ltb_spec y (N + m)); simpl; try lia; reflexivity.
  - assert (i = m) by lia. subst i.
    apply wp_ret. split; [reflexivity|]. unfold fill_post.
    repeat split; auto.
    + intros q o. destruct (q =? p); simpl; [|reflexivity].
      destruct (Z.leb_spec (d + m) o); destruct (Z.ltb_spec o (d + m)); simpl; try lia; reflexivity.
    + intros y. destruct (Z.leb_spec (N + m) y); destruct (Z.ltb_spec y (N + m)); simpl; try lia; reflexivity.
  - assert (i = m) by lia. subst i.
    apply wp_ret. split; [reflexivity|]. unfold fill_post.
    repeat split; auto.
    + intros q o. destruct (q =? p); simpl; [|reflexivity].
      destruct (Z.leb_spec (d + m) o); destruct (Z.ltb_spec o (d + m)); simpl; try lia; reflexivity.
    + intros y. destruct (Z.leb_spec (N + m) y); destruct (Z.ltb_spec y (N + m)); simpl; try lia; reflexivity.
Qed.


Section InvLemmas.
Variable sh : Z.
Hypothesis Hsh : 1 <= sh <= 31.

Lemma fullsF_nonneg N lo h : lo <= N -> 1 <= h -> 0 <= fullsF sh N lo h.
Proof.
  intros. unfold fullsF. pose proof (S_ge2 sh Hsh). pose proof (W_pos sh Hsh (h - 1) ltac:(lia)).
  apply Z.min_glb; [lia|]. apply Z.div_pos; lia.
Qed.

Lemma fullsF_le N lo h : fullsF sh N lo h <= 2 ^ sh.
Proof. unfold fullsF. lia. Qed.

(** The [node_at] facts carry over when the node's fields, its parent's
    and children's names, the indices its leaf slots show and its [lag]
    are unchanged. *)
Lemma node_at_frame st st' N H na na' lag lag' h k :
  node_at sh st N H na lag h k -> 1 <= h <= H -> k * W sh h <= N ->
  na' h k = na h k ->
  (h < H -> na' (h + 1) (k / 2 ^ sh) = na (h + 1) (k / 2 ^ sh)) ->
  (2 <= h -> forall o, 0 <= o < 2 ^ sh -> na' (h - 1) (k * 2 ^ sh + o) = na (h - 1) (k * 2 ^ sh + o)) ->
  lag' h k = lag h k ->
  height (hp st') (na h k) = height (hp st) (na h k) ->
  count (hp st') (na h k) = count (hp st) (na h k) ->
  fulls (hp st') (na h k) = fulls (hp st) (na h k) ->
  parent (hp st') (na h k) = parent (hp st) (na h k) ->
  (forall o, 0 <= o < 2 ^ sh -> stores (hp st') (na h k) o = stores (hp st) (na h k) o) ->
  (h = 1 -> forall o, 0 <= o < 2 ^ sh -> k * W sh h + o < N ->
     item_at (assigned st') (k * W sh h + o) = item_at (assigned st) (k * W sh h + o)) ->
  node_at sh st' N H na' lag' h k.
Proof.
  intros [Hup Hht Hpar Hfl Hcnt Hst] Hh Hlo Ena Epar Ech Elag Eh Ec Ef Ep Es Ei.
  pose proof (S_ge2 sh Hsh).
  constructor; rewrite ?Ena.
  - intros Hlt. rewrite Epar by auto. auto.
  - rewrite Eh. auto.
  - rewrite Ep, Hpar. destruct (Z.eqb_spec h H); [reflexivity|].
    rewrite Epar by lia. reflexivity.
  - rewrite Ef, Hfl, Elag. reflexivity.
  - rewrite Ec, Hcnt. destruct (Z.eqb_spec h 1); [reflexivity|].
    pose proof (fullsF_nonneg N (k * W sh h) h Hlo ltac:(lia)).
    pose proof (fullsF_le N (k * W sh h) h).
    destruct (Z.ltb_spec (fullsF sh N (k * W sh h) h) (2 ^ sh)); simpl; [|reflexivity].
    rewrite Ech by lia. reflexivity.
  - intros o Ho. rewrite Es, Hst by auto. destruct (Z.eqb_spec h 1) as [->|].
    + destruct (Z.ltb_spec (k * W sh 1 + o) N); [|reflexivity].
      rewrite Ei; auto.
    + rewrite Ech by lia. reflexivity.
Qed.

Lemma dom_upper H h k : dom sh H h k -> (k + 1) * W sh h <= W sh H.
Proof.
  intros (Hh & Hk & Hlt).
  replace H with (h + (H - h)) in * by lia.
  rewrite W_add in * by lia.
  pose proof (W_pos sh Hsh h ltac:(lia)).
  assert (k < W sh (H - h)) by nia. nia.
Qed.

Lemma dom_parent H h k : dom sh H h k -> h < H -> dom sh H (h + 1) (k / 2 ^ sh).
Proof.
  intros (Hh & Hk & Hlt) HH. pose proof (S_ge2 sh Hsh).
  split; [lia|]. split; [apply Z.div_pos; lia|].
  rewrite W_succ by lia.
  pose proof (Z.mul_div_le k (2 ^ sh) ltac:(lia)).
  pose proof (W_pos sh Hsh h ltac:(lia)). nia.
Qed.

Lemma dom_child H h k o : dom sh H h k -> 2 <= h -> 0 <= o < 2 ^ sh ->
  dom sh H (h - 1) (k * 2 ^ sh + o).
Proof.
  intros Hd Hh Ho. pose proof (dom_upper H h k Hd) as Hu.
  destruct Hd as (Hh' & Hk & Hlt).
  rewrite (W_pred sh Hsh h) in Hu by lia.
  pose proof (W_pos sh Hsh (h - 1) ltac:(lia)).
  split; [lia|]. split; [nia|]. nia.
Qed.

Lemma dom_index H h i : 1 <= h <= H -> 0 <= i < W sh H -> dom sh H h (i / W sh h).
Proof.
  intros Hh Hi. pose proof (W_pos sh Hsh h ltac:(lia)).
  split; [lia|]. split; [apply Z.div_pos; lia|].
  pose proof (Z.mul_div_le i (W sh h) ltac:(lia)). nia.
Qed.

Lemma loc_lo st N H na lag h k :
  loc sh st N H na lag h k -> na h k <> NULL -> k * W sh h <= N.
Proof.
  intros Hl Hp. destruct (Z.le_gt_cases (k * W sh h) N); [auto|].
  exfalso. apply Hp. apply (l_gt _ _ _ _ _ _ _ _ Hl). lia.
Qed.

Lemma chain_present st N na lag i :
  Inv sh st N na lag -> 0 <= i < W sh (r_height (rt st)) -> na 1 (i / 2 ^ sh) <> NULL ->
  forall n : nat, 1 + Z.of_nat n <= r_height (rt st) ->
  na (1 + Z.of_nat n) (i / W sh (1 + Z.of_nat n)) <> NULL.
Proof.
  intros Hinv Hi H1. induction n as [|n IH]; intros Hn.
  - simpl. rewrite W_1. exact H1.
  - rewrite Nat2Z.inj_succ. replace (1 + Z.succ (Z.of_nat n)) with (1 + Z.of_nat n + 1) by lia.
    rewrite div_W_succ by lia.
    assert (Hd : dom sh (r_height (rt st)) (1 + Z.of_nat n) (i / W sh (1 + Z.of_nat n)))
      by (apply dom_index; lia).
    pose proof (i_loc _ _ _ _ _ Hinv _ _ Hd) as Hl.
    apply (n_up _ _ _ _ _ _ _ _ (l_node _ _ _ _ _ _ _ _ Hl (IH ltac:(lia)))). lia.
Qed.

Lemma full_iff st N na lag h k :
  Inv sh st N na lag -> dom sh (r_height (rt st)) h k -> na h k <> NULL -> lag h k = 0 ->
  sradix_node_full (rt st) (hp st) (na h k) = (k * W sh h + W sh h <=? N).
Proof.
  intros Hinv Hd Hp Hlag.
  pose proof (i_loc _ _ _ _ _ Hinv _ _ Hd) as Hl.
  pose proof (loc_lo _ _ _ _ _ _ _ Hl Hp) as Hlo.
  destruct (l_node _ _ _ _ _ _ _ _ Hl Hp) as [_ Hht _ Hfl Hcnt _].
  pose proof (S_ge2 sh Hsh). destruct Hd as (Hh & Hk & Hlt).
  unfold sradix_node_full. rewrite (i_size _ _ _ _ _ Hinv), Hht, Hfl, Hcnt, Hlag.
  destruct (Z.eqb_spec h 1) as [->|Hne].
  - rewrite W_1 in *.
    assert (E0 : (0 =? 2 ^ sh) = false) by (apply Z.eqb_neq; lia).
    rewrite E0. cbn [orb andb].
    destruct (Z.leb_spec (k * 2 ^ sh + 2 ^ sh) N);
    destruct (Z.eqb_spec (Z.min (2 ^ sh) (N - k * 2 ^ sh)) (2 ^ sh)); try reflexivity;
    lia.
  - pose proof (W_pred sh Hsh h ltac:(lia)) as HW.
    pose proof (W_pos sh Hsh (h - 1) ltac:(lia)).
    unfold fullsF. rewrite Z.sub_0_r, orb_false_r.
    destruct (Z.leb_spec (k * W sh h + W sh h) N) as [Hle|Hgt].
    + apply Z.eqb_eq. apply Z.min_l.
      apply Z.div_le_lower_bound; lia.
    + apply Z.eqb_neq. intros E.
      assert (2 ^ sh <= (N - k * W sh h) / W sh (h - 1)) by lia.
      assert (2 ^ sh * W sh (h - 1) <= N - k * W sh h).
      { pose proof (Z.mul_div_le (N - k * W sh h) (W sh (h - 1)) ltac:(lia)). nia. }
      nia.
Qed.

Lemma Inv_lag_ext st N na lag lag' :
  Inv sh st N na lag -> (forall h k, dom sh (r_height (rt st)) h k -> lag' h k = lag h k) ->
  Inv sh st N na lag'.
Proof.
  intros Hinv Hlag. destruct Hinv as [A1 A2 A3 A4 A5 A6 A7 A8 A9 Aloc A11 A12 A13].
  constructor; auto.
  intros h k Hd. pose proof (Aloc h k Hd) as Hl.
  constructor; try apply Hl. intros Hp.
  apply (node_at_frame st st N (r_height (rt st)) na na lag lag');
    [apply (l_node _ _ _ _ _ _ _ _ Hl Hp) | apply Hd | apply (loc_lo _ _ _ _ _ _ _ Hl Hp)
    | ..]; auto.
Qed.

End InvLemmas.


Ltac rw_neq :=
  repeat match goal with
  | H : ?a <> ?b |- context [?a =? ?b] => rewrite (proj2 (Z.eqb_neq a b) H)
  | H : ?b <> ?a |- context [?a =? ?b] => rewrite (proj2 (Z.eqb_neq a b) (not_eq_sym H))
  end; rewrite ?Z.eqb_refl.

Lemma pair_dec (a b c d : Z) : {a = b /\ c = d} + {~ (a = b /\ c = d)}.
Proof.
  destruct (Z.eq_dec a b); destruct (Z.eq_dec c d); [left; auto|right; tauto..].
Qed.

Section Mut.
Variable sh : Z.
Hypothesis Hsh : 1 <= sh <= 31.

Lemma child_inj k k' o d : 0 <= o < 2 ^ sh -> 0 <= d < 2 ^ sh ->
  k * 2 ^ sh + o = k' * 2 ^ sh + d -> k = k' /\ o = d.
Proof.
  intros Ho Hd E.
  assert (k = k') by (destruct (Z.lt_total k k') as [Hl|[Hl|Hl]]; nia). subst. lia.
Qed.

Lemma child_parent k o : 0 <= o < 2 ^ sh -> (k * 2 ^ sh + o) / 2 ^ sh = k.
Proof.
  intros Ho. rewrite Z.div_add_l by lia. rewrite Z.div_small by lia. lia.
Qed.

(** A node of height [hy - 1] added at slot [d] of [y = na hy ky], the
    slot holding [N]: the descent of [sradix_tree_enter]. *)
Lemma Inv_add_child st N na hy ky d t b :
  Inv sh st N na lag0 -> dom sh (r_height (rt st)) hy ky -> 2 <= hy ->
  na hy ky <> NULL -> ky * W sh hy <= N < (ky + 1) * W sh hy ->
  d = (N - ky * W sh hy) / W sh (hy - 1) ->
  na (hy - 1) (ky * 2 ^ sh + d) = NULL ->
  t = next_fresh st -> budget st = S b ->
  let y := na hy ky in
  let h1 := h_zero (hp st) t in
  let h2 := h_set_height h1 t (hy - 1) in
  let h3 := h_set_store h2 y d t in
  let h4 := h_set_parent h3 t y in
  let h5 := h_set_count h4 y (u32 (count h4 y + 1)) in
  let na' := fun h k => if (h =? hy - 1) && (k =? ky * 2 ^ sh + d) then t else na h k in
  Inv sh (State (rt st) h5 (t + 1) [] b (freed st) (assigned st)) N na' lag0
  /\ na' (hy - 1) (ky * 2 ^ sh + d) = t.
Proof.
  intros Hinv Hdy Hhy Hy HN Hd Hc Ht Hb y h1 h2 h3 h4 h5 na'.
  set (H := r_height (rt st)) in *.
  pose proof (S_ge2 sh Hsh) as HS. pose proof (S_le sh Hsh) as HS2.
  pose proof (W_pred sh Hsh hy ltac:(lia)) as HW.
  pose proof (W_pos sh Hsh (hy - 1) ltac:(lia)) as HWp.
  assert (Hd0 : 0 <= d < 2 ^ sh).
  { rewrite Hd. split; [apply Z.div_pos; lia|]. apply Z.div_lt_upper_bound; nia. }
  assert (Hyt : y <> t) by (pose proof (i_fresh _ _ _ _ _ Hinv _ _ Hdy Hy); subst y; lia).
  assert (Ht0 : t <> NULL) by (pose proof (i_fresh0 _ _ _ _ _ Hinv); unfold NULL; lia).
  assert (Hdc : dom sh H (hy - 1) (ky * 2 ^ sh + d)) by (apply (dom_child sh Hsh); auto).
  assert (Hcnt_y : count (hp st) y = d).
  { destruct (l_node _ _ _ _ _ _ _ _ (i_loc _ _ _ _ _ Hinv _ _ Hdy) Hy) as [_ _ _ _ Hcnt _].
    subst y. rewrite Hcnt. rewrite (proj2 (Z.eqb_neq hy 1)) by lia.
    assert (fullsF sh N (ky * W sh hy) hy = d).
    { unfold fullsF. rewrite Hd. apply Z.min_r. lia. }
    rewrite H0. rewrite (proj2 (Z.ltb_lt d _)) by lia. rewrite Hc. simpl. lia. }
  (* the fields of the new heap *)
  assert (Fh : forall q, height h5 q = if q =? t then hy - 1 else height (hp st) q).
  { intros q. unfold h5, h4, h3, h2, h1. cbn. unfold upd. destruct (q =? t); reflexivity. }
  assert (Ff : forall q, fulls h5 q = if q =? t then 0 else fulls (hp st) q).
  { intros q. unfold h5, h4, h3, h2, h1. cbn. unfold upd. destruct (q =? t); reflexivity. }
  assert (Fp : forall q, parent h5 q = if q =? t then y else parent (hp st) q).
  { intros q. unfold h5, h4, h3, h2, h1. cbn. unfold upd. destruct (q =? t); reflexivity. }
  assert (Fc : forall q, count h5 q =
            if q =? y then d + 1 else if q =? t then 0 else count (hp st) q).
  { intros q. unfold h5, h4, h3, h2, h1. cbn. unfold upd. rw_neq.
    rewrite Hcnt_y, u32_id by lia. destruct (q =? y); reflexivity. }
  assert (Fs : forall q o, stores h5 q o =
            if q =? y then (if o =? d then t else stores (hp st) y o)
            else if q =? t then NULL else stores (hp st) q o).
  { intros q o. unfold h5, h4, h3, h2, h1. cbn. unfold upd. rw_neq.
    destruct (Z.eqb_spec q y) as [->|]; rw_neq; [reflexivity|].
    destruct (q =? t); reflexivity. }
  clearbody h5. clear h4 h3 h2 h1.
  assert (Enew : na' (hy - 1) (ky * 2 ^ sh + d) = t) by (unfold na'; rw_neq; reflexivity).
  assert (Eold : forall h k, ~ (h = hy - 1 /\ k = ky * 2 ^ sh + d) -> na' h k = na h k).
  { intros h k Hn. unfold na'.
    destruct (Z.eqb_spec h (hy - 1)); destruct (Z.eqb_spec k (ky * 2 ^ sh + d)); simpl;
      auto; tauto. }
  assert (Hbelow : forall h k, dom sh H h k -> na h k <> NULL -> na h k <> t).
  { intros h k Hd1 Hp. pose proof (i_fresh _ _ _ _ _ Hinv h k Hd1 Hp). lia. }
  assert (Hlo_c : (ky * 2 ^ sh + d) * W sh (hy - 1) = N).
  { pose proof (l_lt _ _ _ _ _ _ _ _ (i_loc _ _ _ _ _ Hinv _ _ Hdc)) as Hl.
    assert (d * W sh (hy - 1) <= N - ky * W sh hy).
    { rewrite Hd. pose proof (Z.mul_div_le (N - ky * W sh hy) (W sh (hy - 1)) HWp). lia. }
    destruct (Z.lt_total ((ky * 2 ^ sh + d) * W sh (hy - 1)) N) as [Hlt|[Heq|Hgt]];
      [exfalso; apply Hl; [lia|exact Hc] | exact Heq | nia]. }
  assert (Habs : forall o, 0 <= o < 2 ^ sh -> 2 <= hy - 1 ->
            na (hy - 1 - 1) ((ky * 2 ^ sh + d) * 2 ^ sh + o) = NULL).
  { intros o Ho Hh2.
    destruct (Z.eq_dec (na (hy - 1 - 1) ((ky * 2 ^ sh + d) * 2 ^ sh + o)) NULL) as [|Hp];
      [assumption|exfalso].
    pose proof (dom_child sh Hsh _ _ _ o Hdc Hh2 Ho) as Hdcc.
    pose proof (l_node _ _ _ _ _ _ _ _ (i_loc _ _ _ _ _ Hinv _ _ Hdcc) Hp) as Hn.
    pose proof (n_up _ _ _ _ _ _ _ _ Hn ltac:(destruct Hdc; lia)) as Hu.
    rewrite child_parent in Hu by lia. replace (hy - 1 - 1 + 1) with (hy - 1) in Hu by lia.
    contradiction. }
  assert (Hfy : fullsF sh N (ky * W sh hy) hy = d).
  { unfold fullsF. rewrite Hd. apply Z.min_r.
    assert ((N - ky * W sh hy) / W sh (hy - 1) < 2 ^ sh) by (apply Z.div_lt_upper_bound; nia).
    lia. }
  split; [|exact Enew].
  constructor; simpl.
  - apply (i_shift _ _ _ _ _ Hinv).
  - apply (i_size _ _ _ _ _ Hinv).
  - apply (i_mask _ _ _ _ _ Hinv).
  - apply (i_min _ _ _ _ _ Hinv).
  - reflexivity.
  - apply (i_N _ _ _ _ _ Hinv).
  - apply (i_log _ _ _ _ _ Hinv).
  - apply (i_H _ _ _ _ _ Hinv).
  - rewrite (i_rnode _ _ _ _ _ Hinv). fold H.
    destruct (H =? 0); [reflexivity|]. symmetry. apply Eold. destruct Hdy; lia.
  - intros h k Hd1. change (r_height (rt st)) with H.
    pose proof (i_loc _ _ _ _ _ Hinv h k Hd1) as Hl.
    destruct (pair_dec h (hy - 1) k (ky * 2 ^ sh + d)) as [[-> ->]|Hnew];
      [|destruct (pair_dec h hy k ky) as [[-> ->]|Hother]].
    + (* the new node *)
      assert (HF0 : fullsF sh N ((ky * 2 ^ sh + d) * W sh (hy - 1)) (hy - 1) = 0).
      { unfold fullsF. rewrite Hlo_c, Z.sub_diag.
        pose proof (W_pos sh Hsh (hy - 1 - 1) ltac:(lia)).
        rewrite Z.div_0_l by lia. lia. }
      constructor; rewrite ?Enew.
      * intros _. exact Ht0.
      * intros Hlt. exfalso. rewrite Hlo_c in Hlt. lia.
      * intros Htop. exfalso. destruct Hdy; lia.
      * intros _. constructor; rewrite ?Enew.
        -- intros _. replace (hy - 1 + 1) with hy by lia. rewrite child_parent by lia.
           rewrite Eold by lia. exact Hy.
        -- rewrite Fh. rw_neq. reflexivity.
        -- rewrite Fp. rw_neq.
           rewrite (proj2 (Z.eqb_neq (hy - 1) H)) by (destruct Hdy; lia).
           replace (hy - 1 + 1) with hy by lia. rewrite child_parent by lia.
           rewrite Eold by lia. reflexivity.
        -- rewrite Ff. rw_neq. rewrite HF0. unfold lag0. destruct (hy - 1 =? 1); reflexivity.
        -- rewrite Fc. rw_neq. rewrite HF0, Hlo_c.
           destruct (Z.eqb_spec (hy - 1) 1); [lia|].
           rewrite (proj2 (Z.ltb_lt 0 _)) by lia. simpl.
           rewrite Eold by lia. rewrite (Habs 0) by lia. reflexivity.
        -- intros o Ho. rewrite Fs. rw_neq. rewrite Hlo_c.
           destruct (Z.eqb_spec (hy - 1) 1).
           ++ rewrite (proj2 (Z.ltb_ge _ _)) by lia. reflexivity.
           ++ rewrite Eold by lia. rewrite Habs by lia. reflexivity.
    + (* the node that gets the new child *)
      assert (Ey : na' hy ky = y) by (rewrite Eold by lia; reflexivity).
      unfold y in *.
      destruct Hl as [Hl1 Hl2 Hl3 Hl4].
      pose proof (Hl4 Hy) as [Hup Hht Hpar Hfl Hcnt Hst].
      constructor; rewrite ?Ey; try (intros; subst y; auto; fail).
      intros _. constructor; rewrite ?Ey.
      * intros Hlt. rewrite Eold by lia. auto.
      * rewrite Fh. rw_neq. exact Hht.
      * rewrite Fp. rw_neq. rewrite Hpar. rewrite (Eold (hy + 1)) by lia. reflexivity.
      * rewrite Ff. rw_neq. exact Hfl.
      * rewrite Fc. rw_neq. rewrite (proj2 (Z.eqb_neq hy 1)) by lia. rewrite Hfy.
        rewrite (proj2 (Z.ltb_lt d _)) by lia. rewrite Enew.
        rewrite (proj2 (Z.eqb_neq t NULL)) by exact Ht0. reflexivity.
      * intros o Ho. rewrite Fs. rw_neq. rewrite (proj2 (Z.eqb_neq hy 1)) by lia.
        destruct (Z.eqb_spec o d) as [->|Hne]; [now rewrite Enew|].
        rewrite Eold. rewrite Hst by auto. rewrite (proj2 (Z.eqb_neq hy 1)) by lia. reflexivity.
        intros [_ E]. apply Hne. apply (child_inj ky ky o d); auto.
    + (* every other position *)
      assert (Eh : na' h k = na h k) by (apply Eold; exact Hnew).
      destruct Hl as [Hl1 Hl2 Hl3 Hl4].
      constructor; rewrite ?Eh; auto.
      intros Hp. pose proof (Hl4 Hp) as Hn.
      assert (Hpt : na h k <> t) by (apply Hbelow; auto).
      assert (Hpy : na h k <> y).
      { intros E. apply Hother. apply (i_inj _ _ _ _ _ Hinv); auto. }
      apply (node_at_frame sh Hsh st _ N H na na' lag0 lag0); auto.
      * destruct Hd1; lia.
      * apply (loc_lo sh st N H na lag0); [constructor|]; auto.
      * intros Hlt. apply Eold. intros [E1 E2].
        pose proof (n_up _ _ _ _ _ _ _ _ Hn Hlt) as Hu. rewrite E1, E2 in Hu. contradiction.
      * intros Hh2 o Ho. apply Eold. intros [E1 E2]. apply Hother.
        assert (h = hy) by lia. subst h.
        destruct (child_inj k ky o d Ho Hd0 E2). auto.
      * simpl. rewrite Fh. rw_neq. reflexivity.
      * simpl. rewrite Fc. rw_neq. reflexivity.
      * simpl. rewrite Ff. rw_neq. reflexivity.
      * simpl. rewrite Fp. rw_neq. reflexivity.
      * intros o Ho. simpl. rewrite Fs. rw_neq. reflexivity.
  - intros h k h' k' Hd1 Hd2 E Hp.
    destruct (Z.eq_dec h (hy - 1)) as [->|Hh1]; destruct (Z.eq_dec k (ky * 2 ^ sh + d)) as [->|Hk1];
    destruct (Z.eq_dec h' (hy - 1)) as [->|Hh2]; destruct (Z.eq_dec k' (ky * 2 ^ sh + d)) as [->|Hk2];
    try (split; reflexivity);
    repeat rewrite Enew in *; repeat rewrite Eold in * by tauto;
    try (exfalso; apply (Hbelow _ _ Hd2); congruence);
    try (exfalso; apply (Hbelow _ _ Hd1); congruence);
    apply (i_inj _ _ _ _ _ Hinv); auto.
  - pose proof (i_fresh0 _ _ _ _ _ Hinv); lia.
  - intros h k Hd1 Hp.
    destruct (Z.eq_dec h (hy - 1)) as [->|Hh1]; destruct (Z.eq_dec k (ky * 2 ^ sh + d)) as [->|Hk1];
      [rewrite Enew; pose proof (i_fresh0 _ _ _ _ _ Hinv); lia| | |];
      rewrite Eold in * by tauto; pose proof (i_fresh _ _ _ _ _ Hinv _ _ Hd1 Hp); lia.
Qed.
End Mut.


Section Ext.
Variable sh : Z.
Hypothesis Hsh : 1 <= sh <= 31.

Lemma H_bound st N na lag : Inv sh st N na lag ->
  0 <= r_height (rt st) /\ sh * (r_height (rt st) - 1) <= 30 /\ r_height (rt st) <= 31.
Proof.
  intros Hinv. pose proof (i_N _ _ _ _ _ Hinv).
  destruct (i_H _ _ _ _ _ Hinv) as [[-> ->]|(H1 & H2 & [H3|H3])]; [lia|nia|].
  assert (sh * (r_height (rt st) - 1) <= 30).
  { apply (Z.pow_le_mono_r_iff 2); [lia|nia|]. unfold W in H3. lia. }
  nia.
Qed.

(** The first leaf of an empty tree. *)
Lemma Inv_first_leaf st na t b :
  Inv sh st 0 na lag0 -> r_rnode (rt st) = NULL -> t = next_fresh st -> budget st = S b ->
  let h2 := h_set_height (h_zero (hp st) t) t 1 in
  let r := rt st in
  Inv sh (State (with_height (with_rnode r t) 1) h2 (t + 1) [] b (freed st) (assigned st))
    0 (fun h k => if (h =? 1) && (k =? 0) then t else NULL) lag0.
Proof.
  intros Hinv Hr Ht Hb h2 r.
  pose proof (S_ge2 sh Hsh).
  assert (Ht0 : t <> NULL) by (pose proof (i_fresh0 _ _ _ _ _ Hinv); unfold NULL; lia).
  assert (Hdom : forall h k, dom sh 1 h k -> h = 1 /\ k = 0).
  { intros h k (Hh & Hk & Hlt). assert (h = 1) by lia. subst h. rewrite W_1 in Hlt. nia. }
  constructor; simpl.
  - apply (i_shift _ _ _ _ _ Hinv).
  - apply (i_size _ _ _ _ _ Hinv).
  - apply (i_mask _ _ _ _ _ Hinv).
  - apply (i_min _ _ _ _ _ Hinv).
  - reflexivity.
  - lia.
  - apply (i_log _ _ _ _ _ Hinv).
  - right. rewrite W_1. lia.
  - reflexivity.
  - intros h k Hd. destruct (Hdom h k Hd) as [-> ->]. simpl.
    constructor; simpl; try lia; auto.
    intros _. constructor; simpl.
    + lia.
    + unfold h2. cbn. unfold upd. rewrite Z.eqb_refl. reflexivity.
    + unfold h2. cbn. unfold upd. rewrite Z.eqb_refl. reflexivity.
    + unfold h2. cbn. unfold upd. rewrite Z.eqb_refl. reflexivity.
    + unfold h2. cbn. unfold upd. rewrite Z.eqb_refl. lia.
    + intros o Ho. unfold h2. cbn. unfold upd. rewrite Z.eqb_refl.
      destruct (Z.ltb_spec o 0); [lia|reflexivity].
  - intros h k h' k' Hd Hd' _ _.
    destruct (Hdom h k Hd), (Hdom h' k' Hd'). split; congruence.
  - pose proof (i_fresh0 _ _ _ _ _ Hinv). lia.
  - intros h k Hd _. destruct (Hdom h k Hd) as [-> ->]. simpl.
    pose proof (i_fresh0 _ _ _ _ _ Hinv). lia.
Qed.

(** [node_at_frame] when the tree height and the node's parent may change. *)
Lemma node_at_frame2 st st' N H H' na na' lag lag' h k :
  node_at sh st N H na lag h k -> 1 <= h -> k * W sh h <= N ->
  na' h k = na h k ->
  (h < H' -> na' (h + 1) (k / 2 ^ sh) <> NULL) ->
  parent (hp st') (na h k) = (if h =? H' then NULL else na' (h + 1) (k / 2 ^ sh)) ->
  (2 <= h -> forall o, 0 <= o < 2 ^ sh -> na' (h - 1) (k * 2 ^ sh + o) = na (h - 1) (k * 2 ^ sh + o)) ->
  lag' h k = lag h k ->
  height (hp st') (na h k) = height (hp st) (na h k) ->
  count (hp st') (na h k) = count (hp st) (na h k) ->
  fulls (hp st') (na h k) = fulls (hp st) (na h k) ->
  (forall o, 0 <= o < 2 ^ sh -> stores (hp st') (na h k) o = stores (hp st) (na h k) o) ->
  (h = 1 -> forall o, 0 <= o < 2 ^ sh -> k * W sh h + o < N ->
     item_at (assigned st') (k * W sh h + o) = item_at (assigned st) (k * W sh h + o)) ->
  node_at sh st' N H' na' lag' h k.
Proof.
  intros [Hup Hht Hpar Hfl Hcnt Hst] Hh Hlo Ena Hup' Ep Ech Elag Eh Ec Ef Es Ei.
  pose proof (S_ge2 sh Hsh).
  constructor; rewrite ?Ena.
  - exact Hup'.
  - rewrite Eh. auto.
  - exact Ep.
  - rewrite Ef, Hfl, Elag. reflexivity.
  - rewrite Ec, Hcnt. destruct (Z.eqb_spec h 1); [reflexivity|].
    pose proof (fullsF_nonneg sh Hsh N (k * W sh h) h Hlo ltac:(lia)).
    pose proof (fullsF_le sh Hsh N (k * W sh h) h).
    destruct (Z.ltb_spec (fullsF sh N (k * W sh h) h) (2 ^ sh)); simpl; [|reflexivity].
    rewrite Ech by lia. reflexivity.
  - intros o Ho. rewrite Es, Hst by auto. destruct (Z.eqb_spec h 1) as [->|].
    + destruct (Z.ltb_spec (k * W sh 1 + o) N); [|reflexivity].
      rewrite Ei; auto.
    + rewrite Ech by lia. reflexivity.
Qed.

(** A new top node over a tree whose indices are all in use. *)
Lemma Inv_new_root st na t b :
  let H := r_height (rt st) in
  let R := r_rnode (rt st) in
  Inv sh st (W sh H) na lag0 -> 1 <= H -> t = next_fresh st -> budget st = S b ->
  let h1 := h_zero (hp st) t in
  let h2 := h_set_store h1 t 0 R in
  let h3 := h_set_parent h2 R t in
  let h4 := h_set_height h3 t (H + 1) in
  let h5 := h_set_count h4 t 1 in
  let h6 := h_set_fulls h5 t 1 in
  let na' := fun h k => if h =? H + 1 then t
                        else if k * W sh h <? W sh H then na h k else NULL in
  Inv sh (State (with_height (with_rnode (rt st) t) (H + 1)) h6 (t + 1) [] b
            (freed st) (assigned st)) (W sh H) na' lag0.
Proof.
  intros H R Hinv HH Ht Hb h1 h2 h3 h4 h5 h6 na'.
  pose proof (S_ge2 sh Hsh) as HS.
  pose proof (W_pos sh Hsh H ltac:(lia)) as HWp.
  pose proof (W_succ sh Hsh H ltac:(lia)) as HW1.
  assert (Ht0 : t <> NULL) by (pose proof (i_fresh0 _ _ _ _ _ Hinv); unfold NULL; lia).
  assert (HdR : dom sh H H 0) by (split; [lia|]; split; lia).
  assert (ER : R = na H 0).
  { unfold R. rewrite (i_rnode _ _ _ _ _ Hinv). fold H.
    rewrite (proj2 (Z.eqb_neq H 0)) by lia. reflexivity. }
  assert (HR0 : R <> NULL) by (rewrite ER; apply (l_top _ _ _ _ _ _ _ _ (i_loc _ _ _ _ _ Hinv _ _ HdR)); reflexivity).
  assert (HRt : R <> t) by (pose proof (i_fresh _ _ _ _ _ Hinv _ _ HdR); rewrite ER; lia).
  assert (Fh : forall q, height h6 q = if q =? t then H + 1 else height (hp st) q).
  { intros q. unfold h6, h5, h4, h3, h2, h1. cbn. unfold upd. destruct (q =? t); reflexivity. }
  assert (Ff : forall q, fulls h6 q = if q =? t then 1 else fulls (hp st) q).
  { intros q. unfold h6, h5, h4, h3, h2, h1. cbn. unfold upd. destruct (q =? t); reflexivity. }
  assert (Fc : forall q, count h6 q = if q =? t then 1 else count (hp st) q).
  { intros q. unfold h6, h5, h4, h3, h2, h1. cbn. unfold upd. destruct (q =? t); reflexivity. }
  assert (Fp : forall q, parent h6 q = if q =? R then t else if q =? t then NULL else parent (hp st) q).
  { intros q. unfold h6, h5, h4, h3, h2, h1. cbn. unfold upd. reflexivity. }
  assert (Fs : forall q o, stores h6 q o =
            if q =? t then (if o =? 0 then R else NULL) else stores (hp st) q o).
  { intros q o. unfold h6, h5, h4, h3, h2, h1. cbn. unfold upd. rewrite Z.eqb_refl.
    destruct (q =? t); reflexivity. }
  clearbody h6. clear h5 h4 h3 h2 h1.
  assert (Etop : forall k, na' (H + 1) k = t) by (intros; unfold na'; rewrite Z.eqb_refl; reflexivity).
  assert (Eold : forall h k, dom sh H h k -> na' h k = na h k).
  { intros h k (Hh & Hk & Hlt). unfold na'. rewrite (proj2 (Z.eqb_neq h (H + 1))) by lia.
    rewrite (proj2 (Z.ltb_lt _ _)) by lia. reflexivity. }
  assert (Hbelow : forall h k, dom sh H h k -> na h k <> NULL -> na h k <> t).
  { intros h k Hd1 Hp. pose proof (i_fresh _ _ _ _ _ Hinv h k Hd1 Hp). lia. }
  assert (Hcls : forall h k, dom sh (H + 1) h k ->
            (h = H + 1 /\ k = 0) \/ dom sh H h k
            \/ (h <= H /\ W sh H <= k * W sh h /\ na' h k = NULL)).
  { intros h k (Hh & Hk & Hlt).
    destruct (Z.eq_dec h (H + 1)) as [->|Hne]; [left; split; [reflexivity|nia]|right].
    destruct (Z.ltb_spec (k * W sh h) (W sh H)) as [Hl|Hg].
    - left. split; [lia|]. split; lia.
    - right. split; [lia|]. split; [lia|]. unfold na'.
      rewrite (proj2 (Z.eqb_neq h (H + 1))) by lia. rewrite (proj2 (Z.ltb_ge _ _)) by lia.
      reflexivity. }
  constructor; simpl.
  - apply (i_shift _ _ _ _ _ Hinv).
  - apply (i_size _ _ _ _ _ Hinv).
  - apply (i_mask _ _ _ _ _ Hinv).
  - apply (i_min _ _ _ _ _ Hinv).
  - reflexivity.
  - apply (i_N _ _ _ _ _ Hinv).
  - apply (i_log _ _ _ _ _ Hinv).
  - right. split; [lia|]. split; [nia|]. right. replace (H + 1 - 1) with H by lia. lia.
  - rewrite (proj2 (Z.eqb_neq (H + 1) 0)) by lia. rewrite Etop. reflexivity.
  - intros h k Hd1.
    destruct (Hcls h k Hd1) as [[-> ->]|[Ho1|(Hh1 & Hg & E1)]].
    + (* the new root *)
      constructor; rewrite ?Etop.
      * intros _; exact Ht0.
      * intros Hlt. exfalso. lia.
      * intros _; exact Ht0.
      * intros _. constructor; rewrite ?Etop.
        -- intros Hlt; lia.
        -- rewrite Fh, Z.eqb_refl. reflexivity.
        -- rewrite Fp. rw_neq. reflexivity.
        -- rewrite Ff, Z.eqb_refl. rewrite (proj2 (Z.eqb_neq (H + 1) 1)) by lia.
           unfold fullsF, lag0. replace (H + 1 - 1) with H by lia.
           rewrite Z.mul_0_l, !Z.sub_0_r, Z.div_same by lia. lia.
        -- rewrite Fc, Z.eqb_refl. rewrite (proj2 (Z.eqb_neq (H + 1) 1)) by lia.
           unfold fullsF. replace (H + 1 - 1) with H by lia.
           rewrite Z.mul_0_l, !Z.sub_0_r, Z.div_same by lia.
           rewrite Z.min_r by lia. rewrite Z.add_0_l.
           unfold na'. rewrite (proj2 (Z.eqb_neq H (H + 1))) by lia.
           rewrite (proj2 (Z.ltb_ge (1 * W sh H) _)) by lia. rewrite Z.eqb_refl, andb_false_r. lia.
        -- intros o Ho. rewrite Fs, Z.eqb_refl. rewrite (proj2 (Z.eqb_neq (H + 1) 1)) by lia.
           replace (H + 1 - 1) with H by lia. rewrite Z.mul_0_l, Z.add_0_l.
           destruct (Z.eqb_spec o 0) as [->|Hne].
           ++ rewrite Eold by auto. exact ER.
           ++ unfold na'. rewrite (proj2 (Z.eqb_neq H (H + 1))) by lia.
              rewrite (proj2 (Z.ltb_ge (o * W sh H) _)) by nia. reflexivity.
    + (* a position of the old tree *)
      pose proof (i_loc _ _ _ _ _ Hinv h k Ho1) as Hl.
      change (r_height (rt st)) with H in Hl.
      assert (Ek : na' h k = na h k) by auto.
      destruct Hl as [Hl1 Hl2 Hl3 Hl4]. constructor; rewrite ?Ek.
      * exact Hl1.
      * exact Hl2.
      * intros E. destruct Ho1. lia.
      * intros Hp. pose proof (Hl4 Hp) as Hn.
        assert (Hpt : na h k <> t) by (apply Hbelow; auto).
        apply (node_at_frame2 st _ (W sh H) H (H + 1) na na' lag0 lag0); auto.
        -- destruct Ho1; lia.
        -- apply (loc_lo sh st _ H na lag0); [constructor|]; auto.
        -- intros Hlt. destruct (Z.eq_dec h H) as [->|Hne]; [rewrite Etop; exact Ht0|].
           rewrite Eold by (apply dom_parent; auto; lia).
           apply (n_up _ _ _ _ _ _ _ _ Hn); lia.
        -- simpl. rewrite Fp. rw_neq. destruct (Z.eq_dec h H) as [->|Hne].
           ++ assert (k = 0) by (destruct Ho1 as (_ & Hk & Hlt); nia). subst k.
              rewrite <- ER, Z.eqb_refl. rewrite (proj2 (Z.eqb_neq H (H + 1))) by lia.
              rewrite Etop. reflexivity.
           ++ assert (HpR : na h k <> R).
              { rewrite ER. intros E. apply Hne.
                apply (proj1 (i_inj _ _ _ _ _ Hinv h k H 0 Ho1 HdR E Hp)). }
              rw_neq. rewrite (n_parent _ _ _ _ _ _ _ _ Hn).
              rewrite (proj2 (Z.eqb_neq h H)) by lia.
              rewrite (proj2 (Z.eqb_neq h (H + 1))) by (destruct Ho1; lia).
              rewrite Eold by (apply dom_parent; auto; destruct Ho1; lia). reflexivity.
        -- intros Hh2 o Ho. apply Eold. apply dom_child; auto.
        -- simpl. rewrite Fh. rw_neq. reflexivity.
        -- simpl. rewrite Fc. rw_neq. reflexivity.
        -- simpl. rewrite Ff. rw_neq. reflexivity.
        -- intros o Ho. simpl. rewrite Fs. rw_neq. reflexivity.
    + (* beyond the old tree *)
      constructor.
      * intros Hlt. lia.
      * intros _; exact E1.
      * intros E; lia.
      * intros Hp; contradiction.
  - intros h k h' k' Hd1 Hd2 E Hp.
    destruct (Hcls h k Hd1) as [[-> ->]|[Ho1|(_ & _ & E1)]];
    destruct (Hcls h' k' Hd2) as [[-> ->]|[Ho2|(_ & _ & E2)]];
    try (split; reflexivity); try (exfalso; congruence).
    + rewrite Etop, Eold in E by auto. exfalso.
      apply (Hbelow _ _ Ho2); [congruence|auto].
    + rewrite Etop, Eold in E by auto. exfalso.
      apply (Hbelow _ _ Ho1); [rewrite Eold in Hp; auto|congruence].
    + rewrite !Eold in * by auto. apply (i_inj _ _ _ _ _ Hinv); auto.
  - pose proof (i_fresh0 _ _ _ _ _ Hinv). lia.
  - intros h k Hd1 Hp.
    destruct (Hcls h k Hd1) as [[-> ->]|[Ho1|(_ & _ & E1)]].
    + rewrite Etop. pose proof (i_fresh0 _ _ _ _ _ Hinv). lia.
    + rewrite Eold in * by auto. pose proof (i_fresh _ _ _ _ _ Hinv h k Ho1 Hp). lia.
    + contradiction.
Qed.

End Ext.


Section ExtSpec.
Variable sh : Z.
Hypothesis Hsh : 1 <= sh <= 31.

Lemma rnode_null st N na lag : Inv sh st N na lag ->
  (r_rnode (rt st) = NULL <-> r_height (rt st) = 0).
Proof.
  intros Hinv. rewrite (i_rnode _ _ _ _ _ Hinv).
  destruct (Z.eqb_spec (r_height (rt st)) 0) as [E|Hne]; [tauto|].
  split; [|intros; contradiction].
  intros E. exfalso.
  destruct (i_H _ _ _ _ _ Hinv) as [[? _]|(HH & _)]; [contradiction|].
  assert (Hd : dom sh (r_height (rt st)) (r_height (rt st)) 0)
    by (split; [lia|]; split; [lia|]; pose proof (W_pos sh Hsh (r_height (rt st)) ltac:(lia)); lia).
  apply (l_top _ _ _ _ _ _ _ _ (i_loc _ _ _ _ _ Hinv _ _ Hd)); auto.
Qed.

Lemma extend_spec (fuel : nat) st N na E :
  Inv sh st N na lag0 -> (2 <= fuel)%nat ->
  wp (sradix_tree_extend fuel N) (ext_post sh N) E st.
Proof.
  intros Hinv Hfuel.
  pose proof (H_bound sh Hsh st N na lag0 Hinv) as (HH0 & HHs & HH31).
  pose proof (S_ge2 sh Hsh) as HS.
  pose proof (i_shift _ _ _ _ _ Hinv) as Hshift.
  pose proof (i_N _ _ _ _ _ Hinv) as HN.
  unfold sradix_tree_extend. apply wp_call.
  repeat wp_step. apply wp_if; intros Hc.
  - (* an empty tree gets its first leaf *)
    apply Z.eqb_eq in Hc.
    assert (HH : r_height (rt st) = 0) by (apply (rnode_null st N na lag0 Hinv); auto).
    assert (HN0 : N = 0) by (destruct (i_H _ _ _ _ _ Hinv); lia).
    subst N.
    apply wp_bind. apply wp_alloc; [apply (i_pool _ _ _ _ _ Hinv)| |].
    + intros _. apply wp_throw. exists na. split; [auto|]. intros E0; unfold ENOMEM in *; lia.
    + intros b Hb. cbv beta.
      assert (Ht0 : next_fresh st <> NULL) by (pose proof (i_fresh0 _ _ _ _ _ Hinv); unfold NULL; lia).
      rewrite (proj2 (Z.eqb_neq _ _) Ht0).
      repeat (wp_step; try exact Ht0). simpl.
      rewrite Z.shiftr_0_l. destruct fuel as [|[|f]]; [lia|lia|]. cbn [extend_height extend_grow].
      repeat wp_step. simpl. repeat wp_step. simpl. repeat wp_step.
      eexists. split.
      * exact (Inv_first_leaf sh Hsh st na _ b Hinv Hc eq_refl Hb).
      * intros _. simpl. split; [exact Ht0|]. rewrite W_1. lia.
  - apply Z.eqb_neq in Hc.
    assert (HH : 1 <= r_height (rt st)).
    { destruct (Z.eq_dec (r_height (rt st)) 0) as [E0|]; [|lia].
      exfalso. apply Hc. apply (rnode_null st N na lag0 Hinv). auto. }
    repeat wp_step. simpl. rewrite Hshift.
    assert (Hsh961 : sh * r_height (rt st) <= 961) by nia.
    rewrite (u32_id (sh * r_height (rt st))) by (split; [nia|]; change (2 ^ 32) with 4294967296; lia). rewrite (shiftr_W sh Hsh) by lia.
    assert (HNW : N <= W sh (r_height (rt st))) by (destruct (i_H _ _ _ _ _ Hinv); lia).
    set (H := r_height (rt st)) in *.
    pose proof (W_pos sh Hsh H ltac:(lia)) as HWp.
    destruct fuel as [|[|f]]; [lia|lia|]. cbn [extend_height extend_grow].
    destruct (Z.eq_dec N (W sh H)) as [HNe|HNl].
    + rewrite HNe, Z.div_same by lia. simpl.
      assert (E1 : Z.shiftr 1 sh = 0).
      { rewrite Z.shiftr_div_pow2 by lia. apply Z.div_small. lia. }
      rewrite E1. simpl. rewrite (u32_id (H + 1)) by (change (2 ^ 32) with 4294967296; lia).
      repeat wp_step. change (r_height (rt st)) with H.
      rewrite (u32_id (H + 1)) by (change (2 ^ 32) with 4294967296; lia).
      rewrite (Z.gtb_ltb (H + 1) H), (proj2 (Z.ltb_lt H (H + 1))) by lia.
      apply wp_bind. apply wp_alloc; [apply (i_pool _ _ _ _ _ Hinv)| |].
      * intros _. apply wp_throw. exists na. split; [rewrite <- HNe; exact Hinv|]. intros E0; unfold ENOMEM in *; lia.
      * intros b Hb. cbv beta.
        assert (Ht0 : next_fresh st <> NULL) by (pose proof (i_fresh0 _ _ _ _ _ Hinv); unfold NULL; lia).
        assert (HdR : dom sh H H 0) by (split; [lia|]; split; lia).
        assert (ER : r_rnode (rt st) = na H 0).
        { rewrite (i_rnode _ _ _ _ _ Hinv). fold H.
          rewrite (proj2 (Z.eqb_neq H 0)) by lia. reflexivity. }
        assert (HRt : r_rnode (rt st) <> next_fresh st).
        { pose proof (i_fresh _ _ _ _ _ Hinv _ _ HdR). rewrite ER. rewrite ER in Hc. lia. }
        assert (Hfull : sradix_node_full (rt st) (hp st) (r_rnode (rt st)) = true).
        { rewrite ER. rewrite (full_iff sh Hsh st N na lag0 H 0 Hinv HdR) by (rewrite <- ?ER; auto).
          apply Z.leb_le. lia. }
        rewrite (proj2 (Z.eqb_neq _ _) Ht0).
        repeat (wp_step; try exact Ht0; try exact Hc). simpl.
        match goal with |- context [sradix_node_full ?r ?h ?p] =>
          replace (sradix_node_full r h p) with true end.
        2:{ rewrite <- Hfull. unfold sradix_node_full. cbn. unfold upd. rw_neq. reflexivity. }
        repeat (wp_step; try exact Ht0). simpl.
        rewrite (Z.gtb_ltb (H + 1) (H + 1)), Z.ltb_irrefl.
        repeat wp_step. subst N.
        eexists. split.
        -- exact (Inv_new_root sh Hsh st na _ b Hinv HH eq_refl Hb).
        -- intros _. simpl. split; [exact Ht0|].
           rewrite (W_succ sh Hsh) by lia. nia.
    + rewrite Z.div_small by lia. simpl. repeat wp_step. simpl. repeat wp_step.
      change (r_height (rt st)) with H.
      rewrite (Z.gtb_ltb H H), Z.ltb_irrefl.
      repeat wp_step. exists na. split; [exact Hinv|]. intros _. split; [exact Hc|]. change (r_height (rt st)) with H. lia.
Qed.

End ExtSpec.


Section Descend.
Variable sh : Z.
Hypothesis Hsh : 1 <= sh <= 31.

Lemma digit_mod h k i : 1 <= h -> k * W sh h <= i < (k + 1) * W sh h ->
  (i / W sh (h - 1)) mod 2 ^ sh = (i - k * W sh h) / W sh (h - 1).
Proof.
  intros Hh Hi. destruct (digit sh Hsh h k i Hh Hi) as [E1 E2].
  rewrite E1. rewrite Z.add_comm, Z.mod_add by (pose proof (S_ge2 sh Hsh); lia).
  apply Z.mod_small. exact E2.
Qed.

(** The scan stops at once: the slot holding [N] is empty or holds a
    node that is not full. *)
Lemma enter_scan_spec (fuel : nat) st N na h k tmp E :
  Inv sh st N na lag0 -> 2 <= h <= r_height (rt st) -> N < W sh (r_height (rt st)) ->
  k = N / W sh h -> na h k <> NULL -> (1 <= fuel)%nat ->
  let d := (N - k * W sh h) / W sh (h - 1) in
  wp (enter_scan fuel (na h k) d tmp)
    (fun r st' => st' = st /\ r = (d, na (h - 1) (k * 2 ^ sh + d))) E st.
Proof.
  intros Hinv Hh HN Hk Hp Hf d.
  pose proof (S_ge2 sh Hsh) as HS.
  pose proof (i_N _ _ _ _ _ Hinv) as HN0.
  assert (Hd : dom sh (r_height (rt st)) h k) by (subst k; apply (dom_index sh Hsh); lia).
  assert (Hr : k * W sh h <= N < (k + 1) * W sh h) by (subst k; apply (div_range_inv sh Hsh); lia).
  destruct (digit sh Hsh h k N ltac:(lia) Hr) as [_ Hd0]. fold d in Hd0.
  pose proof (W_pos sh Hsh (h - 1) ltac:(lia)) as HWp.
  pose proof (W_pred sh Hsh h ltac:(lia)) as HW.
  assert (Hdc : dom sh (r_height (rt st)) (h - 1) (k * 2 ^ sh + d)) by (apply (dom_child sh Hsh); auto; lia).
  assert (Hlo : (k * 2 ^ sh + d) * W sh (h - 1) <= N < (k * 2 ^ sh + d) * W sh (h - 1) + W sh (h - 1)).
  { pose proof (Z.mul_div_le (N - k * W sh h) (W sh (h - 1)) HWp).
    pose proof (Z.mod_pos_bound (N - k * W sh h) (W sh (h - 1)) HWp).
    pose proof (Z.div_mod (N - k * W sh h) (W sh (h - 1)) ltac:(lia)). unfold d. nia. }
  pose proof (l_node _ _ _ _ _ _ _ _ (i_loc _ _ _ _ _ Hinv _ _ Hd) Hp) as Hn.
  destruct fuel as [|f]; [lia|]. cbn [enter_scan].
  repeat wp_step. rewrite (i_size _ _ _ _ _ Hinv), (proj2 (Z.ltb_lt d _)) by lia.
  repeat (wp_step; try exact Hp).
  rewrite (n_stores _ _ _ _ _ _ _ _ Hn) by lia.
  rewrite (proj2 (Z.eqb_neq h 1)) by lia.
  destruct (Z.eqb_spec (na (h - 1) (k * 2 ^ sh + d)) NULL) as [E0|Hc].
  - apply wp_ret. rewrite E0. auto.
  - apply wp_bind. apply wp_node_full; [exact Hc|].
    rewrite (full_iff sh Hsh st N na lag0 _ _ Hinv Hdc Hc) by reflexivity.
    rewrite (proj2 (Z.leb_gt _ _)) by lia. apply wp_ret. auto.
Qed.

Lemma descend_spec (fuel : nat) : forall st N na h node o tmp,
  Inv sh st N na lag0 -> 1 <= h <= r_height (rt st) -> N < W sh (r_height (rt st)) ->
  node = na h (N / W sh h) -> node <> NULL -> h <= Z.of_nat fuel ->
  o = (N / W sh (h - 1)) mod 2 ^ sh ->
  wp (enter_descend fuel node N ((h - 1) * sh) o tmp) (desc_post sh N) (inv_post sh N) st.
Proof.
  induction fuel as [|f IH]; intros st N na h node o tmp Hinv Hh HN Hnode Hp Hf Ho; [lia|].
  pose proof (S_ge2 sh Hsh) as HS.
  pose proof (i_N _ _ _ _ _ Hinv) as HN0.
  cbn [enter_descend].
  destruct (Z.eq_dec h 1) as [->|Hh2].
  - rewrite Z.sub_diag, Z.mul_0_l. simpl. apply wp_ret.
    exists na. rewrite W_0, Z.div_1_r in Ho. rewrite W_1 in Hnode.
    split; [exact Hinv|]. split; [lia|]. repeat split; auto.
  - rewrite (proj2 (Z.gtb_lt _ _)) by nia.
    set (k := N / W sh h).
    assert (Hr : k * W sh h <= N < (k + 1) * W sh h) by (apply (div_range_inv sh Hsh); lia).
    set (d := (N - k * W sh h) / W sh (h - 1)).
    assert (Hod : o = d) by (rewrite Ho; apply digit_mod; auto; lia).
    destruct (digit sh Hsh h k N ltac:(lia) Hr) as [Hdig Hd0]. fold d in Hdig, Hd0.
    rewrite Hod. subst node.
    eapply wp_seq; [apply (enter_scan_spec (S f) st N na h k tmp); auto; lia|].
    intros r s [-> ->]. simpl. rewrite Z.eqb_refl.
    change (N / W sh h) with k. fold d. rewrite <- Hdig.
    assert (Hnext : forall s na' c, Inv sh s N na' lag0 -> r_height (rt s) = r_height (rt st) ->
      c = na' (h - 1) (N / W sh (h - 1)) -> c <> NULL ->
      wp (enter_descend f c N ((h - 1) * sh - sh)
            (Z.land (Z.shiftr N ((h - 1) * sh - sh)) (2 ^ sh - 1)) c)
         (desc_post sh N) (inv_post sh N) s).
    { intros s na' c Hi Hhs Hc Hc0.
      replace ((h - 1) * sh - sh) with ((h - 1 - 1) * sh) by ring.
      apply (IH s N na' (h - 1)); auto; try lia; [rewrite Hhs; exact HN|].
      rewrite land_mask, (Z.mul_comm (h - 1 - 1) sh), (shiftr_W sh Hsh) by lia. reflexivity. }
    assert (Hd : dom sh (r_height (rt st)) h k) by (apply (dom_index sh Hsh); lia).
    destruct (Z.eqb_spec (na (h - 1) (N / W sh (h - 1))) NULL) as [Ec|Hc].
    + apply wp_bind. apply wp_bind.
      apply wp_alloc; [apply (i_pool _ _ _ _ _ Hinv)| |].
      * intros _. apply wp_throw. exists na. exact Hinv.
      * intros b Hb. cbv beta.
        assert (Ht0 : next_fresh st <> NULL) by (pose proof (i_fresh0 _ _ _ _ _ Hinv); unfold NULL; lia).
        rewrite (proj2 (Z.eqb_neq _ _) Ht0).
        repeat (wp_step; try exact Ht0; try exact Hp). simpl.
        rewrite (i_shift _ _ _ _ _ Hinv), (i_mask _ _ _ _ _ Hinv), Z.div_mul by lia.
        rewrite Hdig in Ec.
        destruct (Inv_add_child sh Hsh st N na h k d (next_fresh st) b Hinv Hd ltac:(lia) Hp Hr
                    eq_refl Ec eq_refl Hb) as [Hi Hnew].
        eapply Hnext; [exact Hi|reflexivity| |exact Ht0].
        rewrite Hdig. symmetry. exact Hnew.
    + apply wp_bind. apply wp_ret. apply wp_bind. wp_step.
      rewrite (i_shift _ _ _ _ _ Hinv), (i_mask _ _ _ _ _ Hinv).
      apply (Hnext st na); auto.
Qed.

End Descend.


Section Fill.
Variable sh : Z.
Hypothesis Hsh : 1 <= sh <= 31.

Lemma fullsF_full N lo h : 2 <= h -> lo + W sh h <= N -> fullsF sh N lo h = 2 ^ sh.
Proof.
  intros Hh Hle. unfold fullsF. apply Z.min_l.
  pose proof (W_pred sh Hsh h ltac:(lia)). pose proof (W_pos sh Hsh (h - 1) ltac:(lia)).
  apply Z.div_le_lower_bound; lia.
Qed.

Lemma anc_F N h : 2 <= h -> 0 <= N ->
  fullsF sh N (N / W sh h * W sh h) h = (N - N / W sh h * W sh h) / W sh (h - 1)
  /\ (N - N / W sh h * W sh h) / W sh (h - 1) < 2 ^ sh
  /\ N / W sh (h - 1) = N / W sh h * 2 ^ sh + (N - N / W sh h * W sh h) / W sh (h - 1).
Proof.
  intros Hh HN.
  pose proof (div_range_inv sh Hsh N h ltac:(lia)) as Hr.
  destruct (digit sh Hsh h (N / W sh h) N ltac:(lia) Hr) as [E1 E2].
  unfold fullsF. rewrite Z.min_r by lia. split; [reflexivity|]. split; [lia|exact E1].
Qed.

Lemma F_step N N' lo h : 2 <= h -> lo <= N <= N' -> N' - N <= W sh (h - 1) ->
  fullsF sh N lo h <= fullsF sh N' lo h <= fullsF sh N lo h + 1.
Proof.
  intros Hh HN Hd. unfold fullsF. pose proof (W_pos sh Hsh (h - 1) ltac:(lia)) as Hw.
  assert ((N - lo) / W sh (h - 1) <= (N' - lo) / W sh (h - 1)) by (apply Z.div_le_mono; lia).
  assert ((N' - lo) / W sh (h - 1) <= (N - lo) / W sh (h - 1) + 1).
  { transitivity ((N - lo + 1 * W sh (h - 1)) / W sh (h - 1)).
    - apply Z.div_le_mono; lia.
    - rewrite Z.div_add by lia. lia. }
  lia.
Qed.

(** A multiple of [W h] in the leaf range [[N / S * S, N / S * S + S)] at
    or above [N] is [N] itself. *)
Lemma lo_in_leaf N h k : 1 <= h -> 0 <= N -> N <= k * W sh h < N / 2 ^ sh * 2 ^ sh + 2 ^ sh ->
  k * W sh h = N.
Proof.
  intros Hh HN Hk. pose proof (S_ge2 sh Hsh).
  rewrite (W_pred sh Hsh h) in * by lia.
  set (a := k * W sh (h - 1)).
  replace (k * (W sh (h - 1) * 2 ^ sh)) with (a * 2 ^ sh) in * by (unfold a; ring).
  pose proof (Z.mul_div_le N (2 ^ sh) ltac:(lia)).
  pose proof (Z.mod_pos_bound N (2 ^ sh) ltac:(lia)).
  pose proof (Z.div_mod N (2 ^ sh) ltac:(lia)).
  assert (a = N / 2 ^ sh) by nia. subst a. nia.
Qed.

(** After the leaf loop, [count] and [root->min] updated: the indices
    [N .. N + m - 1] are in use, the ancestors' [fulls] not yet. *)
Lemma Inv_fill st st_f N na m items :
  Inv sh st N na lag0 -> 1 <= r_height (rt st) -> N < W sh (r_height (rt st)) ->
  na 1 (N / 2 ^ sh) <> NULL -> 0 <= m -> N mod 2 ^ sh + m <= 2 ^ sh -> N + m <= 2 ^ 30 ->
  fill_post (na 1 (N / 2 ^ sh)) (N mod 2 ^ sh) N 0 m items st st_f ->
  Inv sh (set_rt (set_hp st_f (h_set_count (hp st_f) (na 1 (N / 2 ^ sh)) (N mod 2 ^ sh + m)))
            (with_min (rt st_f) (N + m)))
      (N + m) na (lagU sh N (N + m) 1).
Proof.
  intros Hinv HH HN HL Hm Hdm HN' Hf.
  destruct Hf as (P1 & P2 & P3 & P4 & P5 & P6 & P7 & P8 & P9 & P10 & P11 & P12).
  pose proof (S_ge2 sh Hsh) as HS.
  pose proof (i_N _ _ _ _ _ Hinv) as HN0.
  assert (HNd : N = N / 2 ^ sh * 2 ^ sh + N mod 2 ^ sh)
    by (pose proof (Z.div_mod N (2 ^ sh) ltac:(lia)); lia).
  assert (Hd0 : 0 <= N mod 2 ^ sh < 2 ^ sh) by (apply Z.mod_pos_bound; lia).
  assert (HdL : dom sh (r_height (rt st)) 1 (N / 2 ^ sh)).
  { pose proof (dom_index sh Hsh (r_height (rt st)) 1 N ltac:(lia) ltac:(lia)) as E.
    rewrite W_1 in E. exact E. }
  assert (Hanc : forall h, 1 <= h <= r_height (rt st) -> na h (N / W sh h) <> NULL).
  { intros h Hh. pose proof (chain_present sh Hsh st N na lag0 N Hinv ltac:(lia) HL
                               (Z.to_nat (h - 1)) ltac:(lia)) as E.
    replace (1 + Z.of_nat (Z.to_nat (h - 1))) with h in E by lia. exact E. }
  set (L := na 1 (N / 2 ^ sh)) in *.
  set (d := N mod 2 ^ sh) in *.
  assert (HcL : count (hp st) L = d).
  { destruct (l_node _ _ _ _ _ _ _ _ (i_loc _ _ _ _ _ Hinv _ _ HdL) HL) as [_ _ _ _ Hc _].
    unfold L. rewrite Hc. simpl. rewrite W_1. lia. }
  set (st1 := set_rt _ _).
  assert (Fh : forall q, height (hp st1) q = height (hp st) q) by (intros; simpl; rewrite P6; reflexivity).
  assert (Ff : forall q, fulls (hp st1) q = fulls (hp st) q) by (intros; simpl; rewrite P8; reflexivity).
  assert (Fp : forall q, parent (hp st1) q = parent (hp st) q) by (intros; simpl; rewrite P9; reflexivity).
  assert (Fc : forall q, count (hp st1) q = if q =? L then d + m else count (hp st) q).
  { intros; simpl; unfold upd; rewrite P7; reflexivity. }
  assert (Fs : forall q o, stores (hp st1) q o =
            if (q =? L) && (d + 0 <=? o) && (o <? d + m)
            then nth (Z.to_nat (o - d)) items NULL else stores (hp st) q o).
  { intros; simpl; apply P10. }
  assert (Fi : forall x, item_at (assigned st1) x =
            if (N + 0 <=? x) && (x <? N + m) then nth (Z.to_nat (x - N)) items NULL
            else item_at (assigned st) x) by (intros; simpl; apply P12).
  assert (Ert : rt st1 = with_min (rt st) (N + m)) by (simpl; rewrite P1; reflexivity).
  assert (Epool : free_pool st1 = []) by (simpl; rewrite P3; apply (i_pool _ _ _ _ _ Hinv)).
  assert (Efr : next_fresh st1 = next_fresh st) by (simpl; apply P2).
  assert (Elog : idxs (assigned st1) = down (Z.to_nat (N + m))) by (simpl; apply P11).
  clearbody st1.
  constructor; rewrite ?Ert, ?Efr; simpl.
  - apply (i_shift _ _ _ _ _ Hinv).
  - apply (i_size _ _ _ _ _ Hinv).
  - apply (i_mask _ _ _ _ _ Hinv).
  - reflexivity.
  - exact Epool.
  - lia.
  - exact Elog.
  - right. split; [exact HH|]. pose proof (dom_upper sh Hsh _ 1 (N / 2 ^ sh) HdL) as Hu.
    rewrite W_1 in Hu. split; [lia|].
    destruct (i_H _ _ _ _ _ Hinv) as [[E0 _]|(_ & _ & [E1|E1])]; [lia|left; exact E1|right; lia].
  - apply (i_rnode _ _ _ _ _ Hinv).
  - intros h k Hd. pose proof (i_loc _ _ _ _ _ Hinv h k Hd) as Hl.
    pose proof (W_pos sh Hsh h ltac:(destruct Hd; lia)) as HWh.
    destruct Hl as [Hl1 Hl2 Hl3 Hl4]. constructor.
    + intros Hlt. destruct (Z.lt_ge_cases (k * W sh h) N) as [Hlt'|Hge]; [auto|].
      assert (E : k * W sh h = N) by (apply (lo_in_leaf N h k); destruct Hd; lia).
      assert (Ek : k = N / W sh h) by (rewrite <- E, Z.div_mul; lia).
      rewrite Ek. apply Hanc. destruct Hd; lia.
    + intros Hgt. apply Hl2. lia.
    + exact Hl3.
    + intros Hp. pose proof (Hl4 Hp) as Hn.
      assert (Hlo : k * W sh h <= N)
        by (apply (loc_lo sh st N (r_height (rt st)) na lag0 h k); [constructor|]; auto).
      destruct (Z.eq_dec k (N / W sh h)) as [Ek|Hne];
        [destruct (Z.eq_dec h 1) as [->|Hh1]|].
      * (* the leaf *)
        rewrite W_1 in Ek. subst k. fold L.
        destruct Hn as [Hup Hht Hpar Hfl Hcnt Hst]. fold L in Hht, Hpar, Hfl, Hcnt, Hst. constructor; fold L.
        -- exact Hup.
        -- rewrite Fh. exact Hht.
        -- rewrite Fp. exact Hpar.
        -- rewrite Ff, Hfl. reflexivity.
        -- rewrite Fc, Z.eqb_refl. simpl. rewrite W_1. lia.
        -- intros o Ho. rewrite Fs, Z.eqb_refl, Hst by auto. rewrite Fi. simpl. rewrite !W_1.
           replace (Z.to_nat (N / 2 ^ sh * 2 ^ sh + o - N)) with (Z.to_nat (o - d)) by (f_equal; lia).
           zcase; reflexivity.
      * (* an ancestor of the leaf *)
        subst k. pose proof Hd as (Hh & Hk & Hlt).
        destruct (anc_F N h ltac:(lia) ltac:(lia)) as (EF & HF & Hdig).
        set (lo := N / W sh h * W sh h) in *.
        set (F := (N - lo) / W sh (h - 1)) in *.
        pose proof (W_pos sh Hsh (h - 1) ltac:(lia)) as HWp.
        assert (HSW : 2 ^ sh <= W sh (h - 1)) by (rewrite <- (W_1 sh); apply (W_mono sh Hsh); lia).
        assert (HF0 : 0 <= F) by (apply Z.div_pos; lia).
        destruct (F_step N (N + m) lo h ltac:(lia) ltac:(lia) ltac:(lia)) as [Fs1 Fs2].
        rewrite EF in Fs1, Fs2.
        assert (HpL : na h (N / W sh h) <> L).
        { intros E. destruct (i_inj _ _ _ _ _ Hinv h (N / W sh h) 1 (N / 2 ^ sh) Hd HdL E Hp).
          lia. }
        assert (Hc1 : na (h - 1) (N / W sh (h - 1)) <> NULL) by (apply Hanc; lia).
        rewrite Hdig in Hc1.
        destruct Hn as [Hup Hht Hpar Hfl Hcnt Hst]. constructor.
        -- exact Hup.
        -- rewrite Fh. exact Hht.
        -- rewrite Fp. exact Hpar.
        -- rewrite Ff, Hfl. rewrite (proj2 (Z.eqb_neq h 1)) by lia.
           unfold lagU, lag0. rewrite (proj2 (Z.ltb_lt 1 h)) by lia. rewrite Z.eqb_refl. simpl.
           fold lo. rewrite EF. lia.
        -- rewrite Fc. rw_neq. rewrite Hcnt. rewrite (proj2 (Z.eqb_neq h 1)) by lia.
           fold lo. rewrite EF. rewrite (proj2 (Z.ltb_lt F _)) by lia.
           rewrite (proj2 (Z.eqb_neq _ _) Hc1). simpl.
           destruct (Z.eq_dec (fullsF sh (N + m) lo h) F) as [E1|E1]; rewrite ?E1.
           ++ rewrite (proj2 (Z.ltb_lt F _)) by lia.
              rewrite (proj2 (Z.eqb_neq _ _) Hc1). reflexivity.
           ++ assert (E2 : fullsF sh (N + m) lo h = F + 1) by lia. rewrite E2.
              destruct (Z.ltb_spec (F + 1) (2 ^ sh)) as [Hlt1|Hge1]; [|simpl; lia].
              assert (Hdc : dom sh (r_height (rt st)) (h - 1) (N / W sh h * 2 ^ sh + (F + 1))).
              { apply (dom_child sh Hsh); [split; [lia|]; split; lia|lia|lia]. }
              assert (Hgt : N < (N / W sh h * 2 ^ sh + (F + 1)) * W sh (h - 1)).
              { pose proof (W_pred sh Hsh h ltac:(lia)) as HW.
                pose proof (Z.mod_pos_bound (N - lo) (W sh (h - 1)) HWp) as Hm1.
                pose proof (Z.div_mod (N - lo) (W sh (h - 1)) ltac:(lia)) as Hm2.
                change ((N - lo) / W sh (h - 1)) with F in Hm2.
                assert (Elo : lo = N / W sh h * 2 ^ sh * W sh (h - 1)) by (unfold lo; rewrite HW; ring).
                clearbody lo F. nia. }
              rewrite (l_gt _ _ _ _ _ _ _ _ (i_loc _ _ _ _ _ Hinv _ _ Hdc) Hgt).
              rewrite Z.eqb_refl. simpl. lia.
        -- intros o Ho. rewrite Fs. rw_neq. simpl. rewrite Hst by exact Ho.
           rewrite (proj2 (Z.eqb_neq h 1)) by lia. reflexivity.
      * (* a node below [N] *)
        pose proof Hd as (Hh & Hk & Hlt).
        assert (Hfull : k * W sh h + W sh h <= N).
        { destruct (Z.le_gt_cases (k * W sh h + W sh h) N) as [?|Hgt]; [lia|].
          exfalso. apply Hne. symmetry. apply (div_range sh Hsh); lia. }
        assert (HpL : na h k <> L).
        { intros E. destruct (i_inj _ _ _ _ _ Hinv h k 1 (N / 2 ^ sh) Hd HdL E Hp) as [-> ->].
          apply Hne. rewrite W_1. reflexivity. }
        assert (Hlag : lagU sh N (N + m) 1 h k = 0).
        { unfold lagU. rewrite (proj2 (Z.eqb_neq _ _) Hne), andb_false_r. reflexivity. }
        destruct Hn as [Hup Hht Hpar Hfl Hcnt Hst]. constructor.
        -- exact Hup.
        -- rewrite Fh. exact Hht.
        -- rewrite Fp. exact Hpar.
        -- rewrite Ff, Hfl, Hlag. unfold lag0.
           destruct (Z.eqb_spec h 1); [reflexivity|].
           rewrite !fullsF_full by lia. reflexivity.
        -- rewrite Fc. rw_neq. rewrite Hcnt.
           destruct (Z.eqb_spec h 1) as [->|].
           ++ rewrite W_1 in *. rewrite !Z.min_l by lia. reflexivity.
           ++ rewrite !fullsF_full by lia. reflexivity.
        -- intros o Ho. rewrite Fs. rw_neq. simpl. rewrite Hst by exact Ho.
           destruct (Z.eqb_spec h 1) as [->|]; [|reflexivity].
           rewrite W_1 in *. rewrite Fi.
           rewrite (proj2 (Z.ltb_lt _ N)) by lia. rewrite (proj2 (Z.ltb_lt _ (N + m))) by lia.
           rewrite (proj2 (Z.leb_gt (N + 0) _)) by lia. reflexivity.
  - apply (i_inj _ _ _ _ _ Hinv).
  - apply (i_fresh0 _ _ _ _ _ Hinv).
  - apply (i_fresh _ _ _ _ _ Hinv).
Qed.

End Fill.


Section Up.
Variable sh : Z.
Hypothesis Hsh : 1 <= sh <= 31.

(** Setting the [fulls] of one inner node to what its new [lag] asks. *)
Lemma Inv_set_fulls st N na lag lag' h0 k0 v :
  Inv sh st N na lag -> dom sh (r_height (rt st)) h0 k0 -> na h0 k0 <> NULL -> 2 <= h0 ->
  (forall h k, dom sh (r_height (rt st)) h k -> ~ (h = h0 /\ k = k0) -> lag' h k = lag h k) ->
  v = fullsF sh N (k0 * W sh h0) h0 - lag' h0 k0 ->
  Inv sh (set_hp st (h_set_fulls (hp st) (na h0 k0) v)) N na lag'.
Proof.
  intros Hinv Hd0 Hp0 Hh0 Hlag Hv.
  pose proof Hinv as [A1 A2 A3 A4 A5 A6 A7 A8 A9 Aloc A11 A12 A13].
  constructor; simpl; auto.
  intros h k Hd. pose proof (Aloc h k Hd) as Hl.
  constructor; try apply Hl. intros Hp. pose proof (l_node _ _ _ _ _ _ _ _ Hl Hp) as Hn.
  destruct (pair_dec h h0 k k0) as [[-> ->]|Hne].
  - destruct Hn as [Hup Hht Hpar Hfl Hcnt Hst]. constructor; simpl; auto.
    unfold upd. rewrite Z.eqb_refl, (proj2 (Z.eqb_neq h0 1)) by lia. exact Hv.
  - assert (Hpq : na h k <> na h0 k0).
    { intros E. apply Hne. apply (i_inj _ _ _ _ _ Hinv); auto. }
    apply (node_at_frame sh Hsh st _ N (r_height (rt st)) na na lag lag'); auto.
    + destruct Hd; lia.
    + exact (loc_lo sh st N _ na lag h k Hl Hp).
    + simpl. unfold upd. rw_neq. reflexivity.
Qed.

Lemma div_W_same a b x y : 0 <= a <= b -> 0 <= x -> 0 <= y ->
  x / W sh a = y / W sh a -> x / W sh b = y / W sh b.
Proof.
  intros Hab Hx Hy E.
  replace b with (a + (b - a)) by lia. rewrite W_add by lia.
  pose proof (W_pos sh Hsh a ltac:(lia)). pose proof (W_pos sh Hsh (b - a) ltac:(lia)).
  rewrite <- !Z.div_div by lia. rewrite E. reflexivity.
Qed.

(** The parent of a full node on the chain of [N] gets its [fulls]
    incremented: the walk moves up one height. *)
Lemma Inv_up_step st N N' na hx :
  Inv sh st N' na (lagU sh N N' hx) -> 1 <= hx < r_height (rt st) ->
  0 <= N <= N' -> N' - N <= 2 ^ sh -> N < W sh (r_height (rt st)) ->
  na 1 (N / 2 ^ sh) <> NULL ->
  N / W sh hx * W sh hx + W sh hx <= N' ->
  fulls (hp st) (na (hx + 1) (N / W sh (hx + 1))) + 1
    = fullsF sh N' (N / W sh (hx + 1) * W sh (hx + 1)) (hx + 1)
  /\ 0 <= fulls (hp st) (na (hx + 1) (N / W sh (hx + 1))) + 1 <= 2 ^ sh
  /\ Inv sh (set_hp st (h_set_fulls (hp st) (na (hx + 1) (N / W sh (hx + 1)))
                          (fulls (hp st) (na (hx + 1) (N / W sh (hx + 1))) + 1)))
       N' na (lagU sh N N' (hx + 1)).
Proof.
  intros Hinv Hhx HN HNd HNH HL Hfull.
  pose proof (S_ge2 sh Hsh) as HS.
  assert (Hdp : dom sh (r_height (rt st)) (hx + 1) (N / W sh (hx + 1)))
    by (apply (dom_index sh Hsh); lia).
  assert (Hpp : na (hx + 1) (N / W sh (hx + 1)) <> NULL).
  { pose proof (chain_present sh Hsh st N' na _ N Hinv ltac:(lia) HL (Z.to_nat hx) ltac:(lia)) as E.
    replace (1 + Z.of_nat (Z.to_nat hx)) with (hx + 1) in E by lia. exact E. }
  destruct (anc_F sh Hsh N (hx + 1) ltac:(lia) ltac:(lia)) as (EF & HF & Hdig).
  replace (hx + 1 - 1) with hx in EF, HF, Hdig by lia.
  set (lo := N / W sh (hx + 1) * W sh (hx + 1)) in *.
  set (F := (N - lo) / W sh hx) in *.
  pose proof (W_pos sh Hsh hx ltac:(lia)) as HWp.
  assert (HSW : 2 ^ sh <= W sh hx) by (rewrite <- (W_1 sh); apply (W_mono sh Hsh); lia).
  assert (HF0 : 0 <= F).
  { unfold F, lo. apply Z.div_pos; [|lia].
    pose proof (div_range_inv sh Hsh N (hx + 1) ltac:(lia)). lia. }
  assert (Hlo : lo <= N) by (unfold lo; pose proof (div_range_inv sh Hsh N (hx + 1) ltac:(lia)); lia).
  destruct (F_step sh Hsh N N' lo (hx + 1) ltac:(lia) ltac:(lia)) as [Fs1 Fs2];
    [replace (hx + 1 - 1) with hx by lia; lia|].
  rewrite EF in Fs1, Fs2.
  assert (EF' : fullsF sh N' lo (hx + 1) = F + 1).
  { assert (F + 1 <= fullsF sh N' lo (hx + 1)); [|lia].
    unfold fullsF. replace (hx + 1 - 1) with hx by lia. apply Z.min_glb; [lia|].
    apply Z.div_le_lower_bound; [lia|].
    assert (Elo : lo = N / W sh (hx + 1) * 2 ^ sh * W sh hx)
      by (unfold lo; rewrite (W_succ sh Hsh hx) by lia; ring).
    rewrite Hdig in Hfull. clearbody lo F. nia. }
  assert (Hfl : fulls (hp st) (na (hx + 1) (N / W sh (hx + 1))) = F).
  { destruct (l_node _ _ _ _ _ _ _ _ (i_loc _ _ _ _ _ Hinv _ _ Hdp) Hpp) as [_ _ _ Hf _ _].
    rewrite Hf. rewrite (proj2 (Z.eqb_neq (hx + 1) 1)) by lia.
    unfold lagU. rewrite (proj2 (Z.ltb_lt hx (hx + 1))) by lia. rewrite Z.eqb_refl. simpl.
    fold lo. rewrite EF. lia. }
  rewrite Hfl. split; [|split]; [lia|lia|].
  apply (Inv_set_fulls st N' na (lagU sh N N' hx)); auto; [lia| |].
  - intros h k Hd Hne. unfold lagU.
    destruct (Z.eq_dec h (hx + 1)) as [->|Hh].
    + destruct (Z.eqb_spec k (N / W sh (hx + 1))); [tauto|].
      rewrite !andb_false_r. reflexivity.
    + destruct (Z.ltb_spec hx h); destruct (Z.ltb_spec (hx + 1) h); try lia; reflexivity.
  - unfold lagU. rewrite Z.ltb_irrefl. simpl. fold lo. lia.
Qed.

(** A node on the chain that is not full ends the walk: no [lag] is left. *)
Lemma Inv_up_done st N N' na hx :
  Inv sh st N' na (lagU sh N N' hx) -> 1 <= hx ->
  0 <= N <= N' -> N' < N / W sh hx * W sh hx + W sh hx ->
  Inv sh st N' na lag0.
Proof.
  intros Hinv Hhx HN Hnf.
  apply (Inv_lag_ext sh Hsh st N' na (lagU sh N N' hx)); auto.
  intros h k Hd. unfold lagU, lag0.
  destruct (Z.ltb_spec hx h); [|reflexivity].
  destruct (Z.eqb_spec k (N / W sh h)) as [->|]; [|reflexivity]. simpl.
  assert (Ex : N' / W sh hx = N / W sh hx).
  { apply (div_range sh Hsh); [lia|].
    pose proof (div_range_inv sh Hsh N hx ltac:(lia)). lia. }
  assert (Eh : N' / W sh (h - 1) = N / W sh (h - 1)) by (apply (div_W_same hx (h - 1)); lia).
  pose proof (W_pos sh Hsh (h - 1) ltac:(lia)).
  assert (Hq : forall x, (x - N / W sh h * W sh h) / W sh (h - 1)
                         = x / W sh (h - 1) - N / W sh h * 2 ^ sh).
  { intros x. set (q := N / W sh h). rewrite (W_pred sh Hsh h) by lia.
    replace (x - q * (W sh (h - 1) * 2 ^ sh)) with (x + - (q * 2 ^ sh) * W sh (h - 1)) by ring.
    rewrite Z.div_add by lia. ring. }
  unfold fullsF. rewrite !Hq, Eh. lia.
Qed.

Lemma up_spec fuel : forall st N N' na hx E,
  Inv sh st N' na (lagU sh N N' hx) -> 1 <= hx <= r_height (rt st) ->
  0 <= N <= N' -> N' - N <= 2 ^ sh -> N < W sh (r_height (rt st)) ->
  na 1 (N / 2 ^ sh) <> NULL -> r_height (rt st) - hx < Z.of_nat fuel ->
  wp (enter_up fuel (na hx (N / W sh hx))) (up_post sh N' na) E st.
Proof.
  induction fuel as [|f IH]; intros st N N' na hx E Hinv Hhx HN HNd HNH HL Hf; [lia|].
  pose proof (S_ge2 sh Hsh) as HS.
  assert (Hdx : dom sh (r_height (rt st)) hx (N / W sh hx)) by (apply (dom_index sh Hsh); lia).
  assert (Hpx : na hx (N / W sh hx) <> NULL).
  { pose proof (chain_present sh Hsh st N' na _ N Hinv ltac:(lia) HL (Z.to_nat (hx - 1)) ltac:(lia)) as E0.
    replace (1 + Z.of_nat (Z.to_nat (hx - 1))) with hx in E0 by lia. exact E0. }
  pose proof (l_node _ _ _ _ _ _ _ _ (i_loc _ _ _ _ _ Hinv _ _ Hdx) Hpx) as Hn.
  simpl. apply wp_bind. apply wp_node_full; [exact Hpx|].
  rewrite (full_iff sh Hsh st N' na _ hx (N / W sh hx) Hinv Hdx Hpx)
    by (unfold lagU; rewrite Z.ltb_irrefl; reflexivity).
  destruct (Z.leb_spec (N / W sh hx * W sh hx + W sh hx) N') as [Hfull|Hnf].
  - apply wp_bind. apply wp_rd; [exact Hpx|].
    rewrite (n_parent _ _ _ _ _ _ _ _ Hn).
    destruct (Z.eqb_spec hx (r_height (rt st))) as [Eh|Hh].
    + apply wp_ret. split.
      * apply (Inv_lag_ext sh Hsh st N' na (lagU sh N N' hx)); auto.
        intros h k Hd. unfold lagU, lag0. destruct (Z.ltb_spec hx h); [destruct Hd; lia|reflexivity].
      * left. split; [reflexivity|].
        destruct (i_H _ _ _ _ _ Hinv) as [[E0 _]|(_ & HN' & _)]; [lia|].
        pose proof (div_range_inv sh Hsh N hx ltac:(lia)). rewrite Eh in *.
        assert (N / W sh (r_height (rt st)) = 0) by (apply Z.div_small; lia).
        nia.
    + rewrite <- (div_W_succ sh Hsh N hx) by lia.
      destruct (Inv_up_step st N N' na hx Hinv ltac:(lia) HN HNd HNH HL Hfull)
        as (Ev & Hv & Hinv').
      assert (Hpp : na (hx + 1) (N / W sh (hx + 1)) <> NULL).
      { pose proof (n_up _ _ _ _ _ _ _ _ Hn ltac:(lia)) as Hu.
        rewrite <- (div_W_succ sh Hsh N hx) in Hu by lia. exact Hu. }
      rewrite (proj2 (Z.eqb_neq _ _) Hpp).
      apply wp_bind. apply wp_rd; [exact Hpp|].
      apply wp_bind. apply wp_wr; [exact Hpp|].
      rewrite (u32_id (fulls (hp st) (na (hx + 1) (N / W sh (hx + 1))) + 1))
        by (pose proof (S_le sh Hsh); change (2 ^ 32) with (2 * 2 ^ 31); lia).
      apply (IH _ N N' na (hx + 1) E Hinv'); simpl; lia || auto.
  - apply wp_ret. split.
    + apply (Inv_up_done st N N' na hx Hinv ltac:(lia) HN Hnf).
    + right. split; [exact Hpx|].
      assert (Ex : N' / W sh hx = N / W sh hx).
      { apply (div_range sh Hsh); [lia|].
        pose proof (div_range_inv sh Hsh N hx ltac:(lia)). lia. }
      split.
      * pose proof (dom_upper sh Hsh _ _ _ Hdx). lia.
      * exists hx. split; [lia|]. rewrite Ex. reflexivity.
Qed.

End Up.


Section Redo.
Variable sh : Z.
Hypothesis Hsh : 1 <= sh <= 31.

Lemma with_min_same r : with_min r (r_min r) = r.
Proof. destruct r; reflexivity. Qed.

Lemma set_rt_same s : set_rt s (rt s) = s.
Proof. destruct s; reflexivity. Qed.

Lemma redo_spec (fuel : nat) : forall st N na node items num,
  Inv sh st N na lag0 ->
  (node = NULL \/ node = r_rnode (rt st)
   \/ (N < W sh (r_height (rt st))
       /\ exists h, 1 <= h <= r_height (rt st) /\ node = na h (N / W sh h))) ->
  0 <= num <= Z.of_nat (length items) -> N + num <= 2 ^ 30 ->
  num + 2 ^ sh + 32 <= Z.of_nat fuel ->
  wp (enter_redo fuel node items num) (enter_post sh (N + num)) (enter_post sh (N + num)) st.
Proof.
  induction fuel as [|f IH]; intros st N na node items num Hinv HRP Hnum HB Hf; [lia|].
  pose proof (S_ge2 sh Hsh) as HS.
  pose proof (S_le sh Hsh) as HS31.
  cbn [enter_redo]. apply wp_bind. apply wp_get_rt. cbv beta.
  rewrite (i_min _ _ _ _ _ Hinv).
  apply wp_bind.
  lazymatch goal with
  | |- wp _ (fun _ _ => wp (bind _ ?K0) _ _ _) _ _ => set (K := K0)
  end.
  assert (Hround : forall st1 na1 h, Inv sh st1 N na1 lag0 ->
                1 <= h <= r_height (rt st1) -> N < W sh (r_height (rt st1)) ->
                na1 h (N / W sh h) <> NULL ->
                wp (K (na1 h (N / W sh h))) (enter_post sh (N + num)) (enter_post sh (N + num)) st1).
  { intros st1 na1 h Hinv1 Hh HNH Hp. unfold K. clear K.
    pose proof (H_bound sh Hsh _ _ _ _ Hinv1) as (HH0 & HHs & HH31).
    pose proof (i_N _ _ _ _ _ Hinv1) as HN1.
    assert (Hd1 : dom sh (r_height (rt st1)) h (N / W sh h)) by (apply (dom_index sh Hsh); lia).
    pose proof (l_node _ _ _ _ _ _ _ _ (i_loc _ _ _ _ _ Hinv1 _ _ Hd1) Hp) as Hn1.
    apply wp_bind. apply wp_rd; [exact Hp|]. rewrite (n_height _ _ _ _ _ _ _ _ Hn1).
    apply wp_bind. apply wp_get_rt. cbv beta.
    rewrite (i_shift _ _ _ _ _ Hinv1), (i_mask _ _ _ _ _ Hinv1).
    assert (sh * (h - 1) <= sh * (r_height (rt st1) - 1)) by (apply Z.mul_le_mono_nonneg_l; lia).
    rewrite (s32_id ((h - 1) * sh)) by (change (2 ^ 31) with 2147483648; nia).
    assert (Ho : Z.land (Z.shiftr N ((h - 1) * sh)) (2 ^ sh - 1) = (N / W sh (h - 1)) mod 2 ^ sh)
      by (rewrite Z.mul_comm, (shiftr_W sh Hsh), land_mask by lia; reflexivity).
    rewrite Ho.
    apply wp_seq with (P := desc_post sh N).
    { eapply wp_mono;
        [apply (descend_spec sh Hsh (S f) st1 N na1 h _ _ NULL Hinv1 Hh HNH eq_refl Hp
                  ltac:(lia) eq_refl)| |].
      - auto.
      - intros c s (na2 & Hinv2). exists N, na2. split; [exact Hinv2|lia]. }
    intros [[leaf idx] off] st2 (na2 & Hinv2 & HH2 & HNH2 & Eleaf & Hleaf & Eidx & Eoff).
    simpl in Eleaf, Hleaf, Eidx, Eoff. subst leaf idx off. cbv beta iota.
    pose proof (H_bound sh Hsh _ _ _ _ Hinv2) as (HH0' & HHs' & HH31').
    assert (HdL : dom sh (r_height (rt st2)) 1 (N / 2 ^ sh)).
    { pose proof (dom_index sh Hsh (r_height (rt st2)) 1 N ltac:(lia) ltac:(lia)) as E.
      rewrite W_1 in E. exact E. }
    pose proof (l_node _ _ _ _ _ _ _ _ (i_loc _ _ _ _ _ Hinv2 _ _ HdL) Hleaf) as Hn2.
    set (d := N mod 2 ^ sh).
    assert (HNd : N = N / 2 ^ sh * 2 ^ sh + d)
      by (unfold d; pose proof (Z.div_mod N (2 ^ sh) ltac:(lia)); lia).
    assert (Hd0 : 0 <= d < 2 ^ sh) by (apply Z.mod_pos_bound; lia).
    assert (Hcnt : count (hp st2) (na2 1 (N / 2 ^ sh)) = d).
    { rewrite (n_count _ _ _ _ _ _ _ _ Hn2). simpl. rewrite W_1. lia. }
    assert (Hnull : forall o, d + 0 <= o < 2 ^ sh -> stores (hp st2) (na2 1 (N / 2 ^ sh)) o = NULL).
    { intros o Ho'. rewrite (n_stores _ _ _ _ _ _ _ _ Hn2) by lia. simpl. rewrite W_1.
      rewrite (proj2 (Z.ltb_ge _ _)) by lia. reflexivity. }
    apply wp_bind. apply wp_rd; [exact Hleaf|]. rewrite (n_height _ _ _ _ _ _ _ _ Hn2).
    cbn [Z.eqb Pos.eqb negb]. cbv iota.
    set (m := Z.min (2 ^ sh - d) num).
    assert (Hm : 0 <= m <= num /\ d + m <= 2 ^ sh /\ (1 <= num -> 1 <= m)) by (unfold m; lia).
    apply wp_bind. eapply wp_mono.
    { apply (fill_spec (S f) (na2 1 (N / 2 ^ sh)) d N num items (enter_post sh (N + num)) 0 st2);
        rewrite ?(i_size _ _ _ _ _ Hinv2); auto; try lia.
      - rewrite (i_log _ _ _ _ _ Hinv2). rewrite Z.add_0_r. reflexivity. }
    2: { auto. }
    rewrite (i_size _ _ _ _ _ Hinv2). fold m.
    intros [i j] st3 [Eij Hfp]. injection Eij as -> ->. cbv beta iota.
    assert (Hfp' := Hfp). destruct Hfp' as (P1 & P2 & P3 & P4 & P5 & P6 & P7 & P8 & P9 & P10 & P11 & P12).
    apply wp_bind. apply wp_rd; [exact Hleaf|]. rewrite P7, Hcnt.
    apply wp_bind. apply wp_wr; [exact Hleaf|].
    rewrite (u32_id (d + m)) by (change (2 ^ 32) with (2 * 2 ^ 31); lia).
    apply wp_bind. unfold set_min. apply wp_bind. apply wp_get_rt. apply wp_put_rt.
    rewrite (u64_id (N + m)) by (change (2 ^ 64) with (2 ^ 34 * 2 ^ 30); lia).
    pose proof (Inv_fill sh Hsh st2 st3 N na2 m items Hinv2 HH2 HNH2 Hleaf ltac:(lia) ltac:(lia)
                  ltac:(lia) Hfp) as HinvF.
    apply wp_seq with (P := up_post sh (N + m) na2).
    { pose proof (up_spec sh Hsh (S f) _ N (N + m) na2 1 (enter_post sh (N + num)) HinvF) as Hup.
      rewrite W_1 in Hup. apply Hup; simpl; rewrite ?P1; simpl; lia || auto. }
    intros node1 st5 (Hinv5 & Hcase).
    pose proof (i_N _ _ _ _ _ Hinv5) as HN5.
    assert (Hnext : forall st6, Inv sh st6 (N + m) na2 lag0 ->
              (node1 = NULL \/ node1 = r_rnode (rt st6)
               \/ (N + m < W sh (r_height (rt st6))
                   /\ exists h, 1 <= h <= r_height (rt st6) /\ node1 = na2 h ((N + m) / W sh h))) ->
              wp (if negb (num - m =? 0)
                  then enter_redo f node1 (skipn (Z.to_nat m) items) (num - m)
                  else throw 0) (enter_post sh (N + num)) (enter_post sh (N + num)) st6).
    { intros st6 Hinv6 HRP6.
      destruct (Z.eqb_spec (num - m) 0) as [E0|E0]; simpl.
      - apply wp_throw. exists (N + m), na2. split; [exact Hinv6|lia].
      - replace (N + num) with (N + m + (num - m)) by lia.
        apply (IH st6 (N + m) na2); auto; try lia.
        rewrite length_skipn. lia. }
    destruct Hcase as [[-> EN5]|(Hn5 & HN5' & h5 & Hh5 & E5)].
    - rewrite Z.eqb_refl. apply wp_bind. apply wp_bind. apply wp_get_rt.
      unfold set_min. apply wp_bind. apply wp_get_rt. apply wp_put_rt.
      pose proof (H_bound sh Hsh _ _ _ _ Hinv5) as (HH0'' & _ & HH31'').
      rewrite (i_shift _ _ _ _ _ Hinv5).
      assert (Hsm : r_height (rt st5) * sh <= 30).
      { destruct (Z.le_gt_cases (r_height (rt st5) * sh) 30) as [|Hgt]; [assumption|].
        exfalso. pose proof (Z.pow_le_mono_r 2 31 (sh * r_height (rt st5)) ltac:(lia) ltac:(lia)).
        unfold W in EN5. change (2 ^ 31) with (2 * 2 ^ 30) in *. lia. }
      rewrite (u32_id (r_height (rt st5) * sh)) by (change (2 ^ 32) with 4294967296; nia).
      rewrite (int_shl1_pow (r_height (rt st5) * sh)) by nia.
      rewrite Z.mul_comm. change (2 ^ (sh * r_height (rt st5))) with (W sh (r_height (rt st5))).
      rewrite <- EN5. rewrite (u64_id (N + m)) by (change (2 ^ 64) with (2 ^ 34 * 2 ^ 30); lia).
      rewrite <- (i_min _ _ _ _ _ Hinv5), with_min_same, set_rt_same.
      cbv beta. apply Hnext; auto.
    - rewrite (proj2 (Z.eqb_neq _ _) Hn5). apply wp_bind. apply wp_ret. cbv beta.
      apply Hnext; auto. right. right. split; [exact HN5'|]. exists h5. auto. }
  assert (Hext : wp (if true then
                       error <- sradix_tree_extend (S f) N;;
                       if negb (error =? 0) then throw error else
                       r <- get_rt;; ret (r_rnode r)
                     else ret node)
                    (fun node st' => wp (K node) (enter_post sh (N + num)) (enter_post sh (N + num)) st')
                    (enter_post sh (N + num)) st).
  { cbv iota. apply wp_seq with (P := ext_post sh N).
    - eapply wp_mono; [apply (extend_spec sh Hsh (S f) st N na _ Hinv ltac:(lia))| |]; auto.
      intros c s Hc. exact Hc.
    - intros v st1 (na1 & Hinv1 & Hv).
      destruct (Z.eqb_spec v 0) as [->|Hv0]; simpl.
      + destruct (Hv eq_refl) as [Hr HNH1].
        apply wp_bind. apply wp_get_rt. apply wp_ret. cbv beta.
        assert (HH1 : r_height (rt st1) <> 0)
          by (intros E0; apply Hr; apply (proj2 (rnode_null sh Hsh _ _ _ _ Hinv1)); exact E0).
        assert (Er : r_rnode (rt st1) = na1 (r_height (rt st1)) (N / W sh (r_height (rt st1)))).
        { rewrite (i_rnode _ _ _ _ _ Hinv1). rewrite (proj2 (Z.eqb_neq _ 0) HH1).
          rewrite Z.div_small; [reflexivity|]. pose proof (i_N _ _ _ _ _ Hinv1). lia. }
        rewrite Er. apply Hround; auto; [|congruence].
        pose proof (H_bound sh Hsh _ _ _ _ Hinv1). lia.
      + apply wp_throw. exists N, na1. split; [exact Hinv1|lia]. }
  destruct (Z.eqb_spec node NULL) as [Hn0|Hn0].
  { apply wp_ret. cbv beta. apply wp_bind. exact Hext. }
  pose proof (i_N _ _ _ _ _ Hinv) as HN0.
  pose proof (H_bound sh Hsh _ _ _ _ Hinv) as (HH0 & HHs & HH31).
  assert (HH : 1 <= r_height (rt st)).
  { destruct (Z.eq_dec (r_height (rt st)) 0) as [E0|]; [|lia].
    pose proof (proj2 (rnode_null sh Hsh _ _ _ _ Hinv) E0) as Er.
    destruct HRP as [|[|(_ & h & Hh & _)]]; [contradiction|congruence|lia]. }
  rewrite (i_shift _ _ _ _ _ Hinv).
  rewrite (u32_id (sh * r_height (rt st))) by (change (2 ^ 32) with 4294967296; nia).
  rewrite (shiftr_W sh Hsh) by lia.
  assert (HNH : N <= W sh (r_height (rt st))).
  { destruct (i_H _ _ _ _ _ Hinv) as [[? _]|(_ & ? & _)]; lia. }
  pose proof (W_pos sh Hsh (r_height (rt st)) ltac:(lia)) as HWH.
  destruct (Z.eq_dec N (W sh (r_height (rt st)))) as [EN|HNlt].
  { replace (N / W sh (r_height (rt st))) with 1 by (rewrite EN, Z.div_same; lia). simpl. apply wp_ret. cbv beta. apply wp_bind. exact Hext. }
  rewrite (Z.div_small N) by lia. simpl.
  assert (Hdr : dom sh (r_height (rt st)) (r_height (rt st)) 0) by (split; [lia|]; split; lia).
  assert (Er : r_rnode (rt st) = na (r_height (rt st)) 0).
  { rewrite (i_rnode _ _ _ _ _ Hinv). rewrite (proj2 (Z.eqb_neq _ 0)) by lia. reflexivity. }
  assert (Hr : na (r_height (rt st)) 0 <> NULL)
    by (apply (l_top _ _ _ _ _ _ _ _ (i_loc _ _ _ _ _ Hinv _ _ Hdr)); reflexivity).
  rewrite Er. apply wp_node_full; [exact Hr|].
  rewrite (full_iff sh Hsh st N na lag0 _ 0 Hinv Hdr Hr eq_refl).
  rewrite (proj2 (Z.leb_gt _ _)) by lia. cbv beta iota.
  apply wp_bind. apply wp_ret.
  assert (Hnode : exists h, 1 <= h <= r_height (rt st) /\ node = na h (N / W sh h)).
  { destruct HRP as [|[E|(_ & h & Hh & E)]]; [contradiction| |exists h; auto].
    exists (r_height (rt st)). split; [lia|]. rewrite Z.div_small by lia. congruence. }
  destruct Hnode as (h & Hh & ->).
  apply Hround; auto; lia.
Qed.

End Redo.


Section Top.
Variable sh : Z.
Hypothesis Hsh : 1 <= sh <= 31.

Lemma Inv_empty b : Inv sh (empty_state sh b) 0 (fun _ _ => NULL) lag0.
Proof.
  pose proof (S_le sh Hsh) as HS31. pose proof (S_ge2 sh Hsh) as HS.
  assert (E1 : u32 (Z.shiftl 1 sh) = 2 ^ sh).
  { rewrite Z.shiftl_1_l. apply u32_id. change (2 ^ 32) with (2 * 2 ^ 31). lia. }
  constructor; simpl; auto.
  - rewrite E1, u32_id; [reflexivity|]. change (2 ^ 32) with (2 * 2 ^ 31). lia.
  - lia.
  - intros h k Hd. destruct Hd; lia.
  - intros h k h' k' Hd. destruct Hd; lia.
  - unfold NULL. lia.
  - intros h k Hd. destruct Hd; lia.
Qed.

Lemma enter_spec fuel st N na items num E :
  Inv sh st N na lag0 -> 0 <= num <= Z.of_nat (length items) -> N + num <= 2 ^ 30 ->
  num + 2 ^ sh + 32 <= Z.of_nat fuel ->
  wp (sradix_tree_enter fuel items num) (enter_post sh (N + num)) E st.
Proof.
  intros Hinv Hnum HB Hf. unfold sradix_tree_enter. apply wp_call.
  apply wp_bind. apply wp_get_rt.
  apply (redo_spec sh Hsh fuel st N na); auto.
Qed.

(** Entering batch after batch keeps the invariant, whatever the
    allocator does. *)
Lemma run_enter_spec fuel batches : forall st N na,
  Inv sh st N na lag0 -> N + Z.of_nat (length (concat batches)) <= 2 ^ 30 ->
  Z.of_nat (length (concat batches)) + 2 ^ sh + 32 <= Z.of_nat fuel ->
  exists st', run_ops fuel (map OpEnter batches) st = Some st'
              /\ exists N' na', Inv sh st' N' na' lag0.
Proof.
  induction batches as [|b bs IH]; intros st N na Hinv HB Hf.
  - exists st. split; [reflexivity|]. exists N, na. exact Hinv.
  - simpl in HB, Hf. rewrite length_app, Nat2Z.inj_add in HB, Hf.
    pose proof (enter_spec fuel st N na b (Z.of_nat (length b)) (enter_post sh (N + Z.of_nat (length b)))
                  Hinv ltac:(lia) ltac:(lia) ltac:(lia)) as Hw.
    simpl. unfold run_op. unfold wp in Hw.
    destruct (sradix_tree_enter fuel b (Z.of_nat (length b)) st) as [v s|c s|]; [| |contradiction];
      destruct Hw as (N' & na' & Hinv' & HN');
      pose proof (i_N _ _ _ _ _ Hinv') as HN0;
      apply (IH s N' na' Hinv'); lia.
Qed.

Lemma walk_spec fuel : forall st N na i h E,
  Inv sh st N na lag0 -> 1 <= h <= r_height (rt st) -> 0 <= i < W sh (r_height (rt st)) ->
  na h (i / W sh h) <> NULL -> h <= Z.of_nat fuel ->
  wp (lookup_walk fuel (na h (i / W sh h)) i ((h - 1) * sh))
     (fun r st' => st' = st /\ r = if i <? N then item_at (assigned st) i else NULL) E st.
Proof.
  induction fuel as [|f IH]; intros st N na i h E Hinv Hh Hi Hp Hf; [lia|].
  pose proof (S_ge2 sh Hsh) as HS.
  assert (Hd : dom sh (r_height (rt st)) h (i / W sh h)) by (apply (dom_index sh Hsh); lia).
  pose proof (l_node _ _ _ _ _ _ _ _ (i_loc _ _ _ _ _ Hinv _ _ Hd) Hp) as Hn.
  set (k := i / W sh h) in *.
  assert (Hr : k * W sh h <= i < (k + 1) * W sh h) by (apply (div_range_inv sh Hsh); lia).
  cbn [lookup_walk]. apply wp_bind. apply wp_get_rt. cbv beta.
  rewrite (i_mask _ _ _ _ _ Hinv), (i_shift _ _ _ _ _ Hinv).
  rewrite Z.mul_comm, (shiftr_W sh Hsh), land_mask by lia.
  assert (Ho : (i / W sh (h - 1)) mod 2 ^ sh = (i - k * W sh h) / W sh (h - 1))
    by (apply digit_mod; auto; lia).
  destruct (digit sh Hsh h k i ltac:(lia) Hr) as [Hdig Hd0].
  rewrite Ho, u32_id by (change (2 ^ 32) with (2 * 2 ^ 31); pose proof (S_le sh Hsh); lia).
  apply wp_bind. apply wp_rd; [exact Hp|].
  cbv beta. rewrite (n_stores _ _ _ _ _ _ _ _ Hn) by lia.
  destruct (Z.eq_dec h 1) as [->|Hh1].
  - rewrite Z.eqb_refl. rewrite W_1 in *. rewrite W_0, Z.div_1_r in *.
    replace (k * 2 ^ sh + (i - k * 2 ^ sh)) with i by ring.
    set (v := if i <? N then item_at (assigned st) i else NULL).
    destruct (Z.eqb_spec v NULL) as [E0|E0].
    + apply wp_ret. cbv beta. split; auto.
    + assert (Eg : (sh * (1 - 1) - sh >=? 0) = false) by (rewrite Z.geb_leb; apply Z.leb_gt; lia).
      rewrite Eg. apply wp_ret. cbv beta. split; reflexivity.
  - rewrite (proj2 (Z.eqb_neq h 1) Hh1). rewrite <- Hdig.
    destruct (Z.eqb_spec (na (h - 1) (i / W sh (h - 1))) NULL) as [E0|E0]; simpl.
    + apply wp_ret. cbv beta. split; [reflexivity|].
      assert (Hdc : dom sh (r_height (rt st)) (h - 1) (i / W sh (h - 1)))
        by (apply (dom_index sh Hsh); lia).
      destruct (Z.ltb_spec i N) as [HiN|]; [|reflexivity].
      exfalso. apply (l_lt _ _ _ _ _ _ _ _ (i_loc _ _ _ _ _ Hinv _ _ Hdc)); [|exact E0].
      pose proof (Z.mul_div_le i (W sh (h - 1)) ltac:(pose proof (W_pos sh Hsh (h - 1)); lia)).
      lia.
    + rewrite (proj2 (Z.geb_le _ _)) by nia.
      replace (sh * (h - 1) - sh) with ((h - 1 - 1) * sh) by ring.
      apply (IH st N na i (h - 1)); auto; lia.
Qed.

Lemma lookup_spec fuel st N na i :
  Inv sh st N na lag0 -> 0 <= i < 2 ^ 64 -> (32 <= fuel)%nat ->
  lookup fuel st i = Some (if i <? N then item_at (assigned st) i else NULL).
Proof.
  intros Hinv Hi Hf.
  pose proof (H_bound sh Hsh _ _ _ _ Hinv) as (HH0 & HHs & HH31).
  pose proof (i_N _ _ _ _ _ Hinv) as HN0.
  assert (Hw : wp (sradix_tree_lookup fuel i)
                  (fun r _ => r = if i <? N then item_at (assigned st) i else NULL)
                  (fun _ _ => False) st).
  { unfold sradix_tree_lookup. apply wp_bind. apply wp_get_rt. cbv beta.
    destruct (Z.eqb_spec (r_rnode (rt st)) NULL) as [Er|Er]; simpl.
    - apply wp_ret. apply (rnode_null sh Hsh _ _ _ _ Hinv) in Er.
      destruct (i_H _ _ _ _ _ Hinv) as [[_ ->]|[? _]]; [|lia].
      rewrite (proj2 (Z.ltb_ge i 0)) by lia. reflexivity.
    - assert (HH : 1 <= r_height (rt st)).
      { destruct (Z.eq_dec (r_height (rt st)) 0) as [E0|]; [|lia].
        exfalso. apply Er. apply (rnode_null sh Hsh _ _ _ _ Hinv). exact E0. }
      rewrite (i_shift _ _ _ _ _ Hinv).
      rewrite (u32_id (sh * r_height (rt st))) by (change (2 ^ 32) with 4294967296; nia).
      rewrite (shiftr_W sh Hsh) by lia.
      pose proof (W_pos sh Hsh (r_height (rt st)) ltac:(lia)) as HWH.
      assert (HNH : N <= W sh (r_height (rt st))).
      { destruct (i_H _ _ _ _ _ Hinv) as [[? _]|(_ & ? & _)]; lia. }
      destruct (Z.lt_ge_cases i (W sh (r_height (rt st)))) as [HiW|HiW].
      + rewrite (Z.div_small i) by lia. simpl.
        rewrite (s32_id ((r_height (rt st) - 1) * sh)) by (change (2 ^ 31) with 2147483648; nia).
        assert (Er' : r_rnode (rt st) = na (r_height (rt st)) (i / W sh (r_height (rt st)))).
        { rewrite (i_rnode _ _ _ _ _ Hinv), (proj2 (Z.eqb_neq _ 0)) by lia.
          rewrite Z.div_small by lia. reflexivity. }
        rewrite Er'. eapply wp_mono;
          [apply (walk_spec fuel st N na i (r_height (rt st)) (fun _ _ => False)); try (rewrite <- Er'; exact Er); auto; lia|..].
        * intros a s [_ Ea]. exact Ea.
        * auto.
      + assert (Hq : i / W sh (r_height (rt st)) <> 0).
        { intros E0. pose proof (Z.div_small_iff i (W sh (r_height (rt st))) ltac:(lia)) as [Hs _].
          destruct (Hs E0); lia. }
        rewrite (proj2 (Z.eqb_neq _ 0) Hq). simpl. apply wp_ret.
        rewrite (proj2 (Z.ltb_ge i N)) by lia. reflexivity. }
  unfold lookup. unfold wp in Hw.
  destruct (sradix_tree_lookup fuel i st); [rewrite Hw; reflexivity|contradiction|contradiction].
Qed.

(** The general statement of X13 and of the bounded part of C1. *)
Lemma enter_lookup_general budget fuel batches :
  Z.of_nat (length (concat batches)) <= 2 ^ 30 ->
  Z.of_nat (length (concat batches)) + 2 ^ sh + 40 <= Z.of_nat fuel ->
  exists st, run_ops fuel (map OpEnter batches) (empty_state sh budget) = Some st
    /\ (forall n i x, In (n, i, x) (assigned st) -> lookup fuel st i = Some x)
    /\ (forall i, 0 <= i < 2 ^ 64 -> (forall n x, ~ In (n, i, x) (assigned st)) ->
          lookup fuel st i = Some NULL)
    /\ (forall i, 2 ^ (sh * r_height (rt st)) <= i < 2 ^ 64 -> lookup fuel st i = Some NULL).
Proof.
  intros HB Hf.
  destruct (run_enter_spec fuel batches (empty_state sh budget) 0 (fun _ _ => NULL)
              (Inv_empty budget) ltac:(lia) ltac:(lia)) as (st & Hrun & N & na & Hinv).
  exists st. split; [exact Hrun|].
  pose proof (i_log _ _ _ _ _ Hinv) as Hlog.
  pose proof (i_N _ _ _ _ _ Hinv) as HN.
  assert (Hfuel : (32 <= fuel)%nat) by (pose proof (S_ge2 sh Hsh); lia).
  split; [|split].
  - intros n i x Hin.
    assert (Hi : In i (idxs (assigned st))).
    { unfold idxs. apply in_map_iff. exists (n, i, x). auto. }
    rewrite Hlog, In_down, Z2Nat.id in Hi by lia.
    rewrite (lookup_spec fuel st N na i Hinv ltac:(lia) Hfuel).
    rewrite (proj2 (Z.ltb_lt i N)) by lia. f_equal.
    apply (item_at_In _ n); [rewrite Hlog; apply NoDup_down|exact Hin].
  - intros i Hi Hno.
    rewrite (lookup_spec fuel st N na i Hinv Hi Hfuel).
    destruct (i <? N); [|reflexivity]. f_equal.
    apply item_at_notin. unfold idxs. intros Hin. apply in_map_iff in Hin.
    destruct Hin as [[[n j] x] [Ej Hin]]. simpl in Ej. subst j. exact (Hno n x Hin).
  - intros i Hi.
    assert (HNW : N <= W sh (r_height (rt st))).
    { destruct (i_H _ _ _ _ _ Hinv) as [[E0 ->]|(_ & ? & _)]; [|lia].
      rewrite E0. unfold W. rewrite Z.mul_0_r. lia. }
    unfold W in HNW.
    rewrite (lookup_spec fuel st N na i Hinv ltac:(lia) Hfuel).
    rewrite (proj2 (Z.ltb_ge i N)) by lia. reflexivity.
Qed.

End Top.

End SRadixProofs.

(* ================================================================= *)
(** ** Sparse radix tree: the claims *)

Module SRadixClaims.
Import SRadix SRadixRun.
Local Open Scope Z_scope.



(** X13: entering any sequence of batches with [sradix_tree_enter] into
    the empty tree, with shift 1 .. 31, at most [2^30] items in all,
    enough fuel and any allocator budget, ends without a crash; then
    [sradix_tree_lookup] returns the item logged by [assign] at every
    logged index, and NULL (not found) at every index below [2^64] never
    logged, in particular at every index from [2^(shift * height)] on. *)
Theorem sradix_enter_lookup_bounded :
  forall sh budget fuel batches,
    1 <= sh <= 31 ->
    Z.of_nat (length (concat batches)) <= 2 ^ 30 ->
    Z.of_nat (length (concat batches)) + 2 ^ sh + 40 <= Z.of_nat fuel ->
    exists st, run_ops fuel (map OpEnter batches) (empty_state sh budget) = Some st
      /\ (forall n i x, In (n, i, x) (assigned st) -> lookup fuel st i = Some x)
      /\ (forall i, 0 <= i < 2 ^ 64 -> (forall n x, ~ In (n, i, x) (assigned st)) ->
            lookup fuel st i = Some NULL)
      /\ (forall i, 2 ^ (sh * r_height (rt st)) <= i < 2 ^ 64 ->
            lookup fuel st i = Some NULL).
Proof.
  intros sh budget fuel batches Hsh HB Hf.
  exact (SRadixProofs.enter_lookup_general sh Hsh budget fuel batches HB Hf).
Qed.

(** X13 at a concrete input: [shift = 2], the five items of scenario B
    entered as one batch, allocator budget 100, fuel 60. *)
Lemma sradix_enter_lookup_bounded_witness :
  exists st, run_ops 60 (map OpEnter [scenB_items]) (empty_state 2 100) = Some st
    /\ (forall n i x, In (n, i, x) (assigned st) -> lookup 60 st i = Some x)
    /\ (forall i, 0 <= i < 2 ^ 64 -> (forall n x, ~ In (n, i, x) (assigned st)) ->
          lookup 60 st i = Some NULL)
    /\ (forall i, 2 ^ (2 * r_height (rt st)) <= i < 2 ^ 64 -> lookup 60 st i = Some NULL).
Proof.
  apply (sradix_enter_lookup_bounded 2 100%nat 60%nat [scenB_items]).
  - lia.
  - vm_compute. intros E. discriminate E.
  - vm_compute. intros E. discriminate E.
Defined.

(** C3 (code bug): the [count]/[fulls] invariant ([radix_inv]) is not
    preserved.  With [shift = 1]: nine items, then deleting index 8 (the
    tree shrinks and node 4 becomes the root, its [parent] still pointing
    at the freed node 8), deleting 7 and 6 (their leaf is freed), then
    entering one item, whose new leaf reuses address 8, and another one.
    The invariant holds in the empty tree and after each call but the
    last; every delete names the leaf the item was assigned in.  After
    the last call node 5, whose two children are full, has [fulls = 3]:
    the fullness walk went from the root node 4 up to its stale parent 8,
    now a leaf below node 5, and from there to node 5 a second time. *)
Theorem sradix_fulls_invariant_broken :
  radix_inv (empty_state 1 100) = true
  /\ trace 100 fulls_ops (empty_state 1 100)
     = Some [(true, 0, true); (true, 0, true); (true, 0, true);
             (true, 0, true); (true, 0, true); (true, 0, false)]
  /\ match run_ops 100 fulls_ops (empty_state 1 100) with
     | Some s =>
         r_rnode (rt s) = 4 /\ parent (hp s) 4 = 8
         /\ stores (hp s) 5 0 = 6 /\ stores (hp s) 5 1 = 8
         /\ sradix_node_full (rt s) (hp s) 6 = true
         /\ sradix_node_full (rt s) (hp s) 8 = true
         /\ fulls (hp s) 5 = 3 /\ r_stores_size (rt s) = 2
     | None => False
     end.
Proof. vm_compute. repeat split. Qed.

(** C4 (code bug, [lib/sradix-tree.c]): entering an item into a tree
    whose root is a full leaf with [min = 4] needs a new top node; the
    allocator fails and [sradix_tree_extend] returns [-ENOMEM], but this
    revision's [sradix_tree_enter] returns 0, the success value, having
    stored nothing.  The part_001 revision returns [-ENOMEM]. *)
Theorem sradix_lib_enter_hides_enomem :
  match SRadixLib.sradix_tree_extend 50 4 full_leaf_state with
  | Ok v _ => v = - ENOMEM
  | _ => False
  end
  /\ match SRadixLib.sradix_tree_enter 50 [201] 1 full_leaf_state with
     | Ok v s => v = 0 /\ assigned s = [] /\ r_height (rt s) = 1
     | _ => False
     end
  /\ match sradix_tree_enter 50 [201] 1 full_leaf_state with
     | Ok v _ => v = - ENOMEM
     | _ => False
     end.
Proof. vm_compute. repeat split. Qed.

(** C5 (code bug): deletion frees a node twice.  With [shift = 2]: five
    items (two leaves, nodes 1 and 3, under node 2), delete index 4 (the
    tree shrinks to the leaf node 1 and frees node 2, leaving node 1's
    [parent] at node 2), then delete 0 .. 3 from node 1: the last delete
    walks from node 1 to its stale parent and frees node 2 again.  Every
    delete names the leaf the item was assigned in; lookup finds none of
    the deleted indices; the emptied tree keeps [height = 1]. *)
Theorem sradix_delete_double_free :
  trace 100 del_ops (empty_state 2 100)
  = Some [(true, 0, true); (true, 0, true); (true, 0, true);
          (true, 0, true); (true, 0, true); (true, 0, true)]
  /\ match run_ops 100 del_ops (empty_state 2 100) with
     | Some s =>
         freed s = [2; 1; 3; 2]
         /\ map (lookup 100 s) [0; 1; 2; 3; 4]
            = [Some NULL; Some NULL; Some NULL; Some NULL; Some NULL]
         /\ r_rnode (rt s) = NULL /\ r_height (rt s) = 1
     | None => False
     end.
Proof. vm_compute. repeat split. Qed.

(** C8 (code bug): the "all full" value of [min] is computed as the
    [int] [1 << (height * shift)].  With [shift = 31], entering one item
    into [leaf31_state] fills the root leaf (the whole tree, height 1)
    and sets [min] to 18446744071562067968 (the sign-extended [INT_MIN])
    instead of [2^(31 * 1)]. *)
Theorem sradix_full_min_overflow :
  match sradix_tree_enter 50 [7] 1 leaf31_state with
  | Ok v s =>
      v = 0 /\ r_height (rt s) = 1 /\ r_shift (rt s) = 31
      /\ count (hp s) 1 = r_stores_size (rt s)
      /\ r_min (rt s) = 18446744071562067968
      /\ r_min (rt s) <> 2 ^ (r_shift (rt s) * r_height (rt s))
  | _ => False
  end.
Proof. vm_compute. repeat split; discriminate. Qed.


End SRadixClaims.

(* ================================================================= *)
(** ** Skip list: further properties of the code *)

Module SkipListExtra.
Import SkipList SkipListProofs SkipListClaims.

(** The fields of a node after [INIT_SKIPLIST_NODE]. *)
Lemma init_links_fields : forall n m node y l,
  nxt (init_links n m node) y l = (if Nat.eqb y node && Nat.ltb l n then node else nxt m y l) /\
  prv (init_links n m node) y l = (if Nat.eqb y node && Nat.ltb l n then node else prv m y l) /\
  lvl (init_links n m node) y = lvl m y /\ key (init_links n m node) y = key m y.
Proof.
  induction n as [|n IH]; intros m node y l.
  - cbn [init_links]. replace (Nat.ltb l 0) with false by (symmetry; apply Nat.ltb_ge; lia).
    rewrite andb_false_r. repeat split; reflexivity.
  - destruct (IH m node y l) as (E1 & E2 & E3 & E4).
    cbn [init_links set_prev set_next nxt prv lvl key]. unfold upd2.
    rewrite E1, E2, E3, E4.
    refine (conj _ (conj _ (conj eq_refl eq_refl)));
      destruct (Nat.eqb_spec y node); cbn [andb]; try reflexivity;
      destruct (Nat.eqb_spec l n), (Nat.ltb_spec l n), (Nat.ltb_spec l (S n));
      first [reflexivity | lia].
Qed.

Lemma INIT_fields : forall m node y l,
  nxt (INIT_SKIPLIST_NODE m node) y l =
    (if Nat.eqb y node && Nat.ltb l NUM_SKIPLIST_LEVEL then node else nxt m y l) /\
  prv (INIT_SKIPLIST_NODE m node) y l =
    (if Nat.eqb y node && Nat.ltb l NUM_SKIPLIST_LEVEL then node else prv m y l) /\
  lvl (INIT_SKIPLIST_NODE m node) y = (if Nat.eqb y node then 0%nat else lvl m y) /\
  key (INIT_SKIPLIST_NODE m node) y = (if Nat.eqb y node then u64_of_int (-1) else key m y).
Proof.
  intros m node y l. unfold INIT_SKIPLIST_NODE.
  destruct (init_links_fields NUM_SKIPLIST_LEVEL (set_level m node 0) node y l)
    as (E1 & E2 & E3 & E4).
  set (mi := init_links NUM_SKIPLIST_LEVEL (set_level m node 0) node) in *.
  clearbody mi. unfold set_key. cbn [nxt prv lvl key]. rewrite E1, E2, E3, E4.
  unfold set_level. cbn [nxt prv lvl key].
  split; [reflexivity|split; [reflexivity|split]].
  - reflexivity.
  - destruct (Nat.eqb y node); reflexivity.
Qed.

(** Unlinking a node whose level-[l] pointers point to itself changes
    nothing. *)
Lemma unlink1_self : forall m node l y k,
  nxt m node l = node -> prv m node l = node ->
  nxt (unlink1 m node l) y k = nxt m y k /\ prv (unlink1 m node l) y k = prv m y k /\
  lvl (unlink1 m node l) y = lvl m y /\ key (unlink1 m node l) y = key m y.
Proof.
  intros m node l y k Hn Hp. unfold unlink1. rewrite Hp, Hn.
  unfold set_prev, set_next, upd2. cbn [nxt prv lvl key].
  rewrite !Nat.eqb_refl. cbn [andb]. rewrite Hp.
  refine (conj _ (conj _ (conj eq_refl eq_refl)));
    destruct (Nat.eqb_spec y node), (Nat.eqb_spec k l); subst; cbn [andb]; congruence.
Qed.

(** Two memories that agree on every field. *)
Definition same_mem (m1 m2 : mem) : Prop :=
  forall y l, nxt m1 y l = nxt m2 y l /\ prv m1 y l = prv m2 y l /\
              lvl m1 y = lvl m2 y /\ key m1 y = key m2 y.

Lemma INIT_fixed : forall m m' node,
  same_mem m' m -> lvl m node = 0%nat -> key m node = u64_of_int (-1) ->
  (forall l, (l < NUM_SKIPLIST_LEVEL)%nat -> nxt m node l = node /\ prv m node l = node) ->
  same_mem (INIT_SKIPLIST_NODE m' node) m.
Proof.
  intros m m' node S Hl Hk Hs y l.
  destruct (INIT_fields m' node y l) as (E1 & E2 & E3 & E4).
  destruct (S y l) as (S1 & S2 & S3 & S4).
  rewrite E1, E2, E3, E4, S1, S2, S3, S4.
  destruct (Nat.eqb_spec y node) as [->|Hy]; cbn [andb]; [|repeat split; reflexivity].
  destruct (Nat.ltb_spec l NUM_SKIPLIST_LEVEL) as [Hlt|_].
  - destruct (Hs l Hlt) as [H1 H2]. rewrite H1, H2, Hl, Hk. repeat split; reflexivity.
  - rewrite Hl, Hk. repeat split; reflexivity.
Qed.

Lemma del_init_is_INIT : forall m head node,
  exists m2, skiplist_del_init m head node = INIT_SKIPLIST_NODE m2 node.
Proof. intros. eexists. reflexivity. Qed.

Lemma del_init_node_fields : forall m head node,
  lvl (skiplist_del_init m head node) node = 0%nat /\
  key (skiplist_del_init m head node) node = u64_of_int (-1) /\
  (forall l, (l < NUM_SKIPLIST_LEVEL)%nat ->
     nxt (skiplist_del_init m head node) node l = node /\
     prv (skiplist_del_init m head node) node l = node).
Proof.
  intros m head node. destruct (del_init_is_INIT m head node) as [m2 ->].
  split; [|split].
  - destruct (INIT_fields m2 node node 0) as (_ & _ & E & _). rewrite E, Nat.eqb_refl. reflexivity.
  - destruct (INIT_fields m2 node node 0) as (_ & _ & _ & E). rewrite E, Nat.eqb_refl. reflexivity.
  - intros l Hl. destruct (INIT_fields m2 node node l) as (E1 & E2 & _ & _).
    rewrite E1, E2, Nat.eqb_refl. apply Nat.ltb_lt in Hl. rewrite Hl. split; reflexivity.
Qed.

Lemma del_init_of_init : forall m1 head node,
  lvl m1 node = 0%nat -> key m1 node = u64_of_int (-1) ->
  (forall l, (l < NUM_SKIPLIST_LEVEL)%nat -> nxt m1 node l = node /\ prv m1 node l = node) ->
  same_mem (skiplist_del_init m1 head node) m1.
Proof.
  intros m1 head node Hl Hk Hs.
  destruct (Hs 0%nat ltac:(unfold NUM_SKIPLIST_LEVEL; lia)) as [Hn Hp].
  pose proof (unlink1_self m1 node 0%nat) as U0.
  unfold skiplist_del_init. rewrite Hl. cbn [unlink_upto].
  apply INIT_fixed; [|exact Hl|exact Hk|exact Hs].
  destruct (U0 head 0%nat Hn Hp) as (_ & _ & Uh & _).
  destruct (Nat.eqb_spec 0 (lvl (unlink1 m1 node 0) head)) as [E|E].
  - intros y l. cbn [lower]. unfold set_level. cbn [nxt prv lvl key].
    destruct (U0 y l Hn Hp) as (U1 & U2 & U3 & U4). rewrite U1, U2, U4.
    split; [reflexivity|split; [reflexivity|split; [|reflexivity]]].
    destruct (Nat.eqb_spec y head) as [->|]; congruence.
  - intros y l. exact (U0 y l Hn Hp).
Qed.

(** X8: [skiplist_del_init] leaves the node re-initialised, so a second call on
    the same node changes no field of the memory. *)
Theorem del_init_twice : forall m head node,
  same_mem (skiplist_del_init (skiplist_del_init m head node) head node)
           (skiplist_del_init m head node).
Proof.
  intros m head node.
  destruct (del_init_node_fields m head node) as (Hl & Hk & Hs).
  exact (del_init_of_init _ head node Hl Hk Hs).
Qed.


Lemma member_iff_reach : forall head m, reachable head m ->
  exists L, SLInv m head L /\ forall x, member m head x <-> In x L.
Proof.
  intros head m R. destruct (reachable_inv head m R) as [L I].
  exists L. split; [exact I|]. intros x. apply member_iff. exact I.
Qed.

(** X1: In a reachable state the header's level is below 16, no member has a
    level above it, and it is 0 or the level of some member. *)
Theorem reachable_head_level : forall head m, reachable head m ->
  (lvl m head < NUM_SKIPLIST_LEVEL)%nat /\
  (forall x, member m head x -> (lvl m x <= lvl m head)%nat) /\
  (lvl m head = 0%nat \/ exists x, member m head x /\ lvl m x = lvl m head).
Proof.
  intros head m R. destruct (member_iff_reach head m R) as (L & I & HM).
  rewrite (inv_hlvl _ _ _ I). split; [|split].
  - apply maxlvl_lt; [unfold NUM_SKIPLIST_LEVEL; lia|]. apply (inv_lvls _ _ _ I).
  - intros x Hx. apply maxlvl_ge. apply HM. exact Hx.
  - destruct (maxlvl m L) as [|k] eqn:E; [left; reflexivity|right].
    destruct (maxlvl_attained m L ltac:(rewrite E; lia)) as (x & Hx & Hl).
    exists x. split; [apply HM; exact Hx|congruence].
Qed.

(** X2: In a reachable state, [skiplist_empty] answers true exactly when no
    node is reachable from the header. *)
Theorem reachable_empty_iff : forall head m, reachable head m ->
  (skiplist_empty m head = true <-> forall x, ~ member m head x).
Proof.
  intros head m R. destruct (member_iff_reach head m R) as (L & I & HM).
  pose proof (inv_chain _ _ _ I 0 ltac:(unfold NUM_SKIPLIST_LEVEL; lia)) as C.
  rewrite lv0 in C. pose proof (inv_nodup _ _ _ I) as D. inversion D as [|? ? Hh _]; subst.
  unfold skiplist_empty. split.
  - intros He x Hx. apply HM in Hx. destruct L as [|y L]; [exact Hx|].
    destruct C as [C _]. unfold NX in C. rewrite C in He. apply Nat.eqb_eq in He.
    subst y. apply Hh. left. exact He.
  - intros Hn. destruct L as [|y L].
    + destruct C as [C _]. unfold NX in C. rewrite C. apply Nat.eqb_refl.
    + exfalso. apply (Hn y). apply HM. left. reflexivity.
Qed.

(** X3: In a reachable non-empty state the first node of level 0 is a member
    and its key is the smallest key of all members. *)
Theorem reachable_first_min : forall head m, reachable head m ->
  skiplist_empty m head = false ->
  member m head (nxt m head 0) /\
  (forall x, member m head x -> (key m (nxt m head 0) <= key m x)%Z).
Proof.
  intros head m R He. destruct (member_iff_reach head m R) as (L & I & HM).
  pose proof (inv_chain _ _ _ I 0 ltac:(unfold NUM_SKIPLIST_LEVEL; lia)) as C.
  rewrite lv0 in C. destruct L as [|y L].
  - destruct C as [C _]. unfold NX in C. unfold skiplist_empty in He.
    rewrite C, Nat.eqb_refl in He. discriminate.
  - destruct C as [C _]. unfold NX in C. rewrite C. split; [apply HM; left; reflexivity|].
    intros x Hx. apply HM in Hx. destruct Hx as [<-|Hx]; [lia|].
    pose proof (key_sorted_ss _ _ (inv_sorted _ _ _ I)) as SS.
    inversion SS as [|? ? _ Hall]; subst. rewrite Forall_forall in Hall. exact (Hall x Hx).
Qed.

Lemma enqueue_reach_inv : forall head m fuel node ky lv m', reachable head m ->
  node <> head -> ~ member m head node -> (lv < NUM_SKIPLIST_LEVEL)%nat ->
  (0 <= ky < 2 ^ 64)%Z -> enqueue fuel m head node ky lv = Some m' ->
  exists L, SLInv m head L /\ SLInv m' head (take_le m ky L ++ node :: drop_le m ky L) /\
    ~ In node L /\ key m' node = ky /\ (forall x, x <> node -> key m' x = key m x).
Proof.
  intros head m fuel node ky lvn m' R Hnh Hmem Hlv Hky Hen.
  destruct (reachable_inv head m R) as [L I]. exists L.
  rewrite (member_iff m head L node I) in Hmem.
  destruct (Z.eq_dec ky U64_MAX) as [E|Hne].
  - subst ky. rewrite (enqueue_max fuel m head L node lvn I Hnh) in Hen. discriminate.
  - destruct (insert_inv (fuel + S (length L)) m head L node ky lvn I Hnh Hmem Hlv
                ltac:(unfold U64_MAX in *; lia) ltac:(lia)) as (m'' & H1 & H2 & H3 & H4).
    apply (enqueue_mono _ (S (length L))) in Hen. rewrite Hen in H1.
    injection H1 as <-. auto.
Qed.

(** X4: Enqueueing a node that is not in the list (level below 16, u64 key)
    into a reachable state, when it returns, adds exactly that node to the
    members, gives it the requested key and changes no other key. *)
Theorem enqueue_members : forall head m fuel node ky lv m', reachable head m ->
  node <> head -> ~ member m head node -> (lv < NUM_SKIPLIST_LEVEL)%nat ->
  (0 <= ky < 2 ^ 64)%Z -> enqueue fuel m head node ky lv = Some m' ->
  (forall x, member m' head x <-> x = node \/ member m head x) /\
  key m' node = ky /\ (forall x, x <> node -> key m' x = key m x).
Proof.
  intros head m fuel node ky lvn m' R Hnh Hmem Hlv Hky Hen.
  destruct (enqueue_reach_inv head m fuel node ky lvn m' R Hnh Hmem Hlv Hky Hen)
    as (L & I & I' & _ & Hk & Ho).
  split; [|split; [exact Hk|exact Ho]].
  intros x. rewrite (member_iff _ _ _ x I'), (member_iff _ _ _ x I).
  assert (HL : In x L <-> In x (take_le m ky L ++ drop_le m ky L)) by (rewrite take_drop; tauto).
  rewrite HL, !in_app_iff. simpl. split; intros H; intuition congruence.
Qed.

(** X6: Deleting a member of a reachable state removes exactly that node from
    the members and changes no other member's key. *)
Theorem del_init_members : forall head m node, reachable head m -> member m head node ->
  (forall x, member (skiplist_del_init m head node) head x <-> x <> node /\ member m head x) /\
  (forall x, x <> node -> key (skiplist_del_init m head node) x = key m x).
Proof.
  intros head m node R Hm. destruct (reachable_inv head m R) as [L I].
  rewrite (member_iff m head L node I) in Hm.
  destruct (in_split _ _ Hm) as (A & B & E). subst L.
  destruct (delete_inv m head A node B I) as (I' & _ & _ & _ & _ & Ko).
  split; [|exact Ko].
  pose proof (inv_nodup _ _ _ I) as Nd. inversion Nd as [|? ? _ Nd']; subst.
  pose proof (NoDup_remove_2 _ _ _ Nd') as Hn.
  intros x. rewrite (member_iff _ _ _ x I'), (member_iff _ _ _ x I).
  rewrite !in_app_iff. simpl. split.
  - intros Hx. split; [intros ->; apply Hn; rewrite in_app_iff; exact Hx|tauto].
  - intros [Hx [H1|[H2|H3]]]; [tauto|congruence|tauto].
Qed.

(** X7: Enqueueing a fresh node into a reachable state and then deleting it
    gives back the same level-0 traversal from the header. *)
Theorem enqueue_del_init_walk : forall head m fuel node ky lv m', reachable head m ->
  node <> head -> ~ member m head node -> (lv < NUM_SKIPLIST_LEVEL)%nat ->
  (0 <= ky < 2 ^ 64)%Z -> enqueue fuel m head node ky lv = Some m' ->
  forall n, walk n (skiplist_del_init m' head node) head head = walk n m head head.
Proof.
  intros head m fuel node ky lvn m' R Hnh Hmem Hlv Hky Hen n.
  destruct (enqueue_reach_inv head m fuel node ky lvn m' R Hnh Hmem Hlv Hky Hen)
    as (L & I & I' & _ & _ & _).
  destruct (delete_inv _ _ _ _ _ I') as (I'' & _).
  rewrite (walk_L _ _ _ n I''), (walk_L _ _ _ n I), take_drop. reflexivity.
Qed.


Lemma mem1_enqueue : enqueue 10 mem1 hd0 2 3 1 = Some mem2.
Proof. vm_compute. reflexivity. Qed.

Lemma mem1_not2 : ~ member mem1 hd0 2.
Proof. intros [n Hn]. destruct n as [|[|n]]; vm_compute in Hn; intuition discriminate. Qed.

Lemma mem2_reachable : reachable hd0 mem2.
Proof.
  apply (r_ins hd0 mem1 mem2 10 2 3 1 mem1_reachable).
  - unfold hd0. lia.
  - exact mem1_not2.
  - unfold NUM_SKIPLIST_LEVEL. lia.
  - lia.
  - exact mem1_enqueue.
Qed.

(** The two-node list [mem2]: header level 1. *)
Lemma reachable_head_level_witness :
  reachable hd0 mem2 /\
  ((lvl mem2 hd0 < NUM_SKIPLIST_LEVEL)%nat /\
   (forall x, member mem2 hd0 x -> (lvl mem2 x <= lvl mem2 hd0)%nat) /\
   (lvl mem2 hd0 = 0%nat \/ exists x, member mem2 hd0 x /\ lvl mem2 x = lvl mem2 hd0)).
Proof. split; [exact mem2_reachable|]. exact (reachable_head_level hd0 mem2 mem2_reachable). Defined.

Lemma reachable_empty_iff_witness :
  reachable hd0 mem2 /\ (skiplist_empty mem2 hd0 = true <-> forall x, ~ member mem2 hd0 x).
Proof. split; [exact mem2_reachable|]. exact (reachable_empty_iff hd0 mem2 mem2_reachable). Defined.

(** In [mem2] the first node is node 2 (key 3, below key 5 of node 1). *)
Lemma reachable_first_min_witness :
  reachable hd0 mem2 /\ skiplist_empty mem2 hd0 = false /\
  (member mem2 hd0 (nxt mem2 hd0 0) /\
   (forall x, member mem2 hd0 x -> (key mem2 (nxt mem2 hd0 0) <= key mem2 x)%Z)).
Proof.
  assert (E : skiplist_empty mem2 hd0 = false) by (vm_compute; reflexivity).
  split; [exact mem2_reachable|]. split; [exact E|].
  exact (reachable_first_min hd0 mem2 mem2_reachable E).
Defined.

Lemma enqueue_members_witness :
  enqueue 10 mem1 hd0 2 3 1 = Some mem2 /\
  ((forall x, member mem2 hd0 x <-> x = 2%nat \/ member mem1 hd0 x) /\
   key mem2 2 = 3%Z /\ (forall x, x <> 2%nat -> key mem2 x = key mem1 x)).
Proof.
  split; [exact mem1_enqueue|].
  apply (enqueue_members hd0 mem1 10 2 3 1 mem2 mem1_reachable).
  - unfold hd0. lia.
  - exact mem1_not2.
  - unfold NUM_SKIPLIST_LEVEL. lia.
  - lia.
  - exact mem1_enqueue.
Defined.

(** Deleting node 1 from [mem2]. *)
Lemma del_init_members_witness :
  member mem2 hd0 1 /\
  ((forall x, member (skiplist_del_init mem2 hd0 1) hd0 x <-> x <> 1%nat /\ member mem2 hd0 x) /\
   (forall x, x <> 1%nat -> key (skiplist_del_init mem2 hd0 1) x = key mem2 x)).
Proof.
  assert (Hm : member mem2 hd0 1) by (exists 2%nat; vm_compute; right; left; reflexivity).
  split; [exact Hm|]. exact (del_init_members hd0 mem2 1 mem2_reachable Hm).
Defined.

Lemma enqueue_del_init_walk_witness :
  enqueue 10 mem1 hd0 2 3 1 = Some mem2 /\
  (forall n, walk n (skiplist_del_init mem2 hd0 2) hd0 hd0 = walk n mem1 hd0 hd0).
Proof.
  split; [exact mem1_enqueue|].
  apply (enqueue_del_init_walk hd0 mem1 10 2 3 1 mem2 mem1_reachable).
  - unfold hd0. lia.
  - exact mem1_not2.
  - unfold NUM_SKIPLIST_LEVEL. lia.
  - lia.
  - exact mem1_enqueue.
Defined.


End SkipListExtra.

(* ================================================================= *)
(** ** Skip list, first version: the levels [randomLevel] draws *)

Module SkipListV1Proofs.
Import SkipListV1.
Local Open Scope Z_scope.

Lemma land_mod r n : 0 <= n -> Z.land r (2 ^ n - 1) = r mod 2 ^ n.
Proof. intros Hn. rewrite <- Z.land_ones by exact Hn. now rewrite Z.ones_equiv, Z.sub_1_r. Qed.

Lemma randomLevel_mod entries r :
  randomLevel entries r = r mod level_band entries.
Proof.
  unfold randomLevel, level_band.
  destruct (entries >? 31); [exact (land_mod r 4 ltac:(lia))|].
  destruct (entries >? 15); [exact (land_mod r 3 ltac:(lia))|].
  destruct (entries >? 7); [exact (land_mod r 2 ltac:(lia))|].
  destruct (entries >? 3); [exact (land_mod r 1 ltac:(lia))|].
  rewrite Z.mod_1_r. reflexivity.
Qed.

(** X9: With [entries] entries, [randomLevel] of the first version returns
    exactly the levels [0 .. level_band entries - 1] over all 32-bit
    seeds: 1 level up to 3 entries, 2 up to 7, 4 up to 15, 8 up to 31 and
    16 from 32 on, so never more than 15. *)
Theorem randomLevel_range : forall entries l,
  (exists randseed, 0 <= randseed < 2 ^ 32 /\ randomLevel entries randseed = l)
  <-> 0 <= l < level_band entries.
Proof.
  intros entries l.
  assert (HB : 1 <= level_band entries <= 16)
    by (unfold level_band; destruct (entries >? 31), (entries >? 15), (entries >? 7), (entries >? 3); lia).
  split.
  - intros (r & Hr & <-). rewrite randomLevel_mod. apply Z.mod_pos_bound. lia.
  - intros Hl. exists l. split; [lia|]. rewrite randomLevel_mod. apply Z.mod_small. exact Hl.
Qed.

End SkipListV1Proofs.

(* ================================================================= *)
(** ** Sparse radix tree: [sradix_tree_next] *)

Module SRadixExtra.
Import ListNotations SRadix SRadixRun SRadixInv SRadixProofs.
Local Open Scope Z_scope.

Lemma scan_found fuel iter p o o' item st :
  p <> NULL -> o <= o' < r_stores_size (rt st) ->
  (forall x, o <= x < o' -> negb (stores (hp st) p x =? NULL) && iter_ok iter (stores (hp st) p x) x = false) ->
  negb (stores (hp st) p o' =? NULL) && iter_ok iter (stores (hp st) p o') o' = true ->
  o' - o < Z.of_nat fuel ->
  next_scan fuel iter p o item st = Ok (o', stores (hp st) p o') st.
Proof.
  revert o item. induction fuel as [|f IH]; intros o item Hp Ho Hskip Hhit Hf; [lia|].
  cbn [next_scan]. unfold bind, get_rt. cbv beta.
  rewrite (proj2 (Z.ltb_lt o _)) by lia.
  unfold rd_store, rd. rewrite (proj2 (Z.eqb_neq p NULL) Hp).
  destruct (Z.eq_dec o o') as [<-|Hne].
  - rewrite Hhit. reflexivity.
  - rewrite (Hskip o) by lia. apply IH; auto; try lia.
    intros x Hx. apply Hskip. lia.
Qed.

Lemma scan_hit fuel iter p o item st :
  p <> NULL -> o < r_stores_size (rt st) -> stores (hp st) p o <> NULL ->
  iter_ok iter (stores (hp st) p o) o = true -> (1 <= fuel)%nat ->
  next_scan fuel iter p o item st = Ok (o, stores (hp st) p o) st.
Proof.
  intros Hp Ho Hn Hi Hf. destruct fuel as [|f]; [lia|].
  cbn [next_scan]. unfold bind, get_rt. cbv beta.
  rewrite (proj2 (Z.ltb_lt o _)) by lia.
  unfold rd_store, rd. rewrite (proj2 (Z.eqb_neq p NULL) Hp).
  rewrite (proj2 (Z.eqb_neq _ NULL) Hn), Hi. reflexivity.
Qed.

Lemma scan_none fuel iter p o item st :
  p <> NULL -> 0 <= o < r_stores_size (rt st) ->
  (forall x, o <= x < r_stores_size (rt st) ->
     negb (stores (hp st) p x =? NULL) && iter_ok iter (stores (hp st) p x) x = false) ->
  r_stores_size (rt st) - o < Z.of_nat fuel ->
  next_scan fuel iter p o item st =
    Ok (r_stores_size (rt st), stores (hp st) p (r_stores_size (rt st) - 1)) st.
Proof.
  revert o item. induction fuel as [|f IH]; intros o item Hp Ho Hskip Hf; [lia|].
  cbn [next_scan]. unfold bind, get_rt. cbv beta.
  rewrite (proj2 (Z.ltb_lt o _)) by lia.
  unfold rd_store, rd. rewrite (proj2 (Z.eqb_neq p NULL) Hp).
  rewrite (Hskip o) by lia.
  destruct (Z.eq_dec (o + 1) (r_stores_size (rt st))) as [E|Hne].
  - destruct f as [|f]; [lia|]. cbn [next_scan]. unfold bind, get_rt. cbv beta.
    rewrite E, Z.ltb_irrefl. replace o with (r_stores_size (rt st) - 1) by lia. reflexivity.
  - apply IH; auto; try lia. intros x Hx. apply Hskip. lia.
Qed.

Lemma scan_past fuel iter p o item st :
  r_stores_size (rt st) <= o -> (1 <= fuel)%nat ->
  next_scan fuel iter p o item st = Ok (o, item) st.
Proof.
  intros Ho Hf. destruct fuel as [|f]; [lia|]. cbn [next_scan]. unfold bind, get_rt. cbv beta.
  rewrite (proj2 (Z.ltb_ge o _)) by lia. reflexivity.
Qed.

(** X12: Starting an iteration ([sradix_tree_next] with node NULL) on a
    tree whose root node is NULL crashes: the first loop reads the slots
    of [root->rnode], a NULL pointer. *)
Lemma sradix_next_empty_crash fuel index iter st :
  r_rnode (rt st) = NULL -> 0 < r_stores_size (rt st) -> (1 <= fuel)%nat ->
  sradix_tree_next fuel NULL index iter st = Crash.
Proof.
  intros Hr Hs Hf. destruct fuel as [|f]; [lia|].
  unfold sradix_tree_next, call, bind, get_rt. cbn [next_scan Z.eqb NULL]. unfold bind, get_rt.
  rewrite (proj2 (Z.ltb_lt 0 _)) by lia. unfold rd_store, rd. rewrite Hr. reflexivity.
Qed.


Lemma bind_ok {A B} (m : M A) (k : A -> M B) st a st' :
  m st = Ok a st' -> bind m k st = k a st'.
Proof. intros H. unfold bind. rewrite H. reflexivity. Qed.
Lemma bind_ret {A B} (m : M A) (k : A -> M B) st c st' :
  m st = Ret c st' -> bind m k st = Ret c st'.
Proof. intros H. unfold bind. rewrite H. reflexivity. Qed.
Lemma bind_get {B} (k : root -> M B) st : bind get_rt k st = k (rt st) st.
Proof. reflexivity. Qed.
Lemma call_ret m st c st' : m st = Ret c st' -> call m st = Ok c st'.
Proof. intros H. unfold call. rewrite H. reflexivity. Qed.
Lemma call_ok m st c st' : m st = Ok c st' -> call m st = Ok c st'.
Proof. intros H. unfold call. rewrite H. reflexivity. Qed.
Lemma rd_ok {A} (f : heap -> ptr -> A) p st : p <> NULL -> rd f p st = Ok (f (hp st) p) st.
Proof. intros Hp. unfold rd. rewrite (proj2 (Z.eqb_neq p NULL) Hp). reflexivity. Qed.


Lemma up_null fuel iter index off it st : (1 <= fuel)%nat ->
  next_up fuel iter NULL index off it st = Ok (NULL, off, it) st.
Proof. intros Hf. destruct fuel as [|f]; [lia|]. reflexivity. Qed.

Lemma up_hit fuel node index off it st :
  node <> NULL -> 0 <= Z.land index (r_mask (rt st)) ->
  Z.land index (r_mask (rt st)) + 1 < r_stores_size (rt st) ->
  stores (hp st) node (Z.land index (r_mask (rt st)) + 1) <> NULL -> (1 <= fuel)%nat ->
  next_up fuel None node index off it st =
    Ok (node, Z.land index (r_mask (rt st)) + 1,
        stores (hp st) node (Z.land index (r_mask (rt st)) + 1)) st.
Proof.
  intros Hn H0 Ho Hs Hf. destruct fuel as [|f]; [lia|].
  cbn [next_up]. rewrite (proj2 (Z.eqb_neq node NULL) Hn). rewrite bind_get.
  erewrite bind_ok; [|apply scan_hit; [exact Hn|lia|exact Hs|reflexivity|lia]].
  cbv beta iota. rewrite (proj2 (Z.ltb_lt _ _) Ho). reflexivity.
Qed.

Lemma up_miss f node index off it st :
  node <> NULL -> 0 <= Z.land index (r_mask (rt st)) ->
  (forall x, Z.land index (r_mask (rt st)) + 1 <= x < r_stores_size (rt st) ->
     stores (hp st) node x = NULL) ->
  r_stores_size (rt st) < Z.of_nat (S f) ->
  exists off' it', next_up (S f) None node index off it st =
    next_up f None (parent (hp st) node) (Z.shiftr index (r_shift (rt st))) off' it' st.
Proof.
  intros Hn H0 Hs Hf.
  cbn [next_up]. rewrite (proj2 (Z.eqb_neq node NULL) Hn). rewrite bind_get.
  destruct (Z.ltb_spec (Z.land index (r_mask (rt st)) + 1) (r_stores_size (rt st))) as [Hlt|Hge].
  - erewrite bind_ok.
    2:{ apply scan_none; [exact Hn|lia| |lia].
        intros x Hx. rewrite (Hs x Hx). reflexivity. }
    cbv beta iota. rewrite Z.ltb_irrefl.
    erewrite bind_ok; [|apply rd_ok; exact Hn]. rewrite bind_get.
    eexists; eexists; reflexivity.
  - erewrite bind_ok; [|apply scan_past; [exact Hge|lia]].
    cbv beta iota. rewrite (proj2 (Z.ltb_ge _ _) Hge).
    erewrite bind_ok; [|apply rd_ok; exact Hn]. rewrite bind_get.
    eexists; eexists; reflexivity.
Qed.

Lemma tail_null fuel node index st off it :
  node <> NULL -> next_up fuel None node index 0 NULL st = Ok (NULL, off, it) st ->
  sradix_tree_next fuel node index None st = Ok NULL st.
Proof.
  intros Hn Hu. unfold sradix_tree_next. apply call_ret. apply bind_ret.
  rewrite (proj2 (Z.eqb_neq node NULL) Hn).
  erewrite bind_ok; [|exact Hu]. reflexivity.
Qed.

Lemma tail_leaf fuel node index st nd off it :
  node <> NULL -> next_up fuel None node index 0 NULL st = Ok (nd, off, it) st ->
  nd <> NULL -> height (hp st) nd = 1 -> off <= r_stores_size (rt st) ->
  sradix_tree_next fuel node index None st = Ok it st.
Proof.
  intros Hn Hu Hd Hh Ho. unfold sradix_tree_next. apply call_ok.
  erewrite bind_ok.
  2:{ rewrite (proj2 (Z.eqb_neq node NULL) Hn).
      erewrite bind_ok; [|exact Hu]. cbv beta iota.
      rewrite (proj2 (Z.eqb_neq nd NULL) Hd).
      erewrite bind_ok; [|apply rd_ok; exact Hd]. rewrite Hh. reflexivity. }
  cbv beta iota. rewrite bind_get. rewrite Z.gtb_ltb, (proj2 (Z.ltb_ge _ _)) by lia.
  reflexivity.
Qed.

Lemma tail_down fuel node index st nd off it off' it' :
  node <> NULL -> next_up fuel None node index 0 NULL st = Ok (nd, off, it) st ->
  nd <> NULL -> 1 < height (hp st) nd ->
  next_down fuel None it st = Ok (off', it') st -> off' <= r_stores_size (rt st) ->
  sradix_tree_next fuel node index None st = Ok it' st.
Proof.
  intros Hn Hu Hd Hh Hdn Ho. unfold sradix_tree_next. apply call_ok.
  erewrite bind_ok.
  2:{ rewrite (proj2 (Z.eqb_neq node NULL) Hn).
      erewrite bind_ok; [|exact Hu]. cbv beta iota.
      rewrite (proj2 (Z.eqb_neq nd NULL) Hd).
      erewrite bind_ok; [|apply rd_ok; exact Hd].
      rewrite Z.gtb_ltb, (proj2 (Z.ltb_lt _ _) Hh). exact Hdn. }
  cbv beta iota. rewrite bind_get. rewrite Z.gtb_ltb, (proj2 (Z.ltb_ge _ _)) by lia.
  reflexivity.
Qed.

Lemma down_hit fuel it st :
  it <> NULL -> 0 < r_stores_size (rt st) -> stores (hp st) it 0 <> NULL -> (1 <= fuel)%nat ->
  next_down fuel None it st = Ok (0, stores (hp st) it 0) st.
Proof.
  intros Hn Hs Hx Hf. destruct fuel as [|f]; [lia|]. cbn [next_down].
  erewrite bind_ok; [|apply scan_hit; [exact Hn|lia|exact Hx|reflexivity|lia]].
  cbv beta iota. rewrite bind_get. rewrite (proj2 (Z.ltb_lt _ _) Hs). reflexivity.
Qed.

Lemma down_empty_leaf fuel it st :
  it <> NULL -> 0 < r_stores_size (rt st) -> height (hp st) it = 1 ->
  (forall x, 0 <= x < r_stores_size (rt st) -> stores (hp st) it x = NULL) ->
  r_stores_size (rt st) < Z.of_nat fuel ->
  next_down fuel None it st = Ok (r_stores_size (rt st), NULL) st.
Proof.
  intros Hn Hs Hh Hx Hf. destruct fuel as [|f]; [lia|]. cbn [next_down].
  erewrite bind_ok.
  2:{ apply scan_none; [exact Hn|lia| |lia]. intros y Hy. rewrite (Hx y) by lia. reflexivity. }
  cbv beta iota. rewrite bind_get. rewrite Z.ltb_irrefl.
  erewrite bind_ok; [|apply rd_ok; exact Hn]. rewrite Hh.
  rewrite (Hx (r_stores_size (rt st) - 1)) by lia. reflexivity.
Qed.

Section Next.
Variable sh : Z.
Hypothesis Hsh : 1 <= sh <= 31.

Lemma node_present st N na h k :
  Inv sh st N na lag0 -> dom sh (r_height (rt st)) h k -> na h k <> NULL ->
  node_at sh st N (r_height (rt st)) na lag0 h k.
Proof. intros Hinv Hd Hp. exact (l_node _ _ _ _ _ _ _ _ (i_loc _ _ _ _ _ Hinv _ _ Hd) Hp). Qed.


Lemma Inv_root st N na :
  Inv sh st N na lag0 -> 1 <= r_height (rt st) ->
  r_rnode (rt st) = na (r_height (rt st)) 0 /\ dom sh (r_height (rt st)) (r_height (rt st)) 0 /\
  na (r_height (rt st)) 0 <> NULL.
Proof.
  intros Hinv HH.
  assert (Hd : dom sh (r_height (rt st)) (r_height (rt st)) 0).
  { split; [lia|]. split; [lia|]. pose proof (W_pos sh Hsh (r_height (rt st)) ltac:(lia)). lia. }
  split; [|split; [exact Hd|]].
  - rewrite (i_rnode _ _ _ _ _ Hinv). destruct (Z.eqb_spec (r_height (rt st)) 0); [lia|reflexivity].
  - exact (l_top _ _ _ _ _ _ _ _ (i_loc _ _ _ _ _ Hinv _ _ Hd) eq_refl).
Qed.

Lemma first_leaf st N na :
  Inv sh st N na lag0 -> 1 <= r_height (rt st) -> 0 < N ->
  na 1 0 <> NULL /\ node_at sh st N (r_height (rt st)) na lag0 1 0 /\
  stores (hp st) (na 1 0) 0 = item_at (assigned st) 0.
Proof.
  intros Hinv HH HN.
  assert (Hd : dom sh (r_height (rt st)) 1 0).
  { split; [lia|]. split; [lia|]. pose proof (W_pos sh Hsh (r_height (rt st)) ltac:(lia)). lia. }
  assert (Hp : na 1 0 <> NULL) by (apply (l_lt _ _ _ _ _ _ _ _ (i_loc _ _ _ _ _ Hinv _ _ Hd)); lia).
  pose proof (node_present _ _ _ _ _ Hinv Hd Hp) as Hn.
  split; [exact Hp|]. split; [exact Hn|].
  rewrite (n_stores _ _ _ _ _ _ _ _ Hn 0) by (pose proof (S_ge2 sh Hsh); lia).
  rewrite Z.eqb_refl. replace (0 * W sh 1 + 0) with 0 by ring.
  rewrite (proj2 (Z.ltb_lt 0 N) HN). reflexivity.
Qed.

Lemma next_first st N na fuel idx x :
  Inv sh st N na lag0 -> 1 <= r_height (rt st) <= 2 -> 2 ^ sh + 32 <= Z.of_nat fuel ->
  lookup fuel st 0 = Some x -> x <> NULL ->
  sradix_tree_next fuel NULL idx None st = Ok x st.
Proof.
  intros Hinv HH Hf Hl Hx.
  pose proof (S_ge2 sh Hsh) as HS.
  rewrite (lookup_spec sh Hsh fuel st N na 0 Hinv ltac:(lia) ltac:(lia)) in Hl.
  destruct (Z.ltb_spec 0 N) as [HN|HN]; [|injection Hl; intros; congruence].
  injection Hl as Hl.
  destruct (Inv_root st N na Hinv ltac:(lia)) as (Er & Hd & Hp).
  destruct (first_leaf st N na Hinv ltac:(lia) HN) as (Hp1 & Hn1 & Hs1).
  pose proof (i_size _ _ _ _ _ Hinv) as Hsize.
  pose proof (node_present _ _ _ _ _ Hinv Hd Hp) as Hn.
  destruct fuel as [|f]; [lia|].
  unfold sradix_tree_next.
  destruct (Z.eq_dec (r_height (rt st)) 1) as [H1|H2].
  - apply call_ret. apply bind_ret. rewrite Z.eqb_refl. rewrite bind_get.
    rewrite Er, H1 in *.
    erewrite bind_ok; [|apply scan_hit; [exact Hp|lia|rewrite Hs1, Hl; exact Hx|reflexivity|lia]].
    + cbv beta iota.
      rewrite Z.geb_leb, (proj2 (Z.leb_gt _ _)) by lia.
      erewrite bind_ok; [|apply rd_ok; exact Hp1].
      rewrite (n_height _ _ _ _ _ _ _ _ Hn1), Z.eqb_refl.
      unfold throw. rewrite Hs1, Hl. reflexivity.
  - assert (H2' : r_height (rt st) = 2) by lia.
    apply call_ok. rewrite H2' in *.
    assert (Hs2 : stores (hp st) (na 2 0) 0 = na 1 0).
    { rewrite (n_stores _ _ _ _ _ _ _ _ Hn 0) by lia. reflexivity. }
    erewrite bind_ok.
    2:{ rewrite Z.eqb_refl. rewrite bind_get. rewrite Er.
        erewrite bind_ok; [|apply scan_hit; [exact Hp|lia|rewrite Hs2; exact Hp1|reflexivity|lia]].
        cbv beta iota. rewrite Z.geb_leb, (proj2 (Z.leb_gt _ _)) by lia.
        erewrite bind_ok; [|apply rd_ok; exact Hp].
        rewrite (n_height _ _ _ _ _ _ _ _ Hn). cbn [Z.eqb Pos.eqb].
        rewrite Hs2. destruct f as [|f]; [lia|]. cbn [next_down].
        erewrite bind_ok; [|apply scan_hit; [exact Hp1|lia|rewrite Hs1, Hl; exact Hx|reflexivity|lia]].
        cbv beta iota. rewrite bind_get. rewrite (proj2 (Z.ltb_lt 0 _)) by lia. reflexivity. }
    cbv beta iota. rewrite bind_get. rewrite Z.gtb_ltb, (proj2 (Z.ltb_ge _ 0)) by lia.
    unfold ret. rewrite Hs1, Hl. reflexivity.
Qed.


Lemma pos0 st N na h :
  Inv sh st N na lag0 -> 1 <= h <= r_height (rt st) -> 0 < N ->
  na h 0 <> NULL /\ node_at sh st N (r_height (rt st)) na lag0 h 0.
Proof.
  intros Hinv Hh HN.
  assert (Hd : dom sh (r_height (rt st)) h 0).
  { split; [lia|]. split; [lia|]. pose proof (W_pos sh Hsh (r_height (rt st)) ltac:(lia)). lia. }
  assert (Hp : na h 0 <> NULL) by (apply (l_lt _ _ _ _ _ _ _ _ (i_loc _ _ _ _ _ Hinv _ _ Hd)); lia).
  split; [exact Hp|]. exact (node_present _ _ _ _ _ Hinv Hd Hp).
Qed.

Lemma pos0_child st N na h :
  Inv sh st N na lag0 -> 2 <= h <= r_height (rt st) -> 0 < N ->
  stores (hp st) (na h 0) 0 = na (h - 1) 0.
Proof.
  intros Hinv Hh HN. destruct (pos0 st N na h Hinv ltac:(lia) HN) as [_ Hn].
  rewrite (n_stores _ _ _ _ _ _ _ _ Hn 0) by (pose proof (S_ge2 sh Hsh); lia).
  rewrite (proj2 (Z.eqb_neq h 1)) by lia. reflexivity.
Qed.

Lemma next_first_deep st N na fuel idx :
  Inv sh st N na lag0 -> 3 <= r_height (rt st) -> 2 ^ sh + 32 <= Z.of_nat fuel ->
  sradix_tree_next fuel NULL idx None st = Ok (na (r_height (rt st) - 2) 0) st.
Proof.
  intros Hinv HH Hf.
  pose proof (S_ge2 sh Hsh) as HS.
  pose proof (i_size _ _ _ _ _ Hinv) as Hsize.
  assert (HN : 0 < N).
  { destruct (i_H _ _ _ _ _ Hinv) as [[? _]|(_ & _ & [?|HW])]; try lia.
    pose proof (W_pos sh Hsh (r_height (rt st) - 1) ltac:(lia)). lia. }
  destruct (Inv_root st N na Hinv ltac:(lia)) as (Er & _ & _).
  set (H := r_height (rt st)) in *.
  destruct (pos0 st N na H Hinv ltac:(lia) HN) as [Hp Hn].
  destruct (pos0 st N na (H - 1) Hinv ltac:(lia) HN) as [Hp1 Hn1].
  destruct (pos0 st N na (H - 2) Hinv ltac:(lia) HN) as [Hp2 _].
  pose proof (pos0_child st N na H Hinv ltac:(lia) HN) as Hs.
  pose proof (pos0_child st N na (H - 1) Hinv ltac:(lia) HN) as Hs1.
  replace (H - 1 - 1) with (H - 2) in Hs1 by lia.
  destruct fuel as [|f]; [lia|].
  unfold sradix_tree_next. apply call_ok.
  erewrite bind_ok.
  2:{ rewrite Z.eqb_refl. rewrite bind_get. rewrite Er.
      erewrite bind_ok; [|apply scan_hit; [exact Hp|lia|rewrite Hs; exact Hp1|reflexivity|lia]].
      cbv beta iota. rewrite Z.geb_leb, (proj2 (Z.leb_gt _ _)) by lia.
      erewrite bind_ok; [|apply rd_ok; exact Hp].
      rewrite (n_height _ _ _ _ _ _ _ _ Hn), (proj2 (Z.eqb_neq H 1)) by lia.
      rewrite Hs. destruct f as [|f]; [lia|]. cbn [next_down].
      erewrite bind_ok; [|apply scan_hit; [exact Hp1|lia|rewrite Hs1; exact Hp2|reflexivity|lia]].
      cbv beta iota. rewrite bind_get. rewrite (proj2 (Z.ltb_lt 0 _)) by lia. reflexivity. }
  cbv beta iota. rewrite bind_get. rewrite Z.gtb_ltb, (proj2 (Z.ltb_ge _ 0)) by lia.
  unfold ret. rewrite Hs1. reflexivity.
Qed.

Lemma leaf_lt st N na j :
  Inv sh st N na lag0 -> 1 <= r_height (rt st) -> 0 <= j -> j * 2 ^ sh < N -> na 1 j <> NULL.
Proof.
  intros Hinv HH Hj HjN.
  assert (HNW : N <= W sh (r_height (rt st)))
    by (destruct (i_H _ _ _ _ _ Hinv) as [[? ?]|(? & ? & ?)]; lia).
  assert (Hd : dom sh (r_height (rt st)) 1 j) by (split; [lia|]; split; [lia|]; rewrite W_1; lia).
  apply (l_lt _ _ _ _ _ _ _ _ (i_loc _ _ _ _ _ Hinv _ _ Hd)). rewrite W_1. lia.
Qed.

Lemma leaf_gt st N na j :
  Inv sh st N na lag0 -> 1 <= r_height (rt st) -> 0 <= j -> j * 2 ^ sh < W sh (r_height (rt st)) ->
  N < j * 2 ^ sh -> na 1 j = NULL.
Proof.
  intros Hinv HH Hj HjW HjN.
  assert (Hd : dom sh (r_height (rt st)) 1 j) by (split; [lia|]; split; [lia|]; rewrite W_1; lia).
  apply (l_gt _ _ _ _ _ _ _ _ (i_loc _ _ _ _ _ Hinv _ _ Hd)). rewrite W_1. lia.
Qed.

Lemma leaf_at st N na j :
  Inv sh st N na lag0 -> 1 <= r_height (rt st) -> 0 <= j -> j * 2 ^ sh < W sh (r_height (rt st)) ->
  na 1 j <> NULL ->
  height (hp st) (na 1 j) = 1
  /\ parent (hp st) (na 1 j) = (if r_height (rt st) =? 1 then NULL else na 2 (j / 2 ^ sh))
  /\ forall o, 0 <= o < 2 ^ sh ->
       stores (hp st) (na 1 j) o =
       (if j * 2 ^ sh + o <? N then item_at (assigned st) (j * 2 ^ sh + o) else NULL).
Proof.
  intros Hinv HH Hj HjW Hp.
  assert (Hd : dom sh (r_height (rt st)) 1 j) by (split; [lia|]; split; [lia|]; rewrite W_1; lia).
  pose proof (node_present _ _ _ _ _ Hinv Hd Hp) as Hn.
  split; [exact (n_height _ _ _ _ _ _ _ _ Hn)|]. split.
  - rewrite (n_parent _ _ _ _ _ _ _ _ Hn).
    destruct (Z.eqb_spec 1 (r_height (rt st))) as [E|E];
      [rewrite <- E, Z.eqb_refl; reflexivity|].
    rewrite (proj2 (Z.eqb_neq _ 1)) by lia. reflexivity.
  - intros o Ho. rewrite (n_stores _ _ _ _ _ _ _ _ Hn o Ho), W_1. reflexivity.
Qed.

Lemma root2 st N na :
  Inv sh st N na lag0 -> r_height (rt st) = 2 ->
  r_rnode (rt st) = na 2 0 /\ na 2 0 <> NULL /\ height (hp st) (na 2 0) = 2
  /\ parent (hp st) (na 2 0) = NULL
  /\ forall j, 0 <= j < 2 ^ sh -> stores (hp st) (na 2 0) j = na 1 j.
Proof.
  intros Hinv H2.
  destruct (Inv_root st N na Hinv ltac:(lia)) as (Er & Hd & Hp).
  rewrite H2 in Er, Hd, Hp.
  assert (Hd' : dom sh (r_height (rt st)) 2 0) by (rewrite H2; exact Hd).
  pose proof (node_present _ _ _ _ _ Hinv Hd' Hp) as Hn.
  split; [exact Er|]. split; [exact Hp|]. split; [exact (n_height _ _ _ _ _ _ _ _ Hn)|]. split.
  - rewrite (n_parent _ _ _ _ _ _ _ _ Hn), H2. reflexivity.
  - intros j Hj. rewrite (n_stores _ _ _ _ _ _ _ _ Hn j Hj). reflexivity.
Qed.

Lemma next_succ st N na fuel i x :
  Inv sh st N na lag0 -> 1 <= r_height (rt st) <= 2 -> 2 ^ sh + 32 <= Z.of_nat fuel ->
  0 <= i < N -> lookup fuel st (i + 1) = Some x -> (x <> NULL \/ i + 1 = N) ->
  sradix_tree_next fuel
    (if r_height (rt st) =? 1 then r_rnode (rt st)
     else stores (hp st) (r_rnode (rt st)) (Z.shiftr i sh)) i None st = Ok x st.
Proof.
  intros Hinv HH Hf Hi Hl Hx.
  pose proof (S_ge2 sh Hsh) as HS.
  pose proof (i_size _ _ _ _ _ Hinv) as Hsize.
  pose proof (i_mask _ _ _ _ _ Hinv) as Hmask.
  pose proof (i_shift _ _ _ _ _ Hinv) as Hshift.
  pose proof (i_N _ _ _ _ _ Hinv) as HNb.
  assert (HNW : N <= W sh (r_height (rt st)))
    by (destruct (i_H _ _ _ _ _ Hinv) as [[? ?]|(? & ? & ?)]; lia).
  rewrite (lookup_spec sh Hsh fuel st N na (i + 1) Hinv ltac:(lia) ltac:(lia)) in Hl.
  injection Hl as Hl.
  assert (HW2 : W sh 2 = 2 ^ sh * 2 ^ sh) by (unfold W; rewrite <- Z.pow_add_r by lia; f_equal; lia).
  set (k := i / 2 ^ sh) in *. set (o := i mod 2 ^ sh) in *.
  assert (Hio : i = k * 2 ^ sh + o) by (unfold k, o; rewrite Z.mul_comm; apply Z.div_mod; lia).
  assert (Ho : 0 <= o < 2 ^ sh) by (apply Z.mod_pos_bound; lia).
  assert (Hk : 0 <= k) by (apply Z.div_pos; lia).
  assert (HkW : k * 2 ^ sh < W sh (r_height (rt st))) by lia.
  assert (Hkb : k < 2 ^ sh).
  { destruct (Z.eq_dec (r_height (rt st)) 1) as [E|E].
    - rewrite E, W_1 in HkW. nia.
    - replace (r_height (rt st)) with 2 in HkW by lia. rewrite HW2 in HkW. nia. }
  assert (HL : na 1 k <> NULL) by (apply (leaf_lt st N na k Hinv); lia).
  destruct (leaf_at st N na k Hinv ltac:(lia) Hk HkW HL) as (HLh & HLp & HLs).
  assert (Eleaf : (if r_height (rt st) =? 1 then r_rnode (rt st)
                   else stores (hp st) (r_rnode (rt st)) (Z.shiftr i sh)) = na 1 k).
  { destruct (Z.eqb_spec (r_height (rt st)) 1) as [E|E].
    - destruct (Inv_root st N na Hinv ltac:(lia)) as (Er & _ & _).
      rewrite Er, E. rewrite E, W_1 in HkW. replace k with 0 by nia. reflexivity.
    - destruct (root2 st N na Hinv ltac:(lia)) as (Er & _ & _ & _ & Hrs).
      rewrite Er, Z.shiftr_div_pow2 by lia. apply Hrs. lia. }
  rewrite Eleaf.
  assert (Hland : Z.land i (r_mask (rt st)) = o) by (rewrite Hmask, (land_mask sh Hsh); reflexivity).
  destruct fuel as [|f]; [lia|].
  assert (Hcase : (o + 1 < 2 ^ sh /\ i + 1 < N) \/ (i + 1 = N \/ o + 1 = 2 ^ sh)) by lia.
  destruct Hcase as [[Ho1 HiN]|HnA].
  - (* the next slot of the leaf *)
    destruct Hx as [Hx|Hx]; [|lia].
    assert (Es : stores (hp st) (na 1 k) (Z.land i (r_mask (rt st)) + 1) = x).
    { rewrite Hland, HLs by lia. replace (k * 2 ^ sh + (o + 1)) with (i + 1) by lia.
      rewrite (proj2 (Z.ltb_lt _ _) HiN), <- Hl; try rewrite (proj2 (Z.ltb_lt _ _) HiN); reflexivity. }
    rewrite <- Es. eapply tail_leaf; [exact HL| |exact HL|exact HLh|].
    + apply up_hit; [exact HL|lia|lia|rewrite Es; exact Hx|lia].
    + lia.
  - (* nothing after [i] in the leaf: the walk goes up *)
    assert (Hmiss : forall y, Z.land i (r_mask (rt st)) + 1 <= y < r_stores_size (rt st) ->
                      stores (hp st) (na 1 k) y = NULL).
    { intros y Hy. rewrite Hland, Hsize in Hy. rewrite HLs by lia.
      destruct (Z.ltb_spec (k * 2 ^ sh + y) N); [lia|reflexivity]. }
    destruct (up_miss f (na 1 k) i 0 NULL st HL ltac:(lia) Hmiss ltac:(lia)) as (off' & it' & Eu).
    destruct (Z.eqb_spec (r_height (rt st)) 1) as [E1|E2].
    + (* height 1: the leaf is the root, whose parent is NULL *)
      cbv iota in HLp. rewrite HLp in Eu.
      rewrite E1, W_1 in HkW, HNW.
      assert (Hx0 : x = NULL) by (destruct (Z.ltb_spec (i + 1) N); [nia|congruence]).
      rewrite Hx0. eapply tail_null; [exact HL|]. rewrite Eu. apply up_null. lia.
    + (* height 2: on to the root, at the slot after the leaf's *)
      destruct (root2 st N na Hinv ltac:(lia)) as (Er & HR & HRh & HRp & HRs).
      cbv iota in HLp. rewrite (Z.div_small k) in HLp by lia.
      rewrite HLp, Hshift, Z.shiftr_div_pow2 in Eu by lia. fold k in Eu.
      replace (r_height (rt st)) with 2 in HNW by lia. rewrite HW2 in HNW.
      assert (Hlandk : Z.land k (r_mask (rt st)) = k)
        by (rewrite Hmask, (land_mask sh Hsh), Z.mod_small; lia).
      destruct f as [|f]; [lia|].
      destruct (Z.ltb_spec (i + 1) N) as [HiN|HiN].
      * (* the first slot of the next leaf *)
        destruct Hx as [Hx|Hx]; [|lia].
        assert (Ho' : o + 1 = 2 ^ sh) by lia.
        assert (Hk1 : k + 1 < 2 ^ sh) by nia.
        assert (HL' : na 1 (k + 1) <> NULL) by (apply (leaf_lt st N na (k + 1) Hinv); lia).
        destruct (leaf_at st N na (k + 1) Hinv ltac:(lia) ltac:(lia)
                    ltac:(replace (r_height (rt st)) with 2 by lia; rewrite HW2; nia) HL')
          as (HL'h & _ & HL's).
        assert (Es : stores (hp st) (na 1 (k + 1)) 0 = x).
        { rewrite HL's by lia. replace ((k + 1) * 2 ^ sh + 0) with (i + 1) by lia.
          rewrite (proj2 (Z.ltb_lt _ _) HiN), <- Hl; try rewrite (proj2 (Z.ltb_lt _ _) HiN); reflexivity. }
        assert (Eu2 : next_up (S (S f)) None (na 1 k) i 0 NULL st
                      = Ok (na 2 0, k + 1, na 1 (k + 1)) st).
        { rewrite Eu. pose proof (up_hit (S f) (na 2 0) k off' it' st HR) as U.
          rewrite Hlandk, (HRs (k + 1)) in U by lia. apply U; [lia|lia|exact HL'|lia]. }
        rewrite <- Es.
        eapply tail_down; [exact HL|exact Eu2|exact HR|rewrite HRh; lia| |].
        -- apply down_hit; [exact HL'|lia|rewrite Es; exact Hx|lia].
        -- lia.
      * (* [i] is the last index: the answer is NULL *)
        assert (Hx0 : x = NULL) by (destruct (Z.ltb_spec (i + 1) N); [lia|congruence]).
        rewrite Hx0. clear Hx.
        assert (HkN : N <= (k + 1) * 2 ^ sh) by lia.
        assert (Hrest : forall j, k + 1 < j < 2 ^ sh -> na 1 j = NULL).
        { intros j Hj. apply (leaf_gt st N na j Hinv); [lia|lia| |nia].
          replace (r_height (rt st)) with 2 by lia. rewrite HW2. nia. }
        destruct (Z.eq_dec (k + 1) (2 ^ sh)) as [Ek|Ek];
          [|destruct (Z.eq_dec (na 1 (k + 1)) NULL) as [Hn|Hn]].
        -- (* the leaf was the root's last child *)
           destruct (up_miss f (na 2 0) k off' it' st HR ltac:(lia)
                       ltac:(intros y Hy; lia) ltac:(lia)) as (off2 & it2 & Eu').
           rewrite HRp in Eu'. eapply tail_null; [exact HL|]. rewrite Eu, Eu'.
           apply up_null. lia.
        -- (* no leaf after it *)
           assert (Hm : forall y, Z.land k (r_mask (rt st)) + 1 <= y < r_stores_size (rt st) ->
                          stores (hp st) (na 2 0) y = NULL).
           { intros y Hy. rewrite Hlandk, Hsize in Hy. rewrite HRs by lia.
             destruct (Z.eq_dec y (k + 1)) as [->|Hne]; [exact Hn|apply Hrest; lia]. }
           destruct (up_miss f (na 2 0) k off' it' st HR ltac:(lia) Hm ltac:(lia))
             as (off2 & it2 & Eu').
           rewrite HRp in Eu'. eapply tail_null; [exact HL|]. rewrite Eu, Eu'.
           apply up_null. lia.
        -- (* an empty leaf after it *)
           destruct (leaf_at st N na (k + 1) Hinv ltac:(lia) ltac:(lia)
                       ltac:(replace (r_height (rt st)) with 2 by lia; rewrite HW2; nia) Hn)
             as (HL'h & _ & HL's).
           assert (Eu2 : next_up (S (S f)) None (na 1 k) i 0 NULL st
                         = Ok (na 2 0, k + 1, na 1 (k + 1)) st).
           { rewrite Eu. pose proof (up_hit (S f) (na 2 0) k off' it' st HR) as U.
             rewrite Hlandk, (HRs (k + 1)) in U by lia. apply U; [lia|lia|exact Hn|lia]. }
           eapply tail_down; [exact HL|exact Eu2|exact HR|rewrite HRh; lia| |].
           ++ apply down_empty_leaf; [exact Hn|lia|exact HL'h| |lia].
              intros y Hy. rewrite Hsize in Hy. rewrite HL's by lia.
              destruct (Z.ltb_spec ((k + 1) * 2 ^ sh + y) N); [lia|reflexivity].
           ++ lia.
Qed.
End Next.

Lemma In_assigned sh st N na n i y :
  Inv sh st N na lag0 -> In (n, i, y) (assigned st) -> 0 <= i < N.
Proof.
  intros Hinv Hin. pose proof (i_N _ _ _ _ _ Hinv).
  assert (Hi : In i (idxs (assigned st))).
  { unfold idxs. apply in_map_iff. exists (n, i, y). auto. }
  rewrite (i_log _ _ _ _ _ Hinv), In_down, Z2Nat.id in Hi by lia. exact Hi.
Qed.

Lemma notin_assigned sh st N na j :
  Inv sh st N na lag0 -> 0 <= j -> (forall n y, ~ In (n, j, y) (assigned st)) -> N <= j.
Proof.
  intros Hinv Hj Hno. pose proof (i_N _ _ _ _ _ Hinv).
  destruct (Z.le_gt_cases N j) as [|Hlt]; [assumption|exfalso].
  assert (Hi : In j (idxs (assigned st))).
  { rewrite (i_log _ _ _ _ _ Hinv), In_down, Z2Nat.id by lia. lia. }
  unfold idxs in Hi. apply in_map_iff in Hi.
  destruct Hi as [[[n j'] y] [Ej Hin]]. simpl in Ej. subst j'. exact (Hno n y Hin).
Qed.

(** X10: On a tree of height at most 2 built by [sradix_tree_enter] calls
    from the empty tree (shift 1 .. 31, at most [2^30] items in all,
    enough fuel, any allocator budget), [sradix_tree_next] without a
    callback walks the
    items in index order: from node NULL it returns the item at index 0
    when that item is not NULL, and from the leaf holding index [i] with
    index [i] it returns the item at [i + 1] when that item is not NULL,
    and NULL when [i] is the last assigned index. *)
Theorem sradix_next_in_order sh budget fuel batches :
  1 <= sh <= 31 ->
  Z.of_nat (length (concat batches)) <= 2 ^ 30 ->
  Z.of_nat (length (concat batches)) + 2 ^ sh + 40 <= Z.of_nat fuel ->
  exists st, run_ops fuel (map OpEnter batches) (empty_state sh budget) = Some st
    /\ (r_height (rt st) <= 2 ->
        (forall idx x, lookup fuel st 0 = Some x -> x <> NULL ->
           sradix_tree_next fuel NULL idx None st = Ok x st)
        /\ (forall n i y x, In (n, i, y) (assigned st) -> lookup fuel st (i + 1) = Some x ->
              (x <> NULL \/ forall n' y', ~ In (n', i + 1, y') (assigned st)) ->
              sradix_tree_next fuel
                (if r_height (rt st) =? 1 then r_rnode (rt st)
                 else stores (hp st) (r_rnode (rt st)) (Z.shiftr i sh)) i None st = Ok x st)).
Proof.
  intros Hsh HB Hf.
  destruct (run_enter_spec sh Hsh fuel batches (empty_state sh budget) 0 (fun _ _ => NULL)
              (Inv_empty sh Hsh budget) ltac:(lia) ltac:(lia)) as (st & Hrun & N & na & Hinv).
  exists st. split; [exact Hrun|]. intros HH.
  pose proof (i_N _ _ _ _ _ Hinv) as HN.
  pose proof (H_bound sh Hsh st N na lag0 Hinv) as HHb.
  assert (HH1 : 0 < N -> 1 <= r_height (rt st))
    by (intros; destruct (i_H _ _ _ _ _ Hinv) as [[? ?]|(? & ? & ?)]; lia).
  split.
  - intros idx x Hl Hx.
    assert (HN0 : 0 < N).
    { rewrite (lookup_spec sh Hsh fuel st N na 0 Hinv ltac:(lia) ltac:(pose proof (S_ge2 sh Hsh); lia)) in Hl.
      destruct (Z.ltb_spec 0 N); [lia|congruence]. }
    apply (next_first sh Hsh st N na fuel idx x Hinv ltac:(specialize (HH1 HN0); lia) ltac:(lia) Hl Hx).
  - intros n i y x Hin Hl Hx.
    pose proof (In_assigned sh st N na n i y Hinv Hin) as Hi.
    apply (next_succ sh Hsh st N na fuel i x Hinv ltac:(specialize (HH1 ltac:(lia)); lia) ltac:(lia) Hi Hl).
    destruct Hx as [Hx|Hx]; [left; exact Hx|right].
    pose proof (notin_assigned sh st N na (i + 1) Hinv ltac:(lia) Hx). lia.
Qed.

(** X11: On a tree of height 3 or more built by [sradix_tree_enter] calls
    from the empty tree (shift 1 .. 31, at most [2^30] items in all,
    enough fuel, any allocator budget), [sradix_tree_next] from node NULL
    returns the
    node two levels below the root along slot 0, an internal node of
    height [height - 2], not an item: its descent stops after one step. *)
Theorem sradix_next_deep_node sh budget fuel batches :
  1 <= sh <= 31 ->
  Z.of_nat (length (concat batches)) <= 2 ^ 30 ->
  Z.of_nat (length (concat batches)) + 2 ^ sh + 40 <= Z.of_nat fuel ->
  exists st, run_ops fuel (map OpEnter batches) (empty_state sh budget) = Some st
    /\ (3 <= r_height (rt st) -> forall idx,
        sradix_tree_next fuel NULL idx None st
          = Ok (stores (hp st) (stores (hp st) (r_rnode (rt st)) 0) 0) st
        /\ stores (hp st) (stores (hp st) (r_rnode (rt st)) 0) 0 <> NULL
        /\ height (hp st) (stores (hp st) (stores (hp st) (r_rnode (rt st)) 0) 0)
           = r_height (rt st) - 2).
Proof.
  intros Hsh HB Hf.
  destruct (run_enter_spec sh Hsh fuel batches (empty_state sh budget) 0 (fun _ _ => NULL)
              (Inv_empty sh Hsh budget) ltac:(lia) ltac:(lia)) as (st & Hrun & N & na & Hinv).
  exists st. split; [exact Hrun|]. intros HH idx.
  assert (HN : 0 < N).
  { destruct (i_H _ _ _ _ _ Hinv) as [[? _]|(_ & _ & [?|HW])]; try lia.
    pose proof (W_pos sh Hsh (r_height (rt st) - 1) ltac:(lia)). lia. }
  destruct (Inv_root sh Hsh st N na Hinv ltac:(lia)) as (Er & _ & _).
  rewrite Er.
  rewrite (pos0_child sh Hsh st N na (r_height (rt st)) Hinv ltac:(lia) HN).
  rewrite (pos0_child sh Hsh st N na (r_height (rt st) - 1) Hinv ltac:(lia) HN).
  replace (r_height (rt st) - 1 - 1) with (r_height (rt st) - 2) by lia.
  destruct (pos0 sh Hsh st N na (r_height (rt st) - 2) Hinv ltac:(lia) HN) as [Hp Hn].
  split; [|split; [exact Hp|exact (n_height _ _ _ _ _ _ _ _ Hn)]].
  exact (next_first_deep sh Hsh st N na fuel idx Hinv HH ltac:(lia)).
Qed.

Lemma sradix_next_in_order_witness :
  exists st, run_ops 60 (map OpEnter [scenB_items]) (empty_state 2 100) = Some st
    /\ sradix_tree_next 60 NULL 0 None st = Ok 101 st
    /\ sradix_tree_next 60 (stores (hp st) (r_rnode (rt st)) 0) 1 None st = Ok 103 st
    /\ sradix_tree_next 60 (stores (hp st) (r_rnode (rt st)) 0) 3 None st = Ok 105 st
    /\ sradix_tree_next 60 (stores (hp st) (r_rnode (rt st)) 1) 4 None st = Ok NULL st.
Proof.
  assert (B1 : Z.of_nat (length (concat [scenB_items])) <= 2 ^ 30)
    by (vm_compute; intros E; discriminate E).
  assert (B2 : Z.of_nat (length (concat [scenB_items])) + 2 ^ 2 + 40 <= Z.of_nat 60)
    by (vm_compute; intros E; discriminate E).
  destruct (sradix_next_in_order 2 100 60 [scenB_items] ltac:(lia) B1 B2) as (st & Hrun & Hn).
  assert (F : match run_ops 60 (map OpEnter [scenB_items]) (empty_state 2 100) with
              | Some s => r_height (rt s) = 2 /\ lookup 60 s 0 = Some 101
                          /\ lookup 60 s 2 = Some 103 /\ lookup 60 s 4 = Some 105
                          /\ lookup 60 s 5 = Some NULL
                          /\ assigned s = [(3, 4, 105); (1, 3, 104); (1, 2, 103); (1, 1, 102); (1, 0, 101)]
              | None => False
              end) by (vm_compute; repeat split; reflexivity).
  rewrite Hrun in F. destruct F as (Hh & L0 & L2 & L4 & L5 & Ha).
  assert (H2 : r_height (rt st) <= 2) by lia.
  destruct (Hn H2) as [Hf Hs].
  assert (I1 : In (1, 1, 102) (assigned st)) by (rewrite Ha; simpl; tauto).
  assert (I3 : In (1, 3, 104) (assigned st)) by (rewrite Ha; simpl; tauto).
  assert (I4 : In (3, 4, 105) (assigned st)) by (rewrite Ha; simpl; tauto).
  assert (D3 : 103 <> NULL) by discriminate.
  assert (D5 : 105 <> NULL) by discriminate.
  assert (Hno : forall n y, ~ In (n, 4 + 1, y) (assigned st)).
  { intros n y Hin. rewrite Ha in Hin. simpl in Hin.
    repeat (destruct Hin as [Hin|Hin]; [injection Hin; intros; lia|]). exact Hin. }
  pose proof (Hs 1 1 102 103 I1 L2 (or_introl D3)) as E1.
  pose proof (Hs 1 3 104 105 I3 L4 (or_introl D5)) as E3.
  pose proof (Hs 3 4 105 NULL I4 L5 (or_intror Hno)) as E4.
  rewrite Hh in E1, E3, E4. change (2 =? 1) with false in E1, E3, E4. cbv iota in E1, E3, E4.
  change (Z.shiftr 1 2) with 0 in E1. change (Z.shiftr 3 2) with 0 in E3.
  change (Z.shiftr 4 2) with 1 in E4.
  assert (D1 : 101 <> NULL) by discriminate.
  pose proof (Hf 0 101 L0 D1) as E0.
  exists st. split; [exact Hrun|]. split; [exact E0|]. split; [exact E1|]. split; [exact E3|exact E4].
Defined.

Lemma sradix_next_deep_node_witness :
  exists st, run_ops 60 (map OpEnter [scenB_items]) (empty_state 1 100) = Some st
    /\ r_height (rt st) = 3 /\ lookup 60 st 0 = Some 101
    /\ sradix_tree_next 60 NULL 0 None st
       = Ok (stores (hp st) (stores (hp st) (r_rnode (rt st)) 0) 0) st
    /\ height (hp st) (stores (hp st) (stores (hp st) (r_rnode (rt st)) 0) 0) = 1.
Proof.
  assert (B1 : Z.of_nat (length (concat [scenB_items])) <= 2 ^ 30)
    by (vm_compute; intros E; discriminate E).
  assert (B2 : Z.of_nat (length (concat [scenB_items])) + 2 ^ 1 + 40 <= Z.of_nat 60)
    by (vm_compute; intros E; discriminate E).
  destruct (sradix_next_deep_node 1 100 60 [scenB_items] ltac:(lia) B1 B2) as (st & Hrun & Hn).
  assert (F : match run_ops 60 (map OpEnter [scenB_items]) (empty_state 1 100) with
              | Some s => r_height (rt s) = 3 /\ lookup 60 s 0 = Some 101
              | None => False
              end) by (vm_compute; split; reflexivity).
  rewrite Hrun in F. destruct F as (Hh & L0).
  assert (H3 : 3 <= r_height (rt st)) by lia.
  destruct (Hn H3 0) as (E & _ & Ht).
  exists st. split; [exact Hrun|]. split; [exact Hh|]. split; [exact L0|].
  split; [exact E|]. rewrite Ht, Hh. reflexivity.
Defined.

Lemma sradix_next_empty_crash_witness :
  r_rnode (rt (empty_state 2 100)) = NULL /\ 0 < r_stores_size (rt (empty_state 2 100))
  /\ sradix_tree_next 10 NULL 0 None (empty_state 2 100) = Crash.
Proof.
  assert (R : r_rnode (rt (empty_state 2 100)) = NULL) by reflexivity.
  assert (S : 0 < r_stores_size (rt (empty_state 2 100))) by (vm_compute; reflexivity).
  split; [exact R|]. split; [exact S|].
  apply (sradix_next_empty_crash 10 0 None (empty_state 2 100) R S). lia.
Defined.

End SRadixExtra.
